(** * Swagger-to-llm: the [openapi] package (src/main.go)

    A shallow embedding of the document model, the Swagger 2.0 converter,
    the reference resolver and the text renderer, with the properties the
    specification states about them.

    Conventions of the embedding.
    - A Go [string] is a byte sequence: Rocq's [string], one [ascii] per byte.
    - [*Parameter] and [*MediaType] are addresses into a [Store]; these are
      the only objects the package writes through a pointer
      ([&param.Schema], [&mt.Schema]), so they are the ones whose sharing
      is observable.  [nil] is [None].
    - [*Schema], [*RequestBody] and [*Response] objects are never written
      after they are built (only the pointers to them are swapped), so such
      a pointer is held as the value it points to, [None] for [nil].
    - A Go map that is only looked up (the four component tables) is a
      [gmap]; a [nil] map is the empty one.  A Go map that is iterated
      ([Responses], [Content], [Paths]) is an association list whose order
      is the order in which [range] yields the entries; Go leaves that
      order open, and the statements below hold for every list, hence for
      every order.  Keys of such a list are pairwise different. *)

From stdpp Require Import gmap strings list fin_maps.

Local Open Scope string_scope.
Local Open Scope list_scope.

(** ** Strings (package [strings]) *)

(** [s[n:]] for [n <= len(s)]. *)
Fixpoint drop_bytes (n : nat) (s : string) : string :=
  match n, s with
  | O, _ => s
  | S _, EmptyString => EmptyString
  | S k, String _ rest => drop_bytes k rest
  end.

Definition HasPrefix (s prefix : string) : bool := String.prefix prefix s.

Definition TrimPrefix (s prefix : string) : string :=
  if HasPrefix s prefix then drop_bytes (String.length prefix) s else s.

(** ** Simplified API spec structures *)

(** A pointer: the index of its object in the store. *)
Abbreviation ptr := nat (only parsing).

Module Schema.
Record t := mk { Type_ : string; Ref : string }.
End Schema.

Module MediaType.
Record t := mk { Schema : option Schema.t }.
End MediaType.

Module Param.
Record t := mk {
  Name : string;
  In : string;
  Required : bool;
  Type_ : string;
  Schema : option Schema.t;
  Description : string;
  Ref : string
}.
Definition with_Schema (s : option Schema.t) (p : t) : t :=
  mk (Name p) (In p) (Required p) (Type_ p) s (Description p) (Ref p).
End Param.

(** [map[string]*MediaType], in iteration order. *)
Definition ContentMap := list (string * option ptr).

Module RequestBody.
Record t := mk { Description : string; Content : ContentMap; Ref : string }.
End RequestBody.

Module Response.
Record t := mk { Description : string; Content : ContentMap; Ref : string }.
End Response.

Module Endpoint.
Record t := mk {
  Path : string;
  Method : string;
  Summary : string;
  Description : string;
  Parameters : list (option ptr);
  RequestBody : option RequestBody.t;
  Responses : list (string * option Response.t)
}.
Definition with_Parameters (ps : list (option ptr)) (e : t) : t :=
  mk (Path e) (Method e) (Summary e) (Description e) ps (RequestBody e) (Responses e).
Definition with_RequestBody (rb : option RequestBody.t) (e : t) : t :=
  mk (Path e) (Method e) (Summary e) (Description e) (Parameters e) rb (Responses e).
Definition with_Responses (rs : list (string * option Response.t)) (e : t) : t :=
  mk (Path e) (Method e) (Summary e) (Description e) (Parameters e) (RequestBody e) rs.
End Endpoint.

Module Components.
Record t := mk {
  Schemas : gmap string (option Schema.t);
  Parameters : gmap string (option ptr);
  RequestBodies : gmap string (option RequestBody.t);
  Responses : gmap string (option Response.t)
}.
End Components.

Module APIDocument.
Record t := mk {
  Title : string;
  Version : string;
  Description : string;
  Endpoints : list Endpoint.t;
  Servers : list string;
  Components : option Components.t
}.
Definition with_Endpoints (es : list Endpoint.t) (d : t) : t :=
  mk (Title d) (Version d) (Description d) es (Servers d) (Components d).
(** [APIDocument{}] *)
Definition zero : t := mk "" "" "" [] [] None.
End APIDocument.

(** The objects behind [*Parameter] and [*MediaType] pointers.  A pointer is
    an index; [new] objects are appended. *)
Module Store.
Record t := mk { parameters : list Param.t; mediaTypes : list MediaType.t }.
Definition empty : t := mk [] [].
Definition set_parameter (a : ptr) (p : Param.t) (st : t) : t :=
  mk (<[a := p]> (parameters st)) (mediaTypes st).
Definition set_mediaType (m : ptr) (mt : MediaType.t) (st : t) : t :=
  mk (parameters st) (<[m := mt]> (mediaTypes st)).
Definition new_parameter (p : Param.t) (st : t) : t * ptr :=
  (mk (parameters st ++ [p]) (mediaTypes st), length (parameters st)).
End Store.

(** What a call leaves behind: [Done] is a [nil] error, [Failed msg] an
    error whose text is [msg], [Panic] a run-time panic (a nil pointer
    dereference; an address outside the store, which no Go value holds, is
    reported the same way). *)
Inductive outcome := Done | Failed (msg : string) | Panic.

(** A [range] loop that may rewrite the element it visits and returns on the
    first outcome other than [Done]; elements not reached stay as they are. *)
Fixpoint rangeUpdate {A : Type} (body : Store.t -> A -> Store.t * A * outcome)
    (st : Store.t) (xs : list A) : Store.t * list A * outcome :=
  match xs with
  | [] => (st, [], Done)
  | x :: rest =>
      let '(st1, x', o) := body st x in
      match o with
      | Done =>
          let '(st2, rest', o2) := rangeUpdate body st1 rest in
          (st2, x' :: rest', o2)
      | _ => (st1, x' :: rest, o)
      end
  end.

(** A [range] loop that only reads its elements. *)
Fixpoint rangeDo {A : Type} (body : Store.t -> A -> Store.t * outcome)
    (st : Store.t) (xs : list A) : Store.t * outcome :=
  match xs with
  | [] => (st, Done)
  | x :: rest =>
      let '(st1, o) := body st x in
      match o with
      | Done => rangeDo body st1 rest
      | _ => (st1, o)
      end
  end.

(** ** Reference resolution *)

Definition extractNameFromRef (ref componentType : string) : string :=
  let prefix := "#/components/" +:+ componentType +:+ "/" in
  TrimPrefix ref prefix.

Section Resolution.
(** [fmt.Errorf(format)] called with no operands, as the text of the error
    it builds.  The package passes the assembled message as the format. *)
Variable Errorf : string -> string.

(** [resolveSchema(s, doc)], below the [doc.Components == nil] guard of
    its caller: [c] is [*doc.Components].  The result is the new [*s]. *)
Definition resolveSchema (c : Components.t) (s : option Schema.t)
    : option Schema.t * outcome :=
  match s with
  | None => (None, Done)
  | Some sc =>
      if decide (Schema.Ref sc = "") then (s, Done)
      else
        let refName := extractNameFromRef (Schema.Ref sc) "schemas" in
        match Components.Schemas c !! refName with
        | Some resolved => (resolved, Done)
        | None => (s, Failed (Errorf ("unresolved schema reference: " +:+ Schema.Ref sc)))
        end
  end.

(** Body of [for j, param := range ep.Parameters]: [slot] is
    [ep.Parameters[j]] and [param] the pointer read from it when the
    iteration starts. *)
Definition resolveParameter (c : Components.t) (st : Store.t) (slot : option ptr)
    : Store.t * option ptr * outcome :=
  match slot with
  | None => (st, slot, Done)
  | Some param =>
      match Store.parameters st !! param with
      | None => (st, slot, Panic)
      | Some p =>
          let step :=
            if decide (Param.Ref p = "") then inl slot
            else
              let refName := extractNameFromRef (Param.Ref p) "parameters" in
              match Components.Parameters c !! refName with
              | Some resolved => inl resolved
              | None => inr (Errorf ("unresolved parameter reference: " +:+ Param.Ref p))
              end in
          match step with
          | inr msg => (st, slot, Failed msg)
          | inl slot' =>
              let '(s', o) := resolveSchema c (Param.Schema p) in
              (Store.set_parameter param (Param.with_Schema s' p) st, slot', o)
          end
      end
  end.

(** Body of [for _, mt := range ....Content]. *)
Definition resolveMediaType (c : Components.t) (st : Store.t) (entry : string * option ptr)
    : Store.t * outcome :=
  match entry.2 with
  | None => (st, Done)
  | Some mt =>
      match Store.mediaTypes st !! mt with
      | None => (st, Panic)
      | Some m =>
          match MediaType.Schema m with
          | None => (st, Done)
          | Some _ =>
              let '(s', o) := resolveSchema c (MediaType.Schema m) in
              (Store.set_mediaType mt (MediaType.mk s') st, o)
          end
      end
  end.

(** The [ep.RequestBody] block; the result is the new [ep.RequestBody]. *)
Definition resolveRequestBody (c : Components.t) (st : Store.t)
    (body : option RequestBody.t) : Store.t * option RequestBody.t * outcome :=
  match body with
  | None => (st, body, Done)
  | Some rb =>
      let step :=
        if decide (RequestBody.Ref rb = "") then inl body
        else
          let refName := extractNameFromRef (RequestBody.Ref rb) "requestBodies" in
          match Components.RequestBodies c !! refName with
          | Some resolved => inl resolved
          | None => inr (Errorf ("unresolved requestBody reference: " +:+ RequestBody.Ref rb))
          end in
      match step with
      | inr msg => (st, body, Failed msg)
      | inl body' =>
          match body' with
          | None => (st, body', Panic)
          | Some rb' =>
              let '(st', o) := rangeDo (resolveMediaType c) st (RequestBody.Content rb') in
              (st', body', o)
          end
      end
  end.

(** Body of [for code, resp := range ep.Responses]; the entry visited is
    the one [ep.Responses[code] = resolved] overwrites. *)
Definition resolveResponse (c : Components.t) (st : Store.t)
    (entry : string * option Response.t) : Store.t * (string * option Response.t) * outcome :=
  match entry.2 with
  | None => (st, entry, Done)
  | Some resp =>
      let step :=
        if decide (Response.Ref resp = "") then inl (entry.2)
        else
          let refName := extractNameFromRef (Response.Ref resp) "responses" in
          match Components.Responses c !! refName with
          | Some resolved => inl resolved
          | None => inr (Errorf ("unresolved response reference: " +:+ Response.Ref resp))
          end in
      match step with
      | inr msg => (st, entry, Failed msg)
      | inl slot' =>
          let '(st', o) := rangeDo (resolveMediaType c) st (Response.Content resp) in
          (st', (entry.1, slot'), o)
      end
  end.

(** Body of [for i := range doc.Endpoints], on [ep := &doc.Endpoints[i]]. *)
Definition resolveEndpoint (c : Components.t) (st : Store.t) (ep : Endpoint.t)
    : Store.t * Endpoint.t * outcome :=
  let '(st1, ps, o1) := rangeUpdate (resolveParameter c) st (Endpoint.Parameters ep) in
  let ep1 := Endpoint.with_Parameters ps ep in
  match o1 with
  | Done =>
      let '(st2, rb, o2) := resolveRequestBody c st1 (Endpoint.RequestBody ep1) in
      let ep2 := Endpoint.with_RequestBody rb ep1 in
      match o2 with
      | Done =>
          let '(st3, rs, o3) := rangeUpdate (resolveResponse c) st2 (Endpoint.Responses ep2) in
          (st3, Endpoint.with_Responses rs ep2, o3)
      | _ => (st2, ep2, o2)
      end
  | _ => (st1, ep1, o1)
  end.

(** [ResolveReferences(doc)]: the store and the document as the call
    leaves them, and the error it returns. *)
Definition ResolveReferences (st : Store.t) (doc : APIDocument.t)
    : Store.t * APIDocument.t * outcome :=
  match APIDocument.Components doc with
  | None => (st, doc, Done)
  | Some c =>
      let '(st', eps, o) := rangeUpdate (resolveEndpoint c) st (APIDocument.Endpoints doc) in
      (st', APIDocument.with_Endpoints eps doc, o)
  end.
End Resolution.


(** ** Vocabulary for the resolver's properties *)

(** A schema pointer that carries no descriptor. *)
Definition schemaQuiet (s : option Schema.t) : Prop :=
  forall sc, s = Some sc -> Schema.Ref sc = "".

(** The four kinds of descriptor and their component tables. *)
Inductive refKind := SchemaRef | ParameterRef | RequestBodyRef | ResponseRef.

Definition kindWord (k : refKind) : string :=
  match k with
  | SchemaRef => "schema" | ParameterRef => "parameter"
  | RequestBodyRef => "requestBody" | ResponseRef => "response"
  end.

(** The descriptor [ref] of kind [k] names nothing in its table. *)
Definition missing (c : Components.t) (k : refKind) (ref : string) : Prop :=
  ref <> ""
  /\ match k with
     | SchemaRef => Components.Schemas c !! extractNameFromRef ref "schemas" = None
     | ParameterRef => Components.Parameters c !! extractNameFromRef ref "parameters" = None
     | RequestBodyRef =>
         Components.RequestBodies c !! extractNameFromRef ref "requestBodies" = None
     | ResponseRef => Components.Responses c !! extractNameFromRef ref "responses" = None
     end.

(** A schema pointer whose descriptor, if it carries one, names a schema. *)
Definition schemaFine (c : Components.t) (s : option Schema.t) : Prop :=
  forall sc, s = Some sc -> ~ missing c SchemaRef (Schema.Ref sc).

(** One resolution of a schema pointer: [s] carries a descriptor and [s']
    is what the schema table holds under its name. *)
Definition schemaHit (c : Components.t) (s s' : option Schema.t) : Prop :=
  exists sc, s = Some sc
             /\ Schema.Ref sc <> ""
             /\ Components.Schemas c !! extractNameFromRef (Schema.Ref sc) "schemas"
                = Some s'.

(** How resolution moves the store: no object is added or dropped, a
    parameter changes in its [Schema] field only, an object whose schema
    carries no descriptor does not change at all, an object changes only
    when the descriptor of its schema names a schema, and the schema it
    then holds is reached from the one it held by resolutions. *)
Definition resolves (c : Components.t) (st st' : Store.t) : Prop :=
  length (Store.parameters st') = length (Store.parameters st)
  /\ length (Store.mediaTypes st') = length (Store.mediaTypes st)
  /\ (forall a p, Store.parameters st !! a = Some p ->
        exists s', Store.parameters st' !! a = Some (Param.with_Schema s' p)
                   /\ (schemaQuiet (Param.Schema p) -> s' = Param.Schema p)
                   /\ (s' = Param.Schema p \/ schemaFine c (Param.Schema p))
                   /\ rtc (schemaHit c) (Param.Schema p) s')
  /\ (forall m mt, Store.mediaTypes st !! m = Some mt ->
        exists mt', Store.mediaTypes st' !! m = Some mt'
                    /\ (schemaQuiet (MediaType.Schema mt) -> mt' = mt)
                    /\ (mt' = mt \/ schemaFine c (MediaType.Schema mt))
                    /\ rtc (schemaHit c) (MediaType.Schema mt) (MediaType.Schema mt')).

(** The format string the resolver hands to [fmt.Errorf] for a miss. *)
Definition missText (k : refKind) (ref : string) : string :=
  "unresolved " +:+ kindWord k +:+ " reference: " +:+ ref.

(** No [%] in [s]: [fmt] prints such a format as it stands. *)
Fixpoint verbFree (s : string) : bool :=
  match s with
  | EmptyString => true
  | String b rest => negb (Nat.eqb (Ascii.nat_of_ascii b) 37) && verbFree rest
  end.

(** Wholesale replacement.  [slot'] is what resolution must leave in a
    parameter slot that held [slot]: the table entry named by the descriptor
    of the object the slot pointed at, or the slot itself when that object
    carries none. *)
Definition paramSlotResolved (c : Components.t) (st : Store.t)
    (slot slot' : option ptr) : Prop :=
  match slot with
  | None => slot' = None
  | Some a =>
      exists p, Store.parameters st !! a = Some p
      /\ if decide (Param.Ref p = "") then slot' = slot
         else Components.Parameters c !! extractNameFromRef (Param.Ref p) "parameters"
              = Some slot'
  end.

Definition bodyResolved (c : Components.t) (body body' : option RequestBody.t) : Prop :=
  match body with
  | None => body' = None
  | Some rb =>
      if decide (RequestBody.Ref rb = "") then body' = body
      else is_Some body'
           /\ Components.RequestBodies c !! extractNameFromRef (RequestBody.Ref rb) "requestBodies"
              = Some body'
  end.

Definition responseResolved (c : Components.t)
    (entry entry' : string * option Response.t) : Prop :=
  entry'.1 = entry.1
  /\ match entry.2 with
     | None => entry'.2 = None
     | Some resp =>
         if decide (Response.Ref resp = "") then entry'.2 = entry.2
         else Components.Responses c !! extractNameFromRef (Response.Ref resp) "responses"
              = Some entry'.2
     end.

Definition endpointResolved (c : Components.t) (st : Store.t) (e e' : Endpoint.t) : Prop :=
  Endpoint.Path e' = Endpoint.Path e
  /\ Endpoint.Method e' = Endpoint.Method e
  /\ Endpoint.Summary e' = Endpoint.Summary e
  /\ Endpoint.Description e' = Endpoint.Description e
  /\ Forall2 (paramSlotResolved c st) (Endpoint.Parameters e) (Endpoint.Parameters e')
  /\ bodyResolved c (Endpoint.RequestBody e) (Endpoint.RequestBody e')
  /\ Forall2 (responseResolved c) (Endpoint.Responses e) (Endpoint.Responses e').

(** Nothing left to resolve: the objects a slot reaches carry no descriptor. *)
Definition paramQuiet (st : Store.t) (slot : option ptr) : Prop :=
  forall a, slot = Some a ->
    exists p, Store.parameters st !! a = Some p
              /\ Param.Ref p = "" /\ schemaQuiet (Param.Schema p).

Definition mediaTypeQuiet (st : Store.t) (entry : string * option ptr) : Prop :=
  forall m, entry.2 = Some m ->
    exists mt, Store.mediaTypes st !! m = Some mt /\ schemaQuiet (MediaType.Schema mt).

Definition bodyQuiet (st : Store.t) (body : option RequestBody.t) : Prop :=
  forall rb, body = Some rb ->
    RequestBody.Ref rb = "" /\ Forall (mediaTypeQuiet st) (RequestBody.Content rb).

Definition responseQuiet (st : Store.t) (resp : option Response.t) : Prop :=
  forall r, resp = Some r ->
    Response.Ref r = "" /\ Forall (mediaTypeQuiet st) (Response.Content r).

Definition endpointQuiet (st : Store.t) (e : Endpoint.t) : Prop :=
  Forall (paramQuiet st) (Endpoint.Parameters e)
  /\ bodyQuiet st (Endpoint.RequestBody e)
  /\ Forall (fun entry => responseQuiet st entry.2) (Endpoint.Responses e).

(** The components themselves carry no descriptor. *)
Definition schemasQuiet (c : Components.t) : Prop :=
  forall name s, Components.Schemas c !! name = Some s -> schemaQuiet s.

Definition componentsQuiet (c : Components.t) (st : Store.t) : Prop :=
  schemasQuiet c
  /\ (forall name slot, Components.Parameters c !! name = Some slot -> paramQuiet st slot)
  /\ (forall name body, Components.RequestBodies c !! name = Some body -> bodyQuiet st body)
  /\ (forall name resp, Components.Responses c !! name = Some resp -> responseQuiet st resp).

(** A loop that stopped at some element: the elements before it are
    related by [Q], the elements after it are untouched. *)
Definition resolvedUpTo {A : Type} (Q : A -> A -> Prop) (xs xs' : list A) : Prop :=
  exists xs1 x xs2 xs1' x',
    xs = xs1 ++ x :: xs2 /\ xs' = xs1' ++ x' :: xs2 /\ Forall2 Q xs1 xs1'.

(** An endpoint whose processing stopped in the parameters, in the request
    body, or in the responses. *)
Definition endpointPartly (c : Components.t) (st : Store.t) (e e' : Endpoint.t) : Prop :=
  (resolvedUpTo (paramSlotResolved c st) (Endpoint.Parameters e) (Endpoint.Parameters e')
   /\ Endpoint.RequestBody e' = Endpoint.RequestBody e
   /\ Endpoint.Responses e' = Endpoint.Responses e)
  \/ (Forall2 (paramSlotResolved c st) (Endpoint.Parameters e) (Endpoint.Parameters e')
      /\ Endpoint.Responses e' = Endpoint.Responses e)
  \/ (Forall2 (paramSlotResolved c st) (Endpoint.Parameters e) (Endpoint.Parameters e')
      /\ bodyResolved c (Endpoint.RequestBody e) (Endpoint.RequestBody e')
      /\ resolvedUpTo (responseResolved c) (Endpoint.Responses e) (Endpoint.Responses e')).

(** An endpoint one of whose own slots carries a descriptor that names
    nothing: a parameter slot, the request body, or a response entry. *)
Definition directMiss (c : Components.t) (st : Store.t) (e : Endpoint.t) : Prop :=
  (exists a p, Some a ∈ Endpoint.Parameters e
               /\ Store.parameters st !! a = Some p
               /\ missing c ParameterRef (Param.Ref p))
  \/ (exists rb, Endpoint.RequestBody e = Some rb
                 /\ missing c RequestBodyRef (RequestBody.Ref rb))
  \/ (exists code resp, (code, Some resp) ∈ Endpoint.Responses e
                        /\ missing c ResponseRef (Response.Ref resp)).

(** What a completed walk has checked, in terms of the store [st] it
    started from: the schema of the object behind every parameter slot, the
    content of a request body that carries no descriptor, and the content
    of every response entry. *)
Definition paramFine (c : Components.t) (st : Store.t) (slot : option ptr) : Prop :=
  forall a p, slot = Some a -> Store.parameters st !! a = Some p ->
    schemaFine c (Param.Schema p).

Definition mediaTypeFine (c : Components.t) (st : Store.t)
    (entry : string * option ptr) : Prop :=
  forall m mt, entry.2 = Some m -> Store.mediaTypes st !! m = Some mt ->
    schemaFine c (MediaType.Schema mt).

Definition endpointFine (c : Components.t) (st : Store.t) (e : Endpoint.t) : Prop :=
  Forall (paramFine c st) (Endpoint.Parameters e)
  /\ (forall rb, Endpoint.RequestBody e = Some rb -> RequestBody.Ref rb = "" ->
        Forall (mediaTypeFine c st) (RequestBody.Content rb))
  /\ Forall (fun entry : string * option Response.t =>
               forall resp, entry.2 = Some resp ->
                 Forall (mediaTypeFine c st) (Response.Content resp))
       (Endpoint.Responses e).

(** An endpoint with a slot that carries no descriptor of its own and whose
    nested schema descriptor names nothing. *)
Definition nestedMiss (c : Components.t) (st : Store.t) (e : Endpoint.t) : Prop :=
  (exists a p sc, Some a ∈ Endpoint.Parameters e
                  /\ Store.parameters st !! a = Some p
                  /\ Param.Ref p = ""
                  /\ Param.Schema p = Some sc
                  /\ missing c SchemaRef (Schema.Ref sc))
  \/ (exists rb key m mt sc, Endpoint.RequestBody e = Some rb
                             /\ RequestBody.Ref rb = ""
                             /\ (key, Some m) ∈ RequestBody.Content rb
                             /\ Store.mediaTypes st !! m = Some mt
                             /\ MediaType.Schema mt = Some sc
                             /\ missing c SchemaRef (Schema.Ref sc))
  \/ (exists code resp key m mt sc, (code, Some resp) ∈ Endpoint.Responses e
                                    /\ Response.Ref resp = ""
                                    /\ (key, Some m) ∈ Response.Content resp
                                    /\ Store.mediaTypes st !! m = Some mt
                                    /\ MediaType.Schema mt = Some sc
                                    /\ missing c SchemaRef (Schema.Ref sc)).

(** Wholesale replacement of a schema pointer: [s'] is what resolution must
    leave where [s] was. *)
Definition schemaResolved (c : Components.t) (s s' : option Schema.t) : Prop :=
  match s with
  | None => s' = None
  | Some sc =>
      if decide (Schema.Ref sc = "") then s' = s
      else Components.Schemas c !! extractNameFromRef (Schema.Ref sc) "schemas" = Some s'
  end.

(** The objects a completed walk has scanned hold no schema descriptor. *)
Definition paramChecked (st : Store.t) (slot : option ptr) : Prop :=
  forall a, slot = Some a ->
    exists p, Store.parameters st !! a = Some p /\ schemaQuiet (Param.Schema p).

Definition endpointChecked (st : Store.t) (e : Endpoint.t) : Prop :=
  Forall (paramChecked st) (Endpoint.Parameters e)
  /\ (forall rb, Endpoint.RequestBody e = Some rb -> RequestBody.Ref rb = "" ->
        Forall (mediaTypeQuiet st) (RequestBody.Content rb))
  /\ Forall (fun entry : string * option Response.t =>
               forall resp, entry.2 = Some resp ->
                 Forall (mediaTypeQuiet st) (Response.Content resp))
       (Endpoint.Responses e).

(** Wholesale replacement below the slots that stay: the schema of a
    parameter that carries no descriptor of its own, and the schemas in the
    content of a request body or response that carries none, are in [st']
    what the schema table holds for the descriptor they carried in [st]. *)
Definition nestedResolved (c : Components.t) (st st' : Store.t) (e : Endpoint.t) : Prop :=
  (forall a p, Some a ∈ Endpoint.Parameters e ->
     Store.parameters st !! a = Some p ->
     Param.Ref p = "" ->
     exists s', Store.parameters st' !! a = Some (Param.with_Schema s' p)
                /\ schemaResolved c (Param.Schema p) s')
  /\ (forall rb key m mt, Endpoint.RequestBody e = Some rb ->
        RequestBody.Ref rb = "" ->
        (key, Some m) ∈ RequestBody.Content rb ->
        Store.mediaTypes st !! m = Some mt ->
        exists mt', Store.mediaTypes st' !! m = Some mt'
                    /\ schemaResolved c (MediaType.Schema mt) (MediaType.Schema mt'))
  /\ (forall code resp key m mt, (code, Some resp) ∈ Endpoint.Responses e ->
        Response.Ref resp = "" ->
        (key, Some m) ∈ Response.Content resp ->
        Store.mediaTypes st !! m = Some mt ->
        exists mt', Store.mediaTypes st' !! m = Some mt'
                    /\ schemaResolved c (MediaType.Schema mt) (MediaType.Schema mt')).

(** ** Swagger 2.0 structures *)

Module SwaggerInfo.
Record t := mk { Title : string; Description : string; Version : string }.
End SwaggerInfo.

Module Operation.
Record t := mk {
  Summary : string;
  Description : string;
  OperationID : string;
  Parameters : list Param.t;
  Responses : list (string * Response.t)
}.
End Operation.

Module PathItem.
Record t := mk {
  Get : option Operation.t;
  Put : option Operation.t;
  Post : option Operation.t;
  Delete : option Operation.t;
  Options : option Operation.t;
  Head : option Operation.t;
  Patch : option Operation.t
}.
End PathItem.

Module SwaggerSpec.
Record t := mk {
  Swagger : string;
  Info : SwaggerInfo.t;
  BasePath : string;
  Paths : list (string * PathItem.t)
}.
End SwaggerSpec.

(** ** Conversion of a Swagger 2.0 document *)

(** [paramCopy := p; result = append(result, &paramCopy)]: every parameter
    gets an object of its own. *)
Fixpoint convertParameters (st : Store.t) (params : list Param.t)
    : Store.t * list (option ptr) :=
  match params with
  | [] => (st, [])
  | p :: rest =>
      let '(st1, a) := Store.new_parameter p st in
      let '(st2, result) := convertParameters st1 rest in
      (st2, Some a :: result)
  end.

(** [respCopy := r; result[code] = &respCopy]. *)
Definition convertResponses (responses : list (string * Response.t))
    : list (string * option Response.t) :=
  map (fun entry => (entry.1, Some entry.2)) responses.

Definition createEndpointFromOperation (st : Store.t) (path method : string)
    (op : Operation.t) : Store.t * Endpoint.t :=
  let '(st', params) := convertParameters st (Operation.Parameters op) in
  (st', Endpoint.mk path method (Operation.Summary op) (Operation.Description op)
          params None (convertResponses (Operation.Responses op))).

(** One [if item.X != nil { ep := ...; doc.Endpoints = append(doc.Endpoints, ep) }]. *)
Definition appendOperation (path method : string) (op : option Operation.t)
    (acc : Store.t * list Endpoint.t) : Store.t * list Endpoint.t :=
  match op with
  | None => acc
  | Some o =>
      let '(st', ep) := createEndpointFromOperation acc.1 path method o in
      (st', acc.2 ++ [ep])
  end.

(** Body of [for path, item := range sw.Paths]. *)
Definition convertPathItem (acc : Store.t * list Endpoint.t) (entry : string * PathItem.t)
    : Store.t * list Endpoint.t :=
  let path := entry.1 in
  let item := entry.2 in
  appendOperation path "OPTIONS" (PathItem.Options item)
    (appendOperation path "HEAD" (PathItem.Head item)
      (appendOperation path "PATCH" (PathItem.Patch item)
        (appendOperation path "DELETE" (PathItem.Delete item)
          (appendOperation path "PUT" (PathItem.Put item)
            (appendOperation path "POST" (PathItem.Post item)
              (appendOperation path "GET" (PathItem.Get item) acc)))))).

Definition convertSwaggerToAPIDocument (st : Store.t) (sw : SwaggerSpec.t)
    : Store.t * APIDocument.t :=
  let '(st', eps) := fold_left convertPathItem (SwaggerSpec.Paths sw) (st, []) in
  (st', APIDocument.mk (SwaggerInfo.Title (SwaggerSpec.Info sw))
          (SwaggerInfo.Version (SwaggerSpec.Info sw))
          (SwaggerInfo.Description (SwaggerSpec.Info sw))
          eps [] None).

(** The seven operations of a [PathItem], to speak about them uniformly. *)
Inductive HTTPMethod := GET | PUT | POST | DELETE | OPTIONS | HEAD | PATCH.

Definition methodName (m : HTTPMethod) : string :=
  match m with
  | GET => "GET" | PUT => "PUT" | POST => "POST" | DELETE => "DELETE"
  | OPTIONS => "OPTIONS" | HEAD => "HEAD" | PATCH => "PATCH"
  end.

Definition operationOf (item : PathItem.t) (m : HTTPMethod) : option Operation.t :=
  match m with
  | GET => PathItem.Get item | PUT => PathItem.Put item | POST => PathItem.Post item
  | DELETE => PathItem.Delete item | OPTIONS => PathItem.Options item
  | HEAD => PathItem.Head item | PATCH => PathItem.Patch item
  end.

Definition allMethods : list HTTPMethod := [GET; PUT; POST; DELETE; OPTIONS; HEAD; PATCH].

Global Instance HTTPMethod_eq_dec : EqDecision HTTPMethod.
Proof. solve_decision. Defined.

(** The order in which [convertSwaggerToAPIDocument] tests the fields. *)
Definition testOrder : list HTTPMethod := [GET; POST; PUT; DELETE; PATCH; HEAD; OPTIONS].

(** The (path, method, operation) triples a path entry declares. *)
Definition operationsOf (entry : string * PathItem.t)
    : list (string * HTTPMethod * Operation.t) :=
  flat_map (fun m => match operationOf entry.2 m with
                     | Some op => [(entry.1, m, op)]
                     | None => []
                     end) testOrder.

Definition presentCount (item : PathItem.t) : nat :=
  length (filter (fun m => is_Some (operationOf item m)) allMethods).

(** [e] is the endpoint synthesized for operation [op] of [path] under
    method [m]: path and method from the outer keys, the rest from the
    operation, each parameter copied into an object of its own in [st]. *)
Definition synthesized (st : Store.t) (t : string * HTTPMethod * Operation.t)
    (e : Endpoint.t) : Prop :=
  Endpoint.Path e = t.1.1
  /\ Endpoint.Method e = methodName t.1.2
  /\ Endpoint.Summary e = Operation.Summary t.2
  /\ Endpoint.Description e = Operation.Description t.2
  /\ Forall2 (fun slot p => exists a, slot = Some a /\ Store.parameters st !! a = Some p)
       (Endpoint.Parameters e) (Operation.Parameters t.2)
  /\ Endpoint.Responses e
     = map (fun entry => (entry.1, Some entry.2)) (Operation.Responses t.2)
  /\ Endpoint.RequestBody e = None.

(** The endpoints of a document for one path and one method. *)
Definition endpointsFor (path : string) (m : HTTPMethod) (eps : list Endpoint.t)
    : list Endpoint.t :=
  filter (fun e => Endpoint.Path e = path /\ Endpoint.Method e = methodName m) eps.

(** [st'] holds the objects of [st] and, after them, newly allocated ones. *)
Definition storeGrows (st st' : Store.t) : Prop :=
  Store.parameters st `prefix_of` Store.parameters st'
  /\ Store.mediaTypes st' = Store.mediaTypes st.

(** ** White space (package [unicode]) and text collapsing *)

(** The line feed, [\n]. *)
Definition nl : string := String (Ascii.Ascii false true false true false false false false) "". 

(** Number of bytes of the white-space rune ([unicode.IsSpace]) whose UTF-8
    encoding [s] starts with, [0] when it starts with none: U+0009..U+000D,
    U+0020, U+0085, U+00A0, U+1680, U+2000..U+200A, U+2028, U+2029, U+202F,
    U+205F, U+3000. *)
Definition spaceWidth (s : string) : nat :=
  match s with
  | EmptyString => 0
  | String b0 r0 =>
      let c0 := Ascii.nat_of_ascii b0 in
      if Nat.leb 9 c0 && Nat.leb c0 13 || Nat.eqb c0 32 then 1
      else
        match r0 with
        | EmptyString => 0
        | String b1 r1 =>
            let c1 := Ascii.nat_of_ascii b1 in
            if Nat.eqb c0 194 && (Nat.eqb c1 133 || Nat.eqb c1 160) then 2
            else
              match r1 with
              | EmptyString => 0
              | String b2 _ =>
                  let c2 := Ascii.nat_of_ascii b2 in
                  if Nat.eqb c0 225 && Nat.eqb c1 154 && Nat.eqb c2 128 then 3
                  else if Nat.eqb c0 226 && Nat.eqb c1 128
                          && (Nat.leb 128 c2 && Nat.leb c2 138 || Nat.eqb c2 168
                              || Nat.eqb c2 169 || Nat.eqb c2 175) then 3
                  else if Nat.eqb c0 226 && Nat.eqb c1 129 && Nat.eqb c2 159 then 3
                  else if Nat.eqb c0 227 && Nat.eqb c1 128 && Nat.eqb c2 128 then 3
                  else 0
              end
        end
  end.

Definition flushField (cur : list Ascii.ascii) : list string :=
  match cur with
  | [] => []
  | _ => [String.string_of_list_ascii (rev_append cur [])]
  end.

(** [strings.Fields]: the maximal runs of bytes between white-space runes.
    [skip] counts the bytes of the white-space rune being crossed, [cur]
    holds the bytes of the open field, last one first. *)
Fixpoint fieldsFrom (s : string) (skip : nat) (cur : list Ascii.ascii) : list string :=
  match s with
  | EmptyString => flushField cur
  | String b rest =>
      match skip with
      | S k => fieldsFrom rest k cur
      | O =>
          match spaceWidth s with
          | O => fieldsFrom rest 0 (b :: cur)
          | S k => flushField cur ++ fieldsFrom rest k []
          end
      end
  end.

Definition Fields (s : string) : list string := fieldsFrom s 0 [].

(** [strings.Join]. *)
Fixpoint Join (elems : list string) (sep : string) : string :=
  match elems with
  | [] => ""
  | [x] => x
  | x :: rest => x +:+ sep +:+ Join rest sep
  end.

Definition minifyText (text : string) : string := Join (Fields text) " ".

(** [bytes.TrimSpace]: leading, then trailing white-space runes are cut. *)
Fixpoint trimLeftSpace (s : string) (skip : nat) : string :=
  match s with
  | EmptyString => EmptyString
  | String _ rest =>
      match skip with
      | S k => trimLeftSpace rest k
      | O =>
          match spaceWidth s with
          | O => s
          | S k => trimLeftSpace rest k
          end
      end
  end.

(** [s], after [skip] more bytes, is a sequence of white-space runes. *)
Fixpoint allSpace (s : string) (skip : nat) : bool :=
  match s with
  | EmptyString => true
  | String _ rest =>
      match skip with
      | S k => allSpace rest k
      | O =>
          match spaceWidth s with
          | O => false
          | S k => allSpace rest k
          end
      end
  end.

Fixpoint trimRightSpace (s : string) : string :=
  match s with
  | EmptyString => EmptyString
  | String b rest => if allSpace s 0 then EmptyString else String b (trimRightSpace rest)
  end.

Definition TrimSpace (s : string) : string := trimRightSpace (trimLeftSpace s 0).

(** Bytes of [Join fs " "], counting one more per field. *)
Fixpoint fieldsWeight (fs : list string) : nat :=
  match fs with
  | [] => 0
  | f :: rest => S (String.length f) + fieldsWeight rest
  end.

(** ** Documentation rendering *)

(** The [%t] verb. *)
Definition formatBool (b : bool) : string := if b then "true" else "false".

(** The [desc] of an endpoint as [RenderText] prints it: collapsed, then cut. *)
Definition endpointDesc (description : string) : string :=
  let desc := minifyText description in
  if Z.ltb 20000 (Z.of_nat (String.length desc))
  then String.substring 0 2000 desc +:+ "..."
  else desc.

(** Body of [for _, p := range ep.Parameters]; [None] is the panic of
    reading a field through a nil [p]. *)
Definition renderParameter (st : Store.t) (slot : option ptr) : option string :=
  a ← slot;
  p ← Store.parameters st !! a;
  let pType :=
    if decide (Param.Type_ p = "") then
      match Param.Schema p with
      | Some s => Schema.Type_ s
      | None => "(unknown)"
      end
    else Param.Type_ p in
  Some ("  - " +:+ Param.Name p +:+ " (" +:+ pType +:+ ", " +:+ Param.In p
        +:+ ", required=" +:+ formatBool (Param.Required p) +:+ ")"
        +:+ (if decide (Param.Description p = "") then ""
             else " : " +:+ Param.Description p)
        +:+ nl).

(** Body of [for code, resp := range ep.Responses]. *)
Definition renderResponse (entry : string * option Response.t) : option string :=
  resp ← entry.2;
  Some ("  - " +:+ entry.1 +:+ ": " +:+ Response.Description resp +:+ nl).

(** Output of a loop: the lines of its iterations, unless one panics. *)
Fixpoint renderAll {A : Type} (line : A -> option string) (xs : list A) : option string :=
  match xs with
  | [] => Some ""
  | x :: rest =>
      l ← line x;
      r ← renderAll line rest;
      Some (l +:+ r)
  end.

Section Rendering.
(** [strings.ToUpper]. *)
Variable ToUpper : string -> string.

(** Body of [for _, ep := range doc.Endpoints]. *)
Definition renderEndpoint (st : Store.t) (ep : Endpoint.t) : option string :=
  let head :=
    "ENDPOINT: " +:+ ToUpper (Endpoint.Method ep) +:+ " " +:+ Endpoint.Path ep +:+ nl
    +:+ "SUMMARY: " +:+ Endpoint.Summary ep +:+ nl in
  let desc := endpointDesc (Endpoint.Description ep) in
  let descLine :=
    if decide (desc = "") then "DESCRIPTION: (None)" +:+ nl
    else "DESCRIPTION: " +:+ desc +:+ nl in
  params ←
    match Endpoint.Parameters ep with
    | [] => Some ("  (None)" +:+ nl)
    | ps => renderAll (renderParameter st) ps
    end;
  let body :=
    match Endpoint.RequestBody ep with
    | Some rb =>
        if decide (RequestBody.Description rb = "") then "None"
        else RequestBody.Description rb
    | None => "None"
    end in
  responses ←
    match Endpoint.Responses ep with
    | [] => Some ("  (None)" +:+ nl)
    | rs => renderAll renderResponse rs
    end;
  Some (head +:+ descLine
        +:+ "PARAMETERS:" +:+ nl +:+ params
        +:+ "REQUEST BODY: " +:+ body +:+ nl
        +:+ "RESPONSES:" +:+ nl +:+ responses
        +:+ "END" +:+ nl).

(** [RenderText(doc)]: the text, or [None] when the call panics. *)
Definition RenderText (st : Store.t) (doc : APIDocument.t) : option string :=
  let header :=
    "API: " +:+ APIDocument.Title doc +:+ " (v" +:+ APIDocument.Version doc +:+ ")"
    +:+ nl +:+ nl
    +:+ "DESCRIPTION:" +:+ nl
    +:+ (if decide (APIDocument.Description doc = "")
         then "(None or your description here)"
         else APIDocument.Description doc)
    +:+ nl +:+ nl in
  eps ← renderAll (renderEndpoint st) (APIDocument.Endpoints doc);
  Some (header +:+ eps).
End Rendering.

(** ** Loading *)

Section Loading.
(** The collaborators of [LoadAPISpec]: the file system and the two decoders.
    A decoder answers with an error text ([inr]) or with what it built; the
    generic-map decode is kept as the set of its top-level keys; a typed
    decode allocates the objects behind the pointers of its result. *)
Variable ReadFile : string -> string + string.
Variable yamlUnmarshalRaw : string -> gset string + string.
Variable jsonUnmarshalSwagger : Store.t -> string -> (Store.t * SwaggerSpec.t) + string.
Variable yamlUnmarshalSwagger : Store.t -> string -> (Store.t * SwaggerSpec.t) + string.
Variable jsonUnmarshalDocument : Store.t -> string -> (Store.t * APIDocument.t) + string.
Variable yamlUnmarshalDocument : Store.t -> string -> (Store.t * APIDocument.t) + string.

(** [trimmed[0] == '{'] *)
Definition startsWithBrace (trimmed : string) : bool :=
  match trimmed with
  | String b _ => Nat.eqb (Ascii.nat_of_ascii b) 123
  | EmptyString => false
  end.

(** [LoadAPISpec(path)]: the document ([inl]) or the error ([inr]). *)
Definition LoadAPISpec (st : Store.t) (path : string)
    : Store.t * (APIDocument.t + string) :=
  match ReadFile path with
  | inr err => (st, inr err)
  | inl data =>
      let trimmed := TrimSpace data in
      if Nat.eqb (String.length trimmed) 0 then (st, inl APIDocument.zero)
      else
        match yamlUnmarshalRaw data with
        | inr err => (st, inr err)
        | inl raw =>
            if bool_decide ("swagger" ∈ raw) then
              match (if startsWithBrace trimmed then jsonUnmarshalSwagger st data
                     else yamlUnmarshalSwagger st data) with
              | inr err => (st, inr err)
              | inl (st1, swaggerSpec) =>
                  let '(st2, doc) := convertSwaggerToAPIDocument st1 swaggerSpec in
                  (st2, inl doc)
              end
            else
              match (if startsWithBrace trimmed then jsonUnmarshalDocument st data
                     else yamlUnmarshalDocument st data) with
              | inr err => (st, inr err)
              | inl (st1, doc) => (st1, inl doc)
              end
        end
  end.
End Loading.

(** ** The [snippet] helper *)

(** [snippet(data, n)]: [None] is the panic of [data[:n]] for a negative
    [n]. *)
Definition snippet (data : string) (n : Z) : option string :=
  if Z.leb (Z.of_nat (String.length data)) n then Some data
  else if Z.ltb n 0 then None
  else Some (String.substring 0 (Z.to_nat n) data +:+ "...").

(** ** Vocabulary for the renderer's properties *)

(** What [RenderText] dereferences: every parameter slot and every response
    entry of every endpoint. *)
Definition slotRenderable (st : Store.t) (slot : option ptr) : Prop :=
  exists a, slot = Some a /\ is_Some (Store.parameters st !! a).

Definition endpointRenderable (st : Store.t) (e : Endpoint.t) : Prop :=
  Forall (slotRenderable st) (Endpoint.Parameters e)
  /\ Forall (fun entry : string * option Response.t => is_Some entry.2)
       (Endpoint.Responses e).

(** The bytes of a string. *)
Definition bytesOf (s : string) : list Ascii.ascii := String.list_ascii_of_string s.

(** ** Vocabulary for what resolution keeps and reads *)

(** What the resolver has no assignment to: the four texts of an endpoint,
    the number of its parameter slots and the nil ones among them, the
    codes of its responses and the nil entries among them, the absence of a
    request body. *)
Definition endpointShape (e e' : Endpoint.t) : Prop :=
  Endpoint.Path e' = Endpoint.Path e
  /\ Endpoint.Method e' = Endpoint.Method e
  /\ Endpoint.Summary e' = Endpoint.Summary e
  /\ Endpoint.Description e' = Endpoint.Description e
  /\ Forall2 (fun slot slot' : option ptr => slot = None -> slot' = None)
       (Endpoint.Parameters e) (Endpoint.Parameters e')
  /\ (Endpoint.RequestBody e = None -> Endpoint.RequestBody e' = None)
  /\ Forall2 (fun entry entry' : string * option Response.t =>
                entry'.1 = entry.1 /\ (entry.2 = None -> entry'.2 = None))
       (Endpoint.Responses e) (Endpoint.Responses e').

(** The parameter objects of [st'] are those of [st] up to their [Schema]
    field, and there are as many media types. *)
Definition sameObjects (st st' : Store.t) : Prop :=
  Forall2 (fun p p' => exists s', p' = Param.with_Schema s' p)
    (Store.parameters st) (Store.parameters st')
  /\ length (Store.mediaTypes st') = length (Store.mediaTypes st).

(** Every pointer points at an object, as every pointer of a Go program
    that is not nil does: the media types of a content map, the parameter
    slots, request body and responses of an endpoint, the request bodies of
    the components. *)
Definition contentValid (st : Store.t) (content : ContentMap) : Prop :=
  Forall (fun entry : string * option ptr =>
            forall m, entry.2 = Some m -> is_Some (Store.mediaTypes st !! m)) content.

Definition endpointValid (st : Store.t) (e : Endpoint.t) : Prop :=
  Forall (fun slot : option ptr =>
            forall a, slot = Some a -> is_Some (Store.parameters st !! a))
    (Endpoint.Parameters e)
  /\ (forall rb, Endpoint.RequestBody e = Some rb -> contentValid st (RequestBody.Content rb))
  /\ Forall (fun entry : string * option Response.t =>
               forall r, entry.2 = Some r -> contentValid st (Response.Content r))
       (Endpoint.Responses e).

Definition bodiesValid (c : Components.t) (st : Store.t) : Prop :=
  forall name rb, Components.RequestBodies c !! name = Some (Some rb) ->
    contentValid st (RequestBody.Content rb).

(** The request body of [e] carries a descriptor that names a component
    which is [null]. *)
Definition nullBody (c : Components.t) (e : Endpoint.t) : Prop :=
  exists rb, Endpoint.RequestBody e = Some rb
             /\ RequestBody.Ref rb <> ""
             /\ Components.RequestBodies c
                  !! extractNameFromRef (RequestBody.Ref rb) "requestBodies"
                = Some None.

(** ** The program *)

(** How [main] ends: [log.Fatalf] with a message, a panic, or the summary
    written to the output file.  The lines it logs on the way are left
    out. *)
Inductive exit := Fatal (msg : string) | Crashed | Wrote (file summary : string).

Section Program.
Variable ReadFile : string -> string + string.
Variable yamlUnmarshalRaw : string -> gset string + string.
Variable jsonUnmarshalSwagger : Store.t -> string -> (Store.t * SwaggerSpec.t) + string.
Variable yamlUnmarshalSwagger : Store.t -> string -> (Store.t * SwaggerSpec.t) + string.
Variable jsonUnmarshalDocument : Store.t -> string -> (Store.t * APIDocument.t) + string.
Variable yamlUnmarshalDocument : Store.t -> string -> (Store.t * APIDocument.t) + string.
Variable Errorf : string -> string.
Variable ToUpper : string -> string.
(** [os.WriteFile(name, data, 0644)]: the error, if there is one. *)
Variable WriteFile : string -> string -> option string.

(** [main()], started with no object allocated. *)
Definition main : exit :=
  let specPath := "swagger.json" in
  match LoadAPISpec ReadFile yamlUnmarshalRaw jsonUnmarshalSwagger yamlUnmarshalSwagger
          jsonUnmarshalDocument yamlUnmarshalDocument Store.empty specPath with
  | (_, inr err) => Fatal ("Error loading API spec: " +:+ err)
  | (st, inl doc) =>
      match ResolveReferences Errorf st doc with
      | (_, _, Failed err) => Fatal ("Error resolving references: " +:+ err)
      | (_, _, Panic) => Crashed
      | (st', doc', Done) =>
          match RenderText ToUpper st' doc' with
          | None => Crashed
          | Some summary =>
              let outputFile := "llm1.txt" in
              match WriteFile outputFile summary with
              | Some err => Fatal ("Error writing to file: " +:+ err)
              | None => Wrote outputFile summary
              end
          end
      end
  end.
End Program.

(** ** Vocabulary for the text functions *)

(** The bytes a white-space rune can start with. *)
Definition spaceStart (b : Ascii.ascii) : bool :=
  let c := Ascii.nat_of_ascii b in
  Nat.leb 9 c && Nat.leb c 13 || Nat.eqb c 32 || Nat.eqb c 194 || Nat.eqb c 225
  || Nat.eqb c 226 || Nat.eqb c 227.

(** The one-byte white-space runes, and the line breaks and tabs among them. *)
Definition oneByte (b : Ascii.ascii) : bool :=
  let c := Ascii.nat_of_ascii b in Nat.leb 9 c && Nat.leb c 13 || Nat.eqb c 32.

Definition lineByte (b : Ascii.ascii) : bool :=
  let c := Ascii.nat_of_ascii b in Nat.leb 9 c && Nat.leb c 13.

(** What a field ends at: the end of the text or a white-space rune. *)
Definition edge (t : string) : Prop :=
  match t with
  | EmptyString => True
  | String c _ => spaceStart c = true
  end.

(** No white-space rune starts inside [w] when [t] follows it. *)
Fixpoint solidIn (w t : string) : Prop :=
  match w with
  | EmptyString => True
  | String b v => spaceWidth (String b (v +:+ t)) = 0 /\ solidIn v t
  end.

(** A field as [strings.Fields] yields them: not empty, and without a
    white-space rune whatever edge follows it. *)
Definition robust (f : string) : Prop := f <> "" /\ forall t, edge t -> solidIn f t.

(** ** Vocabulary for the place of a miss *)

(** The object behind a parameter slot carries descriptor [ref] of kind
    [k]: its own, or the one of its schema. *)
Definition paramCarries (st : Store.t) (a : ptr) (k : refKind) (ref : string) : Prop :=
  exists p, Store.parameters st !! a = Some p
    /\ ((k = ParameterRef /\ Param.Ref p = ref)
        \/ (k = SchemaRef /\ exists sc, Param.Schema p = Some sc /\ Schema.Ref sc = ref)).

(** A media type of [content] has a schema that carries [ref]. *)
Definition contentCarries (st : Store.t) (content : ContentMap) (ref : string) : Prop :=
  exists key m mt sc, (key, Some m) ∈ content
    /\ Store.mediaTypes st !! m = Some mt
    /\ MediaType.Schema mt = Some sc /\ Schema.Ref sc = ref.

(** The request body whose content the walk scans: [rb] itself when it
    carries no descriptor, the component its descriptor names otherwise
    ([ep.RequestBody.Content] is read after the replacement). *)
Definition bodyScanned (c : Components.t) (rb rb' : RequestBody.t) : Prop :=
  (RequestBody.Ref rb = "" /\ rb' = rb)
  \/ (RequestBody.Ref rb <> ""
      /\ Components.RequestBodies c !! extractNameFromRef (RequestBody.Ref rb) "requestBodies"
         = Some (Some rb')).

Definition bodyCarries (c : Components.t) (st : Store.t) (rb : RequestBody.t)
    (k : refKind) (ref : string) : Prop :=
  (k = RequestBodyRef /\ RequestBody.Ref rb = ref)
  \/ (k = SchemaRef
      /\ exists rb', bodyScanned c rb rb' /\ contentCarries st (RequestBody.Content rb') ref).

(** The response whose content the walk scans is the one it read from the
    entry ([resp.Content], whatever the entry holds by then). *)
Definition responseCarries (st : Store.t) (resp : Response.t)
    (k : refKind) (ref : string) : Prop :=
  (k = ResponseRef /\ Response.Ref resp = ref)
  \/ (k = SchemaRef /\ contentCarries st (Response.Content resp) ref).

(** Endpoint [e] carries descriptor [ref] of kind [k] in a place the walk
    looks at. *)
Definition scannedAt (c : Components.t) (st : Store.t) (e : Endpoint.t)
    (k : refKind) (ref : string) : Prop :=
  (exists a, Some a ∈ Endpoint.Parameters e /\ paramCarries st a k ref)
  \/ (exists rb, Endpoint.RequestBody e = Some rb /\ bodyCarries c st rb k ref)
  \/ (exists code resp, (code, Some resp) ∈ Endpoint.Responses e
                        /\ responseCarries st resp k ref).

(** Endpoint [e] carries, in a place the walk looks at, a descriptor that
    names nothing. *)
Definition endpointMisses (c : Components.t) (st : Store.t) (e : Endpoint.t) : Prop :=
  exists k ref, scannedAt c st e k ref /\ missing c k ref.

(** The content the walk scans for a request body names schemas only. *)
Definition bodyFine (c : Components.t) (st : Store.t) (e : Endpoint.t) : Prop :=
  forall rb rb', Endpoint.RequestBody e = Some rb -> bodyScanned c rb rb' ->
    Forall (mediaTypeFine c st) (RequestBody.Content rb').

(** Where the processing of endpoint [e] stopped, at descriptor [ref] of
    kind [k], and what it left in [e']: the slots before the one that
    carries [ref] hold what resolution puts there, the slots after it are
    as they were; the slot itself is as it was when its own descriptor is
    the one that names nothing, and is replaced already when the miss is in
    a schema below it.  [st] is the store the replacements are read in,
    [st'] the store at the stop. *)
Definition endpointStopped (c : Components.t) (st st' : Store.t) (e e' : Endpoint.t)
    (k : refKind) (ref : string) : Prop :=
  (exists xs1 a xs2 xs1' slot',
      Endpoint.Parameters e = xs1 ++ Some a :: xs2
      /\ Endpoint.Parameters e' = xs1' ++ slot' :: xs2
      /\ Forall2 (paramSlotResolved c st) xs1 xs1'
      /\ paramCarries st' a k ref
      /\ (k = ParameterRef -> slot' = Some a)
      /\ (k = SchemaRef -> paramSlotResolved c st (Some a) slot')
      /\ Endpoint.RequestBody e' = Endpoint.RequestBody e
      /\ Endpoint.Responses e' = Endpoint.Responses e)
  \/ (exists rb,
        Forall2 (paramSlotResolved c st) (Endpoint.Parameters e) (Endpoint.Parameters e')
        /\ Endpoint.RequestBody e = Some rb
        /\ bodyCarries c st' rb k ref
        /\ (k = RequestBodyRef -> Endpoint.RequestBody e' = Endpoint.RequestBody e)
        /\ (k = SchemaRef ->
              bodyResolved c (Endpoint.RequestBody e) (Endpoint.RequestBody e'))
        /\ Endpoint.Responses e' = Endpoint.Responses e)
  \/ (exists xs1 code resp xs2 xs1' entry',
        Forall2 (paramSlotResolved c st) (Endpoint.Parameters e) (Endpoint.Parameters e')
        /\ bodyResolved c (Endpoint.RequestBody e) (Endpoint.RequestBody e')
        /\ Endpoint.Responses e = xs1 ++ (code, Some resp) :: xs2
        /\ Endpoint.Responses e' = xs1' ++ entry' :: xs2
        /\ Forall2 (responseResolved c) xs1 xs1'
        /\ responseCarries st' resp k ref
        /\ (k = ResponseRef -> entry' = (code, Some resp))
        /\ (k = SchemaRef -> responseResolved c (code, Some resp) entry')).

(** ** Sample documents *)

(** A parameter that is only a descriptor, as [{"$ref": ref}] decodes. *)
Definition refParam (ref : string) : Param.t := Param.mk "" "" false "" None "" ref.

Definition onlyParams (path : string) (ps : list (option ptr)) : Endpoint.t :=
  Endpoint.mk path "get" "" "" ps None [].

(** No [components] key, one parameter pointing at [Page]. *)
Definition danglingStore : Store.t :=
  Store.mk [refParam "#/components/parameters/Page"] [].
Definition danglingDoc : APIDocument.t :=
  APIDocument.mk "T" "1" "" [onlyParams "/x" [Some 0]] [] None.

(** Component tables keyed by strings that are no plain names, and
    descriptors that do not follow [#/components/<category>/<name>]. *)
Definition petSchema : Schema.t := Schema.mk "object" "".
Definition petParam : Param.t := Param.mk "pet" "query" true "string" None "" "".
Definition oddComponents : Components.t :=
  Components.mk {[ "Pet" := Some petSchema ]}
                {[ "#/components/schemas/Pet" := Some 1 ]}
                {[ "body" := Some (RequestBody.mk "a pet" [] "") ]}
                {[ "#/definitions/Ok" := Some (Response.mk "fine" [] "") ]}.
Definition oddStore : Store.t :=
  Store.mk [refParam "#/components/schemas/Pet"; petParam] [].

(** A parameter slot and a response entry that point at components which
    themselves hold a schema descriptor, next to a request body that does
    the same. *)
Definition schemaS : Schema.t := Schema.mk "" "#/components/schemas/S".
Definition integerSchema : Schema.t := Schema.mk "integer" "".
Definition staleStore : Store.t :=
  Store.mk [refParam "#/components/parameters/P";
            Param.mk "p" "query" false "" (Some schemaS) "" ""]
           [MediaType.mk (Some schemaS); MediaType.mk (Some schemaS)].
Definition staleComponents : Components.t :=
  Components.mk {[ "S" := Some integerSchema ]}
                {[ "P" := Some 1 ]}
                {[ "B" := Some (RequestBody.mk "b" [("application/json", Some 0)] "") ]}
                {[ "R" := Some (Response.mk "r" [("application/json", Some 1)] "") ]}.
Definition staleEndpoint : Endpoint.t :=
  Endpoint.mk "/x" "get" "" "" [Some 0]
    (Some (RequestBody.mk "" [] "#/components/requestBodies/B"))
    [("200", Some (Response.mk "" [] "#/components/responses/R"))].
Definition staleDoc : APIDocument.t :=
  APIDocument.mk "T" "1" "" [staleEndpoint] [] (Some staleComponents).

(** [{"parameters": [null]}] *)
Definition nilSlotDoc : APIDocument.t :=
  APIDocument.mk "T" "1" "" [onlyParams "/x" [None]] [] None.

(** Descriptions: two letters kept apart by 20000 blanks, and 20001 letters. *)
Fixpoint repeatByte (b : Ascii.ascii) (n : nat) : string :=
  match n with
  | O => ""
  | S k => String b (repeatByte b k)
  end.
Definition letterA : Ascii.ascii := Ascii.Ascii true false false false false true true false.
Definition longBlankDescription : string :=
  "a" +:+ repeatByte Ascii.Space (200 * 100) +:+ "b".
Definition longDescription : string := repeatByte letterA (200 * 100 + 1).

(** [strings.ToUpper] on ASCII text. *)
Definition upperByte (b : Ascii.ascii) : Ascii.ascii :=
  let c := Ascii.nat_of_ascii b in
  if Nat.leb 97 c && Nat.leb c 122 then Ascii.ascii_of_nat (c - 32) else b.
Fixpoint upperASCII (s : string) : string :=
  match s with
  | EmptyString => EmptyString
  | String b rest => String (upperByte b) (upperASCII rest)
  end.

(** A file system with one blank file, and decoders that are never reached. *)
Definition blankFile : string := " " +:+ nl +:+ "  ".
Definition blankFS (path : string) : string + string :=
  if decide (path = "swagger.json") then inl blankFile else inr "no such file".
Definition noRaw (data : string) : gset string + string := inr "unreachable".
Definition noSwagger (st : Store.t) (data : string) : (Store.t * SwaggerSpec.t) + string :=
  inr "unreachable".
Definition noDocument (st : Store.t) (data : string) : (Store.t * APIDocument.t) + string :=
  inr "unreachable".

(** [{"swagger":"2.0","info":{"title":"T","version":"1"},"paths":{"/x":
    {"get":{"summary":"S","responses":{"200":{"description":"OK"}}}}}}],
    with a second path that has a parameter. *)
Definition getX : Operation.t :=
  Operation.mk "S" "" "" [] [("200", Response.mk "OK" [] "")].
Definition postY : Operation.t :=
  Operation.mk "create" "" "" [petParam] [].
Definition itemX : PathItem.t := PathItem.mk (Some getX) None None None None None None.
Definition itemY : PathItem.t := PathItem.mk None None (Some postY) None None None None.
Definition sampleSwagger : SwaggerSpec.t :=
  SwaggerSpec.mk "2.0" (SwaggerInfo.mk "T" "" "1") "/v1" [("/x", itemX); ("/y", itemY)].

(** One component parameter, [Page], and endpoints that point at it, at
    [Nope] and at [Gone], neither of which is declared. *)
Definition pageParam : Param.t := Param.mk "page" "query" false "integer" None "" "".
Definition pageStore : Store.t :=
  Store.mk [refParam "#/components/parameters/Page"; pageParam;
            refParam "#/components/parameters/Nope";
            refParam "#/components/parameters/Gone"] [].
Definition pageComponents : Components.t := Components.mk ∅ {[ "Page" := Some 1 ]} ∅ ∅.
Definition brokenDoc : APIDocument.t :=
  APIDocument.mk "T" "1" ""
    [onlyParams "/a" [Some 0]; onlyParams "/b" [Some 2]; onlyParams "/c" [Some 3]]
    [] (Some pageComponents).

(** A component that is itself a descriptor: [P] points at [Q]. *)
Definition chainStore : Store.t :=
  Store.mk [refParam "#/components/parameters/P";
            Param.mk "p" "query" false "" None "" "#/components/parameters/Q";
            Param.mk "q" "query" false "string" None "" ""] [].
Definition chainComponents : Components.t :=
  Components.mk ∅ (<[ "P" := Some 1 ]> {[ "Q" := Some 2 ]}) ∅ ∅.
Definition chainDoc : APIDocument.t :=
  APIDocument.mk "T" "1" "" [onlyParams "/x" [Some 0]] [] (Some chainComponents).

(** The same with [Q] left out of the table. *)
Definition looseComponents : Components.t := Components.mk ∅ {[ "P" := Some 1 ]} ∅ ∅.
Definition looseDoc : APIDocument.t :=
  APIDocument.mk "T" "1" "" [onlyParams "/x" [Some 0]] [] (Some looseComponents).

(** What [ResolveReferences] leaves of the sample documents. *)
Definition brokenDocAfter : APIDocument.t :=
  APIDocument.with_Endpoints
    [onlyParams "/a" [Some 1]; onlyParams "/b" [Some 2]; onlyParams "/c" [Some 3]]
    brokenDoc.
Definition chainDocOnce : APIDocument.t :=
  APIDocument.with_Endpoints [onlyParams "/x" [Some 1]] chainDoc.
Definition chainDocTwice : APIDocument.t :=
  APIDocument.with_Endpoints [onlyParams "/x" [Some 2]] chainDoc.
Definition looseDocAfter : APIDocument.t :=
  APIDocument.with_Endpoints [onlyParams "/x" [Some 1]] looseDoc.

(** A document that uses every kind of descriptor once, over components
    that carry none. *)
Definition okResponse : Response.t := Response.mk "fine" [] "".
Definition catalogComponents : Components.t :=
  Components.mk {[ "S" := Some integerSchema ]} {[ "Page" := Some 1 ]} ∅
                {[ "Ok" := Some okResponse ]}.
Definition catalogStore : Store.t :=
  Store.mk [refParam "#/components/parameters/Page"; pageParam;
            Param.mk "q" "query" true "" (Some schemaS) "" ""]
           [MediaType.mk (Some schemaS)].
Definition catalogStoreAfter : Store.t :=
  Store.mk [refParam "#/components/parameters/Page"; pageParam;
            Param.mk "q" "query" true "" (Some integerSchema) "" ""]
           [MediaType.mk (Some integerSchema)].
Definition catalogBody : RequestBody.t :=
  RequestBody.mk "payload" [("application/json", Some 0)] "".
Definition catalogDoc : APIDocument.t :=
  APIDocument.mk "T" "1" ""
    [Endpoint.mk "/a" "get" "" "" [Some 0; Some 2] (Some catalogBody)
       [("200", Some (Response.mk "" [] "#/components/responses/Ok"))]]
    [] (Some catalogComponents).
Definition catalogDocAfter : APIDocument.t :=
  APIDocument.with_Endpoints
    [Endpoint.mk "/a" "get" "" "" [Some 1; Some 2] (Some catalogBody)
       [("200", Some okResponse)]]
    catalogDoc.

(** [components: {requestBodies: {B: null}}] and an endpoint whose request
    body points at [B], after an endpoint without descriptors. *)
Definition nullBodyComponents : Components.t := Components.mk ∅ ∅ {[ "B" := None ]} ∅.
Definition nullBodyEndpoint : Endpoint.t :=
  Endpoint.mk "/b" "post" "" "" [Some 0]
    (Some (RequestBody.mk "" [] "#/components/requestBodies/B")) [].
Definition nullBodyStore : Store.t := Store.mk [pageParam] [].
Definition nullBodyDoc : APIDocument.t :=
  APIDocument.mk "T" "1" "" [onlyParams "/a" [Some 0]; nullBodyEndpoint] []
    (Some nullBodyComponents).

(** A file system with one Swagger file, [swagger: 2.0] and so on, decoders
    that read [sampleSwagger] from it, and a disk that takes every file. *)
Definition swaggerFS (path : string) : string + string :=
  if decide (path = "swagger.json") then inl "swagger: 2.0" else inr "no such file".
Definition swaggerRaw (data : string) : gset string + string := inl {[ "swagger" ]}.
Definition swaggerDecoder (st : Store.t) (data : string)
    : (Store.t * SwaggerSpec.t) + string :=
  inl (st, sampleSwagger).
Definition anyDisk (name data : string) : option string := None.

(** A file that starts with white space and a brace, over decoders that
    read the empty document from it. *)
Definition braceFS (path : string) : string + string := inl ("  {}" +:+ nl).
Definition plainRaw (data : string) : gset string + string := inl ∅.
Definition zeroDecoder (st : Store.t) (data : string)
    : (Store.t * APIDocument.t) + string :=
  inl (st, APIDocument.zero).

(** A document with one endpoint, of the given description. *)
Definition describedDoc (description : string) : APIDocument.t :=
  APIDocument.mk "T" "1" "" [Endpoint.mk "/x" "get" "S" description [] None []] [] None.

(** An endpoint that uses descriptors without the prefix of their category,
    over [oddComponents], and what resolution leaves of it. *)
Definition oddEndpoint : Endpoint.t :=
  Endpoint.mk "/pets" "post" "" "" [Some 0]
    (Some (RequestBody.mk "" [] "body"))
    [("200", Some (Response.mk "" [] "#/definitions/Ok"))].
Definition oddDoc : APIDocument.t :=
  APIDocument.mk "T" "1" "" [oddEndpoint] [] (Some oddComponents).
Definition oddEndpointAfter : Endpoint.t :=
  Endpoint.mk "/pets" "post" "" "" [Some 1]
    (Some (RequestBody.mk "a pet" [] ""))
    [("200", Some (Response.mk "fine" [] ""))].
Definition oddDocAfter : APIDocument.t :=
  APIDocument.with_Endpoints [oddEndpointAfter] oddDoc.

(** [components: {requestBodies: {body: null}}] and a request body that
    points at it by the bare key. *)
Definition nullKeyComponents : Components.t := Components.mk ∅ ∅ {[ "body" := None ]} ∅.
Definition nullKeyDoc : APIDocument.t :=
  APIDocument.mk "T" "1" ""
    [Endpoint.mk "/b" "post" "" "" [] (Some (RequestBody.mk "" [] "body")) []] []
    (Some nullKeyComponents).

(** * Properties *)

(** ** Strings *)

Lemma append_nil (s : string) : "" +:+ s = s.
Proof. reflexivity. Qed.

Lemma append_cons (a : Ascii.ascii) (s t : string) : String a s +:+ t = String a (s +:+ t).
Proof. reflexivity. Qed.

Lemma append_assoc (a b c : string) : (a +:+ b) +:+ c = a +:+ (b +:+ c).
Proof.
  induction a as [|x a IH]; [done|].
  by rewrite !append_cons, IH.
Qed.

Lemma length_append (a b : string) :
  String.length (a +:+ b) = String.length a + String.length b.
Proof.
  induction a as [|x a IH]; [done|].
  rewrite append_cons. simpl. by rewrite IH.
Qed.

Lemma prefix_append (p s : string) : String.prefix p (p +:+ s) = true.
Proof.
  induction p as [|a p IH].
  - by destruct s.
  - rewrite append_cons. simpl.
    destruct (Ascii.ascii_dec a a); [exact IH | congruence].
Qed.

Lemma drop_bytes_append (p s : string) : drop_bytes (String.length p) (p +:+ s) = s.
Proof.
  induction p as [|a p IH]; [by destruct s|].
  rewrite append_cons. exact IH.
Qed.

Lemma TrimPrefix_append (p s : string) : TrimPrefix (p +:+ s) p = s.
Proof. unfold TrimPrefix, HasPrefix. by rewrite prefix_append, drop_bytes_append. Qed.

Lemma TrimPrefix_other (s p : string) : HasPrefix s p = false -> TrimPrefix s p = s.
Proof. unfold TrimPrefix. by intros ->. Qed.

Lemma extractNameFromRef_wellformed (componentType name : string) :
  extractNameFromRef ("#/components/" +:+ componentType +:+ "/" +:+ name) componentType = name.
Proof.
  unfold extractNameFromRef.
  replace ("#/components/" +:+ componentType +:+ "/" +:+ name)
    with (("#/components/" +:+ componentType +:+ "/") +:+ name).
  - apply TrimPrefix_append.
  - by rewrite !append_assoc.
Qed.

Lemma extractNameFromRef_other (ref componentType : string) :
  HasPrefix ref ("#/components/" +:+ componentType +:+ "/") = false ->
  extractNameFromRef ref componentType = ref.
Proof. apply TrimPrefix_other. Qed.

Lemma with_Schema_same (p : Param.t) : Param.with_Schema (Param.Schema p) p = p.
Proof. by destruct p. Qed.

Lemma set_parameter_same (st : Store.t) (a : ptr) (p : Param.t) :
  Store.parameters st !! a = Some p ->
  Store.set_parameter a (Param.with_Schema (Param.Schema p) p) st = st.
Proof.
  intros H. unfold Store.set_parameter. rewrite with_Schema_same.
  rewrite list_insert_id by done. by destruct st.
Qed.

Lemma set_mediaType_same (st : Store.t) (m : ptr) (mt : MediaType.t) :
  Store.mediaTypes st !! m = Some mt ->
  Store.set_mediaType m (MediaType.mk (MediaType.Schema mt)) st = st.
Proof.
  intros H. unfold Store.set_mediaType.
  replace (MediaType.mk (MediaType.Schema mt)) with mt by by destruct mt.
  rewrite list_insert_id by done. by destruct st.
Qed.

(** ** Documents without a component table *)

(** C4: on a document that carries no Components table, ResolveReferences
    returns no error and leaves the document and every object behind its
    pointers as they were, whatever descriptors the document holds. *)
Theorem ResolveReferences_without_components
    (Errorf : string -> string) (st : Store.t) (doc : APIDocument.t) :
  APIDocument.Components doc = None ->
  ResolveReferences Errorf st doc = (st, doc, Done).
Proof. unfold ResolveReferences. by intros ->. Qed.

Lemma ResolveReferences_without_components_witness :
  APIDocument.Components danglingDoc = None
  /\ (exists p, Store.parameters danglingStore !! 0 = Some p /\ Param.Ref p <> "")
  /\ ResolveReferences (fun s => s) danglingStore danglingDoc
     = (danglingStore, danglingDoc, Done).
Proof.
  split; [reflexivity|]. split.
  - eexists. split; [reflexivity | discriminate].
  - apply (ResolveReferences_without_components (fun s => s) danglingStore danglingDoc).
    reflexivity.
Defined.

(** ** Empty input *)

Lemma allSpace_trimLeftSpace (s : string) (skip : nat) :
  allSpace s skip = true -> trimLeftSpace s skip = "".
Proof.
  revert skip. induction s as [|b rest IH]; intros skip H; [done|].
  cbn [allSpace trimLeftSpace] in *. destruct skip as [|k]; [|by apply IH].
  destruct (spaceWidth (String b rest)); [discriminate | by apply IH].
Qed.

Lemma allSpace_TrimSpace (s : string) : allSpace s 0 = true -> TrimSpace s = "".
Proof. intros H. unfold TrimSpace. by rewrite allSpace_trimLeftSpace. Qed.

(** C8: when the file read is empty or holds white space only,
    LoadAPISpec returns the empty document (empty title, version and
    description, no endpoints, no servers, no components) and no error,
    and RenderText of that document is the header with empty title and
    version followed by the placeholder description. *)
Theorem blank_input_loads_and_renders
    (ReadFile : string -> string + string)
    (yamlUnmarshalRaw : string -> gset string + string)
    (jsonUnmarshalSwagger yamlUnmarshalSwagger
       : Store.t -> string -> (Store.t * SwaggerSpec.t) + string)
    (jsonUnmarshalDocument yamlUnmarshalDocument
       : Store.t -> string -> (Store.t * APIDocument.t) + string)
    (ToUpper : string -> string)
    (st : Store.t) (path data : string) :
  ReadFile path = inl data ->
  allSpace data 0 = true ->
  LoadAPISpec ReadFile yamlUnmarshalRaw jsonUnmarshalSwagger yamlUnmarshalSwagger
    jsonUnmarshalDocument yamlUnmarshalDocument st path
    = (st, inl APIDocument.zero)
  /\ APIDocument.zero = APIDocument.mk "" "" "" [] [] None
  /\ RenderText ToUpper st APIDocument.zero
     = Some ("API:  (v)" +:+ nl +:+ nl +:+ "DESCRIPTION:" +:+ nl
             +:+ "(None or your description here)" +:+ nl +:+ nl).
Proof.
  intros Hread Hblank. split; [|split; reflexivity].
  unfold LoadAPISpec. rewrite Hread, (allSpace_TrimSpace data Hblank). reflexivity.
Qed.

Lemma blank_input_loads_and_renders_witness :
  LoadAPISpec blankFS noRaw noSwagger noSwagger noDocument noDocument
    Store.empty "swagger.json" = (Store.empty, inl APIDocument.zero)
  /\ LoadAPISpec (fun _ => inl "") noRaw noSwagger noSwagger noDocument noDocument
       Store.empty "swagger.json" = (Store.empty, inl APIDocument.zero).
Proof.
  split.
  - apply (blank_input_loads_and_renders blankFS noRaw noSwagger noSwagger
             noDocument noDocument upperASCII Store.empty "swagger.json" blankFile);
      reflexivity.
  - apply (blank_input_loads_and_renders (fun _ => inl "") noRaw noSwagger noSwagger
             noDocument noDocument upperASCII Store.empty "swagger.json" "");
      reflexivity.
Defined.

(** ** Rendering *)

(** C6 (the code departs from it): RenderText reads [p.Type] through every
    parameter slot without the nil test ResolveReferences makes, so a
    document with an absent slot makes it panic; the resolver, on the same
    slot, goes on. *)
Theorem RenderText_panics_on_nil_slot
    (ToUpper Errorf : string -> string) (st : Store.t) (c : Components.t) :
  RenderText ToUpper st nilSlotDoc = None
  /\ resolveParameter Errorf c st None = (st, None, Done).
Proof. split; reflexivity. Qed.

Lemma length_substring_0 (n : nat) (s : string) :
  n <= String.length s -> String.length (String.substring 0 n s) = n.
Proof.
  revert s. induction n as [|n IH]; intros s Hn.
  - by destruct s.
  - destruct s as [|b s]; simpl in *; [lia|]. rewrite IH; lia.
Qed.

Lemma length_string_of_list_ascii (l : list Ascii.ascii) :
  String.length (String.string_of_list_ascii l) = length l.
Proof. induction l as [|a l IH]; simpl; [done | by rewrite IH]. Qed.

Lemma fieldsWeight_app (fs gs : list string) :
  fieldsWeight (fs ++ gs) = fieldsWeight fs + fieldsWeight gs.
Proof. induction fs as [|f fs IH]; simpl; [done | rewrite IH; lia]. Qed.

Lemma fieldsWeight_flushField (cur : list Ascii.ascii) :
  fieldsWeight (flushField cur) <= S (length cur).
Proof.
  destruct cur as [|b cur]; [simpl; lia|].
  unfold flushField. cbn [fieldsWeight].
  rewrite length_string_of_list_ascii, rev_append_rev, length_app, length_rev.
  simpl. lia.
Qed.

Lemma fieldsWeight_fieldsFrom (s : string) (skip : nat) (cur : list Ascii.ascii) :
  fieldsWeight (fieldsFrom s skip cur) <= length cur + String.length s + 1.
Proof.
  revert skip cur. induction s as [|b rest IH]; intros skip cur.
  - cbn [fieldsFrom]. pose proof (fieldsWeight_flushField cur). simpl. lia.
  - cbn [fieldsFrom String.length]. destruct skip as [|k].
    + destruct (spaceWidth (String b rest)) as [|k].
      * specialize (IH 0 (b :: cur)). simpl in IH. lia.
      * rewrite fieldsWeight_app. specialize (IH k []).
        pose proof (fieldsWeight_flushField cur). simpl in IH. lia.
    + specialize (IH k cur). lia.
Qed.

Lemma length_Join_blank (fs : list string) :
  fs <> [] -> S (String.length (Join fs " ")) = fieldsWeight fs.
Proof.
  induction fs as [|f fs IH]; [done|]. intros _.
  destruct fs as [|g fs].
  - simpl. lia.
  - change (Join (f :: g :: fs) " ") with (f +:+ " " +:+ Join (g :: fs) " ").
    rewrite !length_append. cbn [fieldsWeight] in *.
    specialize (IH ltac:(done)). change (String.length " ") with 1. lia.
Qed.

Lemma length_minifyText (text : string) :
  String.length (minifyText text) <= String.length text.
Proof.
  unfold minifyText, Fields.
  pose proof (fieldsWeight_fieldsFrom text 0 []) as H.
  destruct (fieldsFrom text 0 []) as [|f fs] eqn:E; [simpl; lia|].
  pose proof (length_Join_blank (f :: fs) ltac:(done)) as HJ.
  simpl length in H. lia.
Qed.

Lemma renderAll_app {A : Type} (line : A -> option string) (xs ys : list A) (text : string) :
  renderAll line (xs ++ ys) = Some text ->
  exists a b, renderAll line xs = Some a /\ renderAll line ys = Some b /\ text = a +:+ b.
Proof.
  revert text. induction xs as [|x rest IH]; intros text H.
  - exists "", text. by rewrite append_nil.
  - cbn [app renderAll] in *. destruct (line x) as [l|]; [|done]. cbn in *.
    destruct (renderAll line (rest ++ ys)) as [r|]; [|done]. cbn in H.
    injection H as <-. destruct (IH r eq_refl) as (a & b & -> & Hb & ->).
    exists (l +:+ a), b. cbn. by rewrite append_assoc.
Qed.

(** The description an endpoint is printed with: the collapsed text, cut
    when it is long, or the placeholder when it is empty. *)
Lemma renderEndpoint_description (ToUpper : string -> string) (st : Store.t)
    (ep : Endpoint.t) (block : string) :
  renderEndpoint ToUpper st ep = Some block ->
  exists rest,
    block = ("ENDPOINT: " +:+ ToUpper (Endpoint.Method ep) +:+ " " +:+ Endpoint.Path ep +:+ nl
             +:+ "SUMMARY: " +:+ Endpoint.Summary ep +:+ nl)
            +:+ "DESCRIPTION: "
            +:+ (if decide (endpointDesc (Endpoint.Description ep) = "") then "(None)"
                 else endpointDesc (Endpoint.Description ep))
            +:+ nl +:+ "PARAMETERS:" +:+ nl +:+ rest.
Proof.
  unfold renderEndpoint. lazy zeta.
  set (head := "ENDPOINT: " +:+ _).
  set (params := match Endpoint.Parameters ep with [] => _ | _ => _ end).
  set (responses := match Endpoint.Responses ep with [] => _ | _ => _ end).
  destruct params as [ps|]; [|done]. cbn [mbind option_bind].
  destruct responses as [rs|]; [|done]. cbn [mbind option_bind].
  intros [= <-]. eexists.
  destruct (decide (endpointDesc (Endpoint.Description ep) = "")) as [_|_].
  - reflexivity.
  - rewrite !append_assoc. reflexivity.
Qed.

Lemma RenderText_description_line (ToUpper : string -> string) (st : Store.t)
    (doc : APIDocument.t) (pre post : list Endpoint.t) (ep : Endpoint.t) (text : string) :
  APIDocument.Endpoints doc = pre ++ ep :: post ->
  RenderText ToUpper st doc = Some text ->
  exists before tail,
    RenderText ToUpper st (APIDocument.with_Endpoints pre doc) = Some before
    /\ text
       = before
         +:+ ("ENDPOINT: " +:+ ToUpper (Endpoint.Method ep) +:+ " " +:+ Endpoint.Path ep +:+ nl
              +:+ "SUMMARY: " +:+ Endpoint.Summary ep +:+ nl)
         +:+ "DESCRIPTION: "
         +:+ (if decide (endpointDesc (Endpoint.Description ep) = "") then "(None)"
              else endpointDesc (Endpoint.Description ep))
         +:+ nl +:+ "PARAMETERS:" +:+ nl +:+ tail.
Proof.
  intros Hdoc. unfold RenderText. rewrite Hdoc. lazy zeta.
  set (header := "API: " +:+ _).
  destruct (renderAll _ (pre ++ ep :: post)) as [eps|] eqn:E; [|done].
  cbn [mbind option_bind]. intros [= <-].
  apply renderAll_app in E as (a & b & Ha & Hb & ->).
  cbn [renderAll] in Hb.
  destruct (renderEndpoint ToUpper st ep) as [block|] eqn:Eb; [|done]. cbn in Hb.
  destruct (renderAll _ post) as [c|]; [|done]. cbn in Hb. injection Hb as <-.
  apply renderEndpoint_description in Eb as (rest & ->).
  exists (header +:+ a), (rest +:+ c). split.
  - destruct doc. cbn in *. by rewrite Ha.
  - rewrite !append_assoc. reflexivity.
Qed.

(** C7, as the renderer has it: in the text [RenderText] returns, the line
    that follows the summary of an endpoint is made from the collapsed
    description, and the test [len(desc) > 20000] is made on the collapsed
    text.  Above the threshold the line shows the first 2000 bytes of the
    collapsed text and then [...]; at or below it the collapsed text is
    shown whole, or [(None)] when it is empty.  Collapsing never lengthens,
    so a description of at most 20000 bytes is never cut. *)
Theorem truncation_threshold_after_collapse
    (ToUpper : string -> string) (st : Store.t) (doc : APIDocument.t)
    (pre post : list Endpoint.t) (ep : Endpoint.t) (text : string) :
  APIDocument.Endpoints doc = pre ++ ep :: post ->
  RenderText ToUpper st doc = Some text ->
  exists before line tail,
    RenderText ToUpper st (APIDocument.with_Endpoints pre doc) = Some before
    /\ text
       = before
         +:+ ("ENDPOINT: " +:+ ToUpper (Endpoint.Method ep) +:+ " " +:+ Endpoint.Path ep +:+ nl
              +:+ "SUMMARY: " +:+ Endpoint.Summary ep +:+ nl)
         +:+ "DESCRIPTION: " +:+ line +:+ nl +:+ "PARAMETERS:" +:+ nl +:+ tail
    /\ ((20000 < Z.of_nat (String.length (minifyText (Endpoint.Description ep))))%Z ->
          line = String.substring 0 2000 (minifyText (Endpoint.Description ep)) +:+ "..."
          /\ String.length line = 2003)
    /\ ((Z.of_nat (String.length (minifyText (Endpoint.Description ep))) <= 20000)%Z ->
          minifyText (Endpoint.Description ep) <> "" ->
          line = minifyText (Endpoint.Description ep))
    /\ (minifyText (Endpoint.Description ep) = "" -> line = "(None)")
    /\ String.length (minifyText (Endpoint.Description ep))
       <= String.length (Endpoint.Description ep).
Proof.
  intros Hdoc Htext.
  destruct (RenderText_description_line _ _ _ _ _ _ _ Hdoc Htext) as (before & tail & Hb & ->).
  exists before. eexists. exists tail. split; [exact Hb|]. split; [reflexivity|].
  unfold endpointDesc.
  destruct (Z.ltb_spec 20000 (Z.of_nat (String.length (minifyText (Endpoint.Description ep)))))
    as [Hlong|Hshort].
  - assert (String.length
              (String.substring 0 2000 (minifyText (Endpoint.Description ep)) +:+ "...")
            = 2003) as Hlen
      by (rewrite length_append, length_substring_0 by lia; reflexivity).
    rewrite decide_False by (intros He; by rewrite He in Hlen).
    split; [done|]. split; [lia|]. split; [|apply length_minifyText].
    intros He. rewrite He in Hlong. cbn in Hlong. lia.
  - split; [lia|]. split; [|split; [|apply length_minifyText]].
    + intros _ Hne. by rewrite decide_False.
    + intros He. by rewrite decide_True.
Qed.

Lemma truncation_threshold_after_collapse_witness :
  exists before line tail,
    RenderText upperASCII Store.empty
      (APIDocument.with_Endpoints [] (describedDoc longDescription)) = Some before
    /\ default "" (RenderText upperASCII Store.empty (describedDoc longDescription))
       = before
         +:+ ("ENDPOINT: " +:+ upperASCII "get" +:+ " " +:+ "/x" +:+ nl
              +:+ "SUMMARY: " +:+ "S" +:+ nl)
         +:+ "DESCRIPTION: " +:+ line +:+ nl +:+ "PARAMETERS:" +:+ nl +:+ tail
    /\ line = String.substring 0 2000 (minifyText longDescription) +:+ "..."
    /\ String.length line = 2003.
Proof.
  assert (RenderText upperASCII Store.empty (describedDoc longDescription)
          = Some (default "" (RenderText upperASCII Store.empty (describedDoc longDescription))))
    as Htext by (vm_compute; reflexivity).
  assert (Hlong : (20000 < Z.of_nat (String.length (minifyText longDescription)))%Z)
    by (vm_compute; reflexivity).
  destruct (truncation_threshold_after_collapse upperASCII Store.empty
              (describedDoc longDescription) [] []
              (Endpoint.mk "/x" "get" "S" longDescription [] None []) _ eq_refl Htext)
    as (before & line & tail & Hb & Ht & Hcut & _).
  exists before, line, tail. split; [exact Hb|]. split; [exact Ht|]. exact (Hcut Hlong).
Defined.

(** C7, as the claim words it, fails: a description of 20002 bytes, two
    letters kept apart by blanks, is over the threshold before collapsing
    and is printed whole, without the ellipsis. *)
Lemma threshold_not_on_raw_length :
  (20000 <? Z.of_nat (String.length longBlankDescription))%Z = true
  /\ endpointDesc longBlankDescription = "a b"
  /\ RenderText upperASCII Store.empty (describedDoc longBlankDescription)
     = Some ("API: T (v1)" +:+ nl +:+ nl +:+ "DESCRIPTION:" +:+ nl
             +:+ "(None or your description here)" +:+ nl +:+ nl
             +:+ "ENDPOINT: GET /x" +:+ nl +:+ "SUMMARY: S" +:+ nl
             +:+ "DESCRIPTION: a b" +:+ nl
             +:+ "PARAMETERS:" +:+ nl +:+ "  (None)" +:+ nl
             +:+ "REQUEST BODY: None" +:+ nl
             +:+ "RESPONSES:" +:+ nl +:+ "  (None)" +:+ nl +:+ "END" +:+ nl).
Proof. split; [|split]; vm_compute; reflexivity. Qed.

(** ** The object scanned for nested schemas *)

(** C2 (the code departs from it): after [ep.Parameters[j] = resolved] the
    loop still holds [param], the pointer read before the replacement, and
    resolves [&param.Schema]; likewise [resp.Content] is the content of the
    response read before [ep.Responses[code] = resolved].  On [staleDoc] the
    call succeeds, the slot holds component [P] and the entry component [R],
    and the schema descriptors inside both are left as they were; the
    request-body block, which reads [ep.RequestBody.Content] after the
    replacement, does resolve the one inside component [B]. *)
Theorem nested_schema_scan_uses_replaced_object (Errorf : string -> string) :
  exists st' ep,
    ResolveReferences Errorf staleStore staleDoc
      = (st', APIDocument.with_Endpoints [ep] staleDoc, Done)
    /\ Endpoint.Parameters ep = [Some 1]
    /\ Param.Schema <$> Store.parameters st' !! 1 = Some (Some schemaS)
    /\ Endpoint.Responses ep
       = [("200", Some (Response.mk "r" [("application/json", Some 1)] ""))]
    /\ Store.mediaTypes st' !! 1 = Some (MediaType.mk (Some schemaS))
    /\ Endpoint.RequestBody ep
       = Some (RequestBody.mk "b" [("application/json", Some 0)] "")
    /\ Store.mediaTypes st' !! 0 = Some (MediaType.mk (Some integerSchema)).
Proof.
  eexists _, _. split; [vm_compute; reflexivity|].
  repeat split.
Qed.

(** ** Conversion of Swagger 2.0 documents *)

Lemma storeGrows_refl (st : Store.t) : storeGrows st st.
Proof. by split. Qed.

Lemma storeGrows_trans (st1 st2 st3 : Store.t) :
  storeGrows st1 st2 -> storeGrows st2 st3 -> storeGrows st1 st3.
Proof. intros [H1 H2] [H3 H4]. split; [by etrans | congruence]. Qed.

Lemma synthesized_grows (st st' : Store.t) t e :
  storeGrows st st' -> synthesized st t e -> synthesized st' t e.
Proof.
  intros [Hp _] (?&?&?&?&Hps&?&?). repeat split; try done.
  eapply Forall2_impl; [exact Hps|]. intros slot p (a & -> & Ha).
  exists a. split; [done|]. by eapply prefix_lookup_Some.
Qed.

Lemma convertParameters_spec (params : list Param.t) (st st' : Store.t) slots :
  convertParameters st params = (st', slots) ->
  storeGrows st st'
  /\ Forall2 (fun slot p => exists a, slot = Some a /\ Store.parameters st' !! a = Some p)
       slots params.
Proof.
  revert st st' slots. induction params as [|p rest IH]; intros st st' slots H.
  - injection H as <- <-. split; [apply storeGrows_refl | constructor].
  - cbn [convertParameters] in H. unfold Store.new_parameter in H.
    destruct (convertParameters _ rest) as [st2 result] eqn:E.
    injection H as <- <-. destruct (IH _ _ _ E) as [[Hp Hm] HF]. simpl in Hp, Hm.
    split.
    + split; [|done]. etrans; [|exact Hp]. by apply prefix_app_r.
    + constructor; [|done]. eexists. split; [done|].
      eapply prefix_lookup_Some; [|exact Hp].
      rewrite lookup_app_r by lia. by rewrite Nat.sub_diag.
Qed.

Lemma createEndpointFromOperation_spec st path m op st' e :
  createEndpointFromOperation st path (methodName m) op = (st', e) ->
  storeGrows st st' /\ synthesized st' (path, m, op) e.
Proof.
  unfold createEndpointFromOperation.
  destruct (convertParameters st (Operation.Parameters op)) as [st1 params] eqn:E.
  intros H. injection H as <- <-. destruct (convertParameters_spec _ _ _ _ E) as [Hg HF].
  split; [done|]. by repeat split.
Qed.

Lemma appendOperation_spec path m item acc ts :
  Forall2 (synthesized acc.1) ts acc.2 ->
  let acc' := appendOperation path (methodName m) (operationOf item m) acc in
  storeGrows acc.1 acc'.1
  /\ Forall2 (synthesized acc'.1)
       (ts ++ match operationOf item m with Some op => [(path, m, op)] | None => [] end)
       acc'.2.
Proof.
  intros HF. unfold appendOperation. destruct (operationOf item m) as [op|].
  - destruct (createEndpointFromOperation acc.1 path (methodName m) op) as [st' e] eqn:E.
    destruct (createEndpointFromOperation_spec _ _ _ _ _ _ E) as [Hg Hs]. simpl.
    split; [done|]. apply Forall2_app; [|by constructor].
    eapply Forall2_impl; [exact HF|]. intros t e'. by apply synthesized_grows.
  - simpl. rewrite app_nil_r. split; [apply storeGrows_refl | done].
Qed.

Lemma convertPathItem_spec acc entry ts :
  Forall2 (synthesized acc.1) ts acc.2 ->
  storeGrows acc.1 (convertPathItem acc entry).1
  /\ Forall2 (synthesized (convertPathItem acc entry).1)
       (ts ++ operationsOf entry) (convertPathItem acc entry).2.
Proof.
  intros H0. destruct entry as [path item]. unfold convertPathItem, operationsOf.
  cbn [fst snd flat_map testOrder].
  pose proof (appendOperation_spec path GET item _ _ H0) as [G1 H1].
  pose proof (appendOperation_spec path POST item _ _ H1) as [G2 H2].
  pose proof (appendOperation_spec path PUT item _ _ H2) as [G3 H3].
  pose proof (appendOperation_spec path DELETE item _ _ H3) as [G4 H4].
  pose proof (appendOperation_spec path PATCH item _ _ H4) as [G5 H5].
  pose proof (appendOperation_spec path HEAD item _ _ H5) as [G6 H6].
  pose proof (appendOperation_spec path OPTIONS item _ _ H6) as [G7 H7].
  split.
  - repeat (eapply storeGrows_trans; [eassumption|]). apply storeGrows_refl.
  - rewrite app_nil_r, !app_assoc. exact H7.
Qed.

Lemma convertPaths_spec paths acc ts :
  Forall2 (synthesized acc.1) ts acc.2 ->
  Forall2 (synthesized (fold_left convertPathItem paths acc).1)
    (ts ++ flat_map operationsOf paths) (fold_left convertPathItem paths acc).2.
Proof.
  revert acc ts. induction paths as [|entry paths IH]; intros acc ts H.
  - simpl. by rewrite app_nil_r.
  - cbn [fold_left flat_map]. rewrite app_assoc. apply IH.
    by apply convertPathItem_spec.
Qed.

Lemma methodName_inj (m m' : HTTPMethod) : methodName m = methodName m' -> m = m'.
Proof. destruct m, m'; simpl; intros H; first [reflexivity | discriminate H]. Qed.

Lemma count_synthesized st ts eps path m :
  Forall2 (synthesized st) ts eps ->
  length (endpointsFor path m eps)
  = length (filter (fun t : string * HTTPMethod * Operation.t =>
                      t.1.1 = path /\ t.1.2 = m) ts).
Proof.
  unfold endpointsFor. induction 1 as [|t e ts eps (Hp & Hm & _) _ IH]; [done|].
  rewrite !filter_cons.
  destruct (decide (Endpoint.Path e = path /\ Endpoint.Method e = methodName m)) as [[H1 H2]|Hn];
    destruct (decide (t.1.1 = path /\ t.1.2 = m)) as [[H3 H4]|Hn'].
  - simpl. by rewrite IH.
  - exfalso. apply Hn'. split; [congruence|]. apply methodName_inj. congruence.
  - exfalso. apply Hn. split; congruence.
  - done.
Qed.

Lemma count_operations_of_methods path item path' m (ms : list HTTPMethod) :
  NoDup ms ->
  length (filter (fun t : string * HTTPMethod * Operation.t => t.1.1 = path' /\ t.1.2 = m)
            (flat_map (fun m0 => match operationOf item m0 with
                                 | Some op => [(path, m0, op)]
                                 | None => []
                                 end) ms))
  = if decide (path = path' /\ m ∈ ms)
    then if operationOf item m is Some _ then 1 else 0
    else 0.
Proof.
  induction 1 as [|m0 ms Hnotin _ IH]; simpl.
  - destruct (decide _) as [[_ H]|]; [by apply elem_of_nil in H | done].
  - rewrite filter_app, length_app, IH. clear IH.
    destruct (decide (path = path' /\ m ∈ ms)) as [[-> Hin]|Hout].
    + assert (m0 <> m) by (intros ->; done).
      rewrite decide_True by (split; [done | by right]).
      destruct (operationOf item m0); [|by destruct (operationOf item m)].
      rewrite filter_cons, decide_False by (simpl; intros [_ ?]; done). simpl.
      by destruct (operationOf item m).
    + destruct (decide (path = path' /\ m ∈ m0 :: ms)) as [[-> Hin]|Hout'].
      * apply elem_of_cons in Hin as [->|Hin]; [|exfalso; by apply Hout].
        destruct (operationOf item m0); [|done].
        by rewrite filter_cons, decide_True by done.
      * destruct (operationOf item m0); [|done].
        rewrite filter_cons, decide_False; [done|]. simpl. intros [-> ->].
        apply Hout'. split; [done | by left].
Qed.

Lemma count_operationsOf entry path' m :
  length (filter (fun t : string * HTTPMethod * Operation.t => t.1.1 = path' /\ t.1.2 = m)
            (operationsOf entry))
  = if decide (entry.1 = path') then if operationOf entry.2 m is Some _ then 1 else 0 else 0.
Proof.
  unfold operationsOf. rewrite count_operations_of_methods.
  - assert (m ∈ testOrder) by (destruct m; unfold testOrder; set_solver).
    destruct (decide (entry.1 = path')).
    + by rewrite decide_True.
    + rewrite decide_False; [done | by intros []].
  - unfold testOrder. compute_done.
Qed.

Lemma count_declared_operations (paths : list (string * PathItem.t)) path m :
  NoDup paths.*1 ->
  (forall item, (path, item) ∈ paths ->
     length (filter (fun t : string * HTTPMethod * Operation.t => t.1.1 = path /\ t.1.2 = m)
               (flat_map operationsOf paths))
     = if operationOf item m is Some _ then 1 else 0)
  /\ (path ∉ paths.*1 ->
      filter (fun t : string * HTTPMethod * Operation.t => t.1.1 = path /\ t.1.2 = m)
        (flat_map operationsOf paths) = []).
Proof.
  induction paths as [|entry paths IH]; intros Hnd.
  - split; [intros item H; by apply elem_of_nil in H | done].
  - rewrite fmap_cons in Hnd. apply NoDup_cons in Hnd as [Hfresh Hnd].
    destruct (IH Hnd) as [IHin IHout]. cbn [flat_map]. split.
    + intros item Hin. rewrite filter_app, length_app, count_operationsOf.
      apply elem_of_cons in Hin as [<-|Hin].
      * simpl. rewrite decide_True by done. rewrite IHout by done.
        simpl. lia.
      * rewrite decide_False.
        -- by rewrite (IHin item Hin).
        -- intros Heq. apply Hfresh. rewrite Heq.
           apply list_elem_of_fmap. by exists (path, item).
    + intros Hout. rewrite fmap_cons in Hout. apply not_elem_of_cons in Hout as [Hne Hout].
      rewrite filter_app, IHout by done. rewrite app_nil_r.
      apply length_zero_iff_nil. rewrite count_operationsOf. by rewrite decide_False.
Qed.

Lemma length_operationsOf entry : length (operationsOf entry) = presentCount entry.2.
Proof.
  destruct entry as [path [g pu po d o h pa]]. unfold operationsOf, presentCount.
  cbn [fst snd]. destruct g, pu, po, d, o, h, pa; reflexivity.
Qed.

Lemma length_flat_map_operationsOf (paths : list (string * PathItem.t)) :
  length (flat_map operationsOf paths)
  = sum_list (map (fun entry => presentCount entry.2) paths).
Proof.
  induction paths as [|entry paths IH]; [done|].
  cbn [flat_map map sum_list]. by rewrite length_app, length_operationsOf, IH.
Qed.

(** C5: converting a Swagger document whose path keys are pairwise
    different yields, for every declared path and every one of the seven
    methods, exactly one endpoint when the path item holds that operation
    and none when it does not; every endpoint of the result is the
    synthesis of one declared operation (path and method from the outer
    keys, summary, description, parameters and responses from the
    operation, no request body); there are as many endpoints as declared
    operations, and the servers list is empty. *)
Theorem convert_one_endpoint_per_operation
    (st st' : Store.t) (sw : SwaggerSpec.t) (doc : APIDocument.t) :
  NoDup (SwaggerSpec.Paths sw).*1 ->
  convertSwaggerToAPIDocument st sw = (st', doc) ->
  (forall path item m,
     (path, item) ∈ SwaggerSpec.Paths sw ->
     length (endpointsFor path m (APIDocument.Endpoints doc))
     = if operationOf item m is Some _ then 1 else 0)
  /\ (forall e, e ∈ APIDocument.Endpoints doc ->
        exists path item m op,
          (path, item) ∈ SwaggerSpec.Paths sw
          /\ operationOf item m = Some op
          /\ synthesized st' (path, m, op) e)
  /\ length (APIDocument.Endpoints doc)
     = sum_list (map (fun entry => presentCount entry.2) (SwaggerSpec.Paths sw))
  /\ APIDocument.Servers doc = []
  /\ APIDocument.Components doc = None.
Proof.
  intros Hnd. unfold convertSwaggerToAPIDocument.
  pose proof (convertPaths_spec (SwaggerSpec.Paths sw) (st, []) [] ltac:(constructor)) as HF.
  destruct (fold_left convertPathItem (SwaggerSpec.Paths sw) (st, [])) as [st1 eps].
  intros H. injection H as <- <-. cbn [fst snd app APIDocument.Endpoints
    APIDocument.Servers APIDocument.Components] in *.
  split; [|split; [|split; [|done]]].
  - intros path item m Hin. rewrite (count_synthesized _ _ _ _ _ HF).
    by apply (count_declared_operations _ path m Hnd).
  - intros e He. apply list_elem_of_lookup in He as [i He].
    destruct (Forall2_lookup_r _ _ _ _ _ HF He) as ([[path m] op] & Ht & Hs).
    apply list_elem_of_lookup_2 in Ht. apply list_elem_of_In, in_flat_map in Ht.
    destruct Ht as ([path' item] & Hentry & Hop). apply list_elem_of_In in Hentry.
    unfold operationsOf in Hop. apply in_flat_map in Hop as (m' & _ & Hop).
    cbn [fst snd] in Hop. destruct (operationOf item m') as [op'|] eqn:E; [|done].
    destruct Hop as [Hop|[]]. injection Hop as -> -> ->.
    by exists path, item, m, op.
  - by rewrite <- (Forall2_length _ _ _ HF), length_flat_map_operationsOf.
Qed.

Lemma convert_one_endpoint_per_operation_witness :
  let doc := (convertSwaggerToAPIDocument Store.empty sampleSwagger).2 in
  length (endpointsFor "/x" GET (APIDocument.Endpoints doc)) = 1
  /\ length (endpointsFor "/x" POST (APIDocument.Endpoints doc)) = 0
  /\ length (endpointsFor "/y" POST (APIDocument.Endpoints doc)) = 1
  /\ length (APIDocument.Endpoints doc) = 2.
Proof.
  intros doc.
  destruct (convert_one_endpoint_per_operation Store.empty
              (convertSwaggerToAPIDocument Store.empty sampleSwagger).1 sampleSwagger doc
              ltac:(compute_done) ltac:(reflexivity)) as (Hcount & _ & Hlen & _).
  split; [|split; [|split]].
  - exact (Hcount "/x" itemX GET ltac:(apply elem_of_cons; by left)).
  - exact (Hcount "/x" itemX POST ltac:(apply elem_of_cons; by left)).
  - exact (Hcount "/y" itemY POST
             ltac:(apply elem_of_cons; right; apply elem_of_cons; by left)).
  - exact Hlen.
Defined.

(** ** Loops *)

Section Loops.
Context {A : Type}.
Implicit Types (xs : list A) (st : Store.t).

Lemma rangeUpdate_length body st xs st' xs' o :
  rangeUpdate body st xs = (st', xs', o) -> length xs' = length xs.
Proof.
  revert st st' xs' o. induction xs as [|x rest IH]; intros st st' xs' o H.
  - by injection H as <- <- <-.
  - cbn [rangeUpdate] in H. destruct (body st x) as [[st1 x'] o1].
    destruct o1; try (injection H as <- <- <-; done).
    destruct (rangeUpdate body st1 rest) as [[st2 rest'] o2] eqn:E.
    injection H as <- <- <-. simpl. by rewrite (IH _ _ _ _ E).
Qed.

Lemma rangeUpdate_stops body st xs1 x xs2 st1 xs1' st2 x' o :
  rangeUpdate body st xs1 = (st1, xs1', Done) ->
  body st1 x = (st2, x', o) ->
  o <> Done ->
  rangeUpdate body st (xs1 ++ x :: xs2) = (st2, xs1' ++ x' :: xs2, o).
Proof.
  revert st xs1'. induction xs1 as [|y rest IH]; intros st xs1' H Hx Ho.
  - injection H as <- <-. cbn [app rangeUpdate]. rewrite Hx. by destruct o.
  - cbn [app rangeUpdate] in *. destruct (body st y) as [[st' y'] oy].
    destruct oy; try done.
    destruct (rangeUpdate body st' rest) as [[st'' rest'] o2] eqn:E.
    injection H as <- <- ->. by rewrite (IH _ _ E Hx Ho).
Qed.

Lemma rangeUpdate_not_Done body st xs st' xs' o :
  rangeUpdate body st xs = (st', xs', o) ->
  o <> Done ->
  exists xs1 x xs2 st1 xs1' x',
    xs = xs1 ++ x :: xs2 /\ xs' = xs1' ++ x' :: xs2
    /\ rangeUpdate body st xs1 = (st1, xs1', Done)
    /\ body st1 x = (st', x', o).
Proof.
  revert st xs'. induction xs as [|x rest IH]; intros st xs' H Ho.
  - injection H as <- <- <-. done.
  - cbn [rangeUpdate] in H. destruct (body st x) as [[st1 x'] o1] eqn:Ex.
    destruct o1.
    + destruct (rangeUpdate body st1 rest) as [[st2 rest'] o2] eqn:E.
      injection H as <- <- <-.
      destruct (IH _ _ E Ho) as (xs1 & y & xs2 & st3 & xs1' & y' & -> & -> & Hpre & Hy).
      exists (x :: xs1), y, xs2, st3, (x' :: xs1'), y'. repeat split; try done.
      cbn [rangeUpdate]. by rewrite Ex, Hpre.
    + injection H as <- <- <-. by exists [], x, rest, st, [], x'.
    + injection H as <- <- <-. by exists [], x, rest, st, [], x'.
Qed.

Lemma rangeDo_not_Done (body : Store.t -> A -> Store.t * outcome) st xs st' o :
  rangeDo body st xs = (st', o) ->
  o <> Done ->
  exists x st1, x ∈ xs /\ body st1 x = (st', o).
Proof.
  revert st. induction xs as [|x rest IH]; intros st H Ho.
  - injection H as <- <-. done.
  - cbn [rangeDo] in H. destruct (body st x) as [st1 o1] eqn:Ex. destruct o1.
    + destruct (IH _ H Ho) as (y & st2 & Hy & Hb). exists y, st2. split; [by right | done].
    + injection H as <- <-. exists x, st. split; [by left | done].
    + injection H as <- <-. exists x, st. split; [by left | done].
Qed.

Lemma rangeUpdate_noop body st xs :
  (forall x, x ∈ xs -> body st x = (st, x, Done)) ->
  rangeUpdate body st xs = (st, xs, Done).
Proof.
  induction xs as [|x rest IH]; intros H; [done|].
  cbn [rangeUpdate]. rewrite (H x) by by left.
  rewrite IH; [done|]. intros y Hy. apply H. by right.
Qed.

Lemma rangeDo_noop (body : Store.t -> A -> Store.t * outcome) st xs :
  (forall x, x ∈ xs -> body st x = (st, Done)) ->
  rangeDo body st xs = (st, Done).
Proof.
  induction xs as [|x rest IH]; intros H; [done|].
  cbn [rangeDo]. rewrite (H x) by by left. apply IH. intros y Hy. apply H. by right.
Qed.
End Loops.

Lemma Forall2_right_Forall {A B : Type} (xs : list A) (Q : B -> Prop) (ys : list B) :
  Forall2 (fun _ y => Q y) xs ys -> Forall Q ys.
Proof. induction 1; by constructor. Qed.

(** ** How the store moves *)

Section StoreMoves.
Variable c : Components.t.

Lemma resolves_refl (st : Store.t) : resolves c st st.
Proof.
  repeat split; try done.
  - intros a p H. exists (Param.Schema p). rewrite with_Schema_same.
    split; [done|]. split; [done|]. split; [by left | done].
  - intros m mt H. exists mt. split; [done|]. split; [done|]. split; [by left | done].
Qed.

Lemma with_Schema_twice (s s' : option Schema.t) (p : Param.t) :
  Param.with_Schema s' (Param.with_Schema s p) = Param.with_Schema s' p.
Proof. done. Qed.

Lemma resolves_trans (st1 st2 st3 : Store.t) :
  resolves c st1 st2 -> resolves c st2 st3 -> resolves c st1 st3.
Proof.
  intros (L1 & L2 & P12 & M12) (L3 & L4 & P23 & M23).
  split; [congruence|]. split; [congruence|]. split.
  - intros a p H. destruct (P12 a p H) as (s2 & H2 & Q2 & F2 & T2).
    destruct (P23 a _ H2) as (s3 & H3 & Q3 & F3 & T3). rewrite with_Schema_twice in H3.
    exists s3. split; [done|]. cbn [Param.Schema Param.with_Schema] in Q3, F3, T3.
    split; [|split].
    + intros Hq. rewrite Q3; [by apply Q2|]. by rewrite (Q2 Hq).
    + destruct F2 as [->|F2]; [|by right]. done.
    + by etrans.
  - intros m mt H. destruct (M12 m mt H) as (mt2 & H2 & Q2 & F2 & T2).
    destruct (M23 m _ H2) as (mt3 & H3 & Q3 & F3 & T3). exists mt3. split; [done|].
    split; [|split].
    + intros Hq. rewrite Q3; rewrite (Q2 Hq); done.
    + destruct F2 as [->|F2]; [|by right]. done.
    + by etrans.
Qed.

Lemma resolves_set_parameter (st : Store.t) (a : ptr) (p : Param.t) s' :
  Store.parameters st !! a = Some p ->
  (schemaQuiet (Param.Schema p) -> s' = Param.Schema p) ->
  (s' = Param.Schema p \/ schemaFine c (Param.Schema p)) ->
  rtc (schemaHit c) (Param.Schema p) s' ->
  resolves c st (Store.set_parameter a (Param.with_Schema s' p) st).
Proof.
  intros Ha Hq Hf Ht. unfold Store.set_parameter.
  split; [|split; [|split]]; cbn [Store.parameters Store.mediaTypes].
  - by rewrite length_insert.
  - done.
  - intros b q Hb. destruct (decide (a = b)) as [Heq|Hne].
    + subst b. rewrite Ha in Hb. injection Hb as <-. exists s'. split; [|done].
      apply list_lookup_insert_eq. by eapply lookup_lt_Some.
    + exists (Param.Schema q). rewrite list_lookup_insert_ne by done.
      rewrite with_Schema_same. split; [done|]. split; [done|]. split; [by left | done].
  - intros m mt H. exists mt. split; [done|]. split; [done|]. split; [by left | done].
Qed.

Lemma resolves_set_mediaType (st : Store.t) (m : ptr) (mt : MediaType.t) s' :
  Store.mediaTypes st !! m = Some mt ->
  (schemaQuiet (MediaType.Schema mt) -> s' = MediaType.Schema mt) ->
  (s' = MediaType.Schema mt \/ schemaFine c (MediaType.Schema mt)) ->
  rtc (schemaHit c) (MediaType.Schema mt) s' ->
  resolves c st (Store.set_mediaType m (MediaType.mk s') st).
Proof.
  intros Hm Hq Hf Ht. unfold Store.set_mediaType.
  split; [|split; [|split]]; cbn [Store.parameters Store.mediaTypes].
  - done.
  - by rewrite length_insert.
  - intros a p H. exists (Param.Schema p). rewrite with_Schema_same.
    split; [done|]. split; [done|]. split; [by left | done].
  - intros n nt Hn. destruct (decide (m = n)) as [Heq|Hne].
    + subst n. rewrite Hm in Hn. injection Hn as <-. exists (MediaType.mk s').
      split; [|split; [|split]].
      * apply list_lookup_insert_eq. by eapply lookup_lt_Some.
      * intros Hs. rewrite (Hq Hs). by destruct mt.
      * destruct Hf as [->|Hf]; [left; by destruct mt | by right].
      * done.
    + exists nt. rewrite list_lookup_insert_ne by done.
      split; [done|]. split; [done|]. split; [by left | done].
Qed.

(** The descriptor of a parameter is the same before and after. *)
Lemma resolves_parameter_back (st st' : Store.t) (a : ptr) (p' : Param.t) :
  resolves c st st' ->
  Store.parameters st' !! a = Some p' ->
  exists p, Store.parameters st !! a = Some p /\ Param.Ref p = Param.Ref p'.
Proof.
  intros (L1 & _ & P & _) H.
  assert (a < length (Store.parameters st)) as Hlt
    by (rewrite <- L1; by eapply lookup_lt_Some).
  apply lookup_lt_is_Some in Hlt as [p Hp]. exists p. split; [done|].
  destruct (P a p Hp) as (s' & H' & _). rewrite H in H'. by injection H' as ->.
Qed.

Lemma paramQuiet_resolves (st st' : Store.t) slot :
  resolves c st st' -> paramQuiet st slot -> paramQuiet st' slot.
Proof.
  intros (_ & _ & P & _) Hq a ->. destruct (Hq a eq_refl) as (p & Hp & Hr & Hs).
  destruct (P a p Hp) as (s' & H' & E & _). rewrite (E Hs), with_Schema_same in H'.
  by exists p.
Qed.

Lemma mediaTypeQuiet_resolves (st st' : Store.t) entry :
  resolves c st st' -> mediaTypeQuiet st entry -> mediaTypeQuiet st' entry.
Proof.
  intros (_ & _ & _ & M) Hq m Hm. destruct (Hq m Hm) as (mt & Hmt & Hs).
  destruct (M m mt Hmt) as (mt' & H' & E & _). rewrite (E Hs) in H'. by exists mt.
Qed.

Lemma contentQuiet_resolves (st st' : Store.t) (content : ContentMap) :
  resolves c st st' ->
  Forall (mediaTypeQuiet st) content -> Forall (mediaTypeQuiet st') content.
Proof.
  intros R H. eapply Forall_impl; [exact H|].
  intros entry. by apply mediaTypeQuiet_resolves.
Qed.

Lemma bodyQuiet_resolves (st st' : Store.t) body :
  resolves c st st' -> bodyQuiet st body -> bodyQuiet st' body.
Proof.
  intros R Hq rb ->. destruct (Hq rb eq_refl) as [Hr Hc].
  split; [done | by eapply contentQuiet_resolves].
Qed.

Lemma responseQuiet_resolves (st st' : Store.t) resp :
  resolves c st st' -> responseQuiet st resp -> responseQuiet st' resp.
Proof.
  intros R Hq r ->. destruct (Hq r eq_refl) as [Hr Hc].
  split; [done | by eapply contentQuiet_resolves].
Qed.

Lemma componentsQuiet_resolves (st st' : Store.t) :
  componentsQuiet c st -> resolves c st st' -> componentsQuiet c st'.
Proof.
  intros (HS & HP & HB & HR) R. split; [|split; [|split]].
  - done.
  - intros name slot H. eapply paramQuiet_resolves; [done | by eapply HP].
  - intros name body H. eapply bodyQuiet_resolves; [done | by eapply HB].
  - intros name resp H. eapply responseQuiet_resolves; [done | by eapply HR].
Qed.

Lemma paramSlotResolved_resolves (st st' : Store.t) slot slot' :
  resolves c st st' -> paramSlotResolved c st slot slot' -> paramSlotResolved c st' slot slot'.
Proof.
  intros (_ & _ & P & _) H. destruct slot as [a|]; [|done].
  destruct H as (p & Hp & H). destruct (P a p Hp) as (s' & H' & _).
  by exists (Param.with_Schema s' p).
Qed.

Lemma paramSlotResolved_back (st st' : Store.t) slot slot' :
  resolves c st st' -> paramSlotResolved c st' slot slot' -> paramSlotResolved c st slot slot'.
Proof.
  intros R H. destruct slot as [a|]; [|done].
  destruct H as (p' & Hp' & H).
  destruct (resolves_parameter_back _ _ _ _ R Hp') as (p & Hp & Hr).
  exists p. split; [done|]. by rewrite Hr.
Qed.
End StoreMoves.

Section LoopInvariants.
Context {A : Type}.
Variable c : Components.t.
Implicit Types (xs : list A) (st : Store.t).

Lemma rangeUpdate_resolves (body : Store.t -> A -> Store.t * A * outcome) :
  (forall st x st' x' o, body st x = (st', x', o) -> resolves c st st') ->
  forall xs st st' xs' o, rangeUpdate body st xs = (st', xs', o) -> resolves c st st'.
Proof.
  intros Hstep. induction xs as [|x rest IH]; intros st st' xs' o H.
  - injection H as <- <- <-. apply resolves_refl.
  - cbn [rangeUpdate] in H. destruct (body st x) as [[st1 x'] o1] eqn:Ex.
    pose proof (Hstep _ _ _ _ _ Ex) as R1.
    destruct o1; try (by injection H as <- <- <-).
    destruct (rangeUpdate body st1 rest) as [[st2 rest'] o2] eqn:E.
    injection H as <- <- <-. eapply resolves_trans; [exact R1 | by eapply IH].
Qed.

Lemma rangeDo_resolves (body : Store.t -> A -> Store.t * outcome) :
  (forall st x st' o, body st x = (st', o) -> resolves c st st') ->
  forall xs st st' o, rangeDo body st xs = (st', o) -> resolves c st st'.
Proof.
  intros Hstep. induction xs as [|x rest IH]; intros st st' o H.
  - injection H as <- <-. apply resolves_refl.
  - cbn [rangeDo] in H. destruct (body st x) as [st1 o1] eqn:Ex.
    pose proof (Hstep _ _ _ _ Ex) as R1.
    destruct o1; try (by injection H as <- <-).
    eapply resolves_trans; [exact R1 | by eapply IH].
Qed.

(** What every completed iteration establishes still holds, for all
    elements, when the loop is over. *)
Lemma rangeUpdate_Done (I : Store.t -> Prop) (Q : Store.t -> A -> A -> Prop) body :
  (forall st st', I st -> resolves c st st' -> I st') ->
  (forall st st' x x', resolves c st st' -> Q st x x' -> Q st' x x') ->
  (forall st x st' x' o, body st x = (st', x', o) -> resolves c st st') ->
  (forall st x st' x', I st -> body st x = (st', x', Done) -> Q st' x x') ->
  forall xs st st' xs',
    I st -> rangeUpdate body st xs = (st', xs', Done) -> Forall2 (Q st') xs xs'.
Proof.
  intros HI HQ Hres Hstep. induction xs as [|x rest IH]; intros st st' xs' Hst H.
  - injection H as <- <-. constructor.
  - cbn [rangeUpdate] in H. destruct (body st x) as [[st1 x'] o1] eqn:Ex.
    destruct o1; try (by injection H).
    destruct (rangeUpdate body st1 rest) as [[st2 rest'] o2] eqn:E.
    injection H as <- <- ->.
    pose proof (Hres _ _ _ _ _ Ex) as R1.
    pose proof (rangeUpdate_resolves body Hres _ _ _ _ _ E) as R2.
    constructor.
    + eapply HQ; [exact R2 | by eapply Hstep].
    + eapply IH; [|exact E]. by eapply HI.
Qed.

Lemma rangeDo_Done (I : Store.t -> Prop) (Q : Store.t -> A -> Prop)
    (body : Store.t -> A -> Store.t * outcome) :
  (forall st st', I st -> resolves c st st' -> I st') ->
  (forall st st' x, resolves c st st' -> Q st x -> Q st' x) ->
  (forall st x st' o, body st x = (st', o) -> resolves c st st') ->
  (forall st x st', I st -> body st x = (st', Done) -> Q st' x) ->
  forall xs st st', I st -> rangeDo body st xs = (st', Done) -> Forall (Q st') xs.
Proof.
  intros HI HQ Hres Hstep. induction xs as [|x rest IH]; intros st st' Hst H.
  - constructor.
  - cbn [rangeDo] in H. destruct (body st x) as [st1 o1] eqn:Ex.
    destruct o1; try (by injection H).
    pose proof (Hres _ _ _ _ Ex) as R1.
    pose proof (rangeDo_resolves body Hres _ _ _ _ H) as R2.
    constructor.
    + eapply HQ; [exact R2 | by eapply Hstep].
    + eapply IH; [|exact H]. by eapply HI.
Qed.
End LoopInvariants.

(** ** The steps of the resolver *)

Section Steps.
Variable Errorf : string -> string.
Variable c : Components.t.

Lemma resolveSchema_quiet s : schemaQuiet s -> resolveSchema Errorf c s = (s, Done).
Proof.
  intros H. destruct s as [sc|]; [|done]. unfold resolveSchema.
  by rewrite decide_True by by apply H.
Qed.

Lemma resolveSchema_keeps s : schemaQuiet s -> (resolveSchema Errorf c s).1 = s.
Proof. intros H. by rewrite resolveSchema_quiet. Qed.

Lemma resolveSchema_Done s s' :
  schemasQuiet c -> resolveSchema Errorf c s = (s', Done) -> schemaQuiet s'.
Proof.
  intros HS. unfold resolveSchema. destruct s as [sc|].
  - destruct (decide (Schema.Ref sc = "")) as [E|_].
    + intros [= <-] sc' [= <-]. done.
    + destruct (Components.Schemas c !! _) as [resolved|] eqn:El; [|done].
      intros [= <-]. by eapply HS.
  - by intros [= <-].
Qed.

Lemma resolveSchema_Failed s s' msg :
  resolveSchema Errorf c s = (s', Failed msg) ->
  exists ref, missing c SchemaRef ref /\ msg = Errorf (missText SchemaRef ref).
Proof.
  unfold resolveSchema. destruct s as [sc|]; [|done].
  destruct (decide (Schema.Ref sc = "")) as [|Hne]; [done|].
  destruct (Components.Schemas c !! _) as [resolved|] eqn:El; [done|].
  intros [= <- <-]. exists (Schema.Ref sc). by repeat split.
Qed.

(** The pointer is rewritten only on a hit. *)
Lemma resolveSchema_changes s s' o :
  resolveSchema Errorf c s = (s', o) -> s' = s \/ schemaFine c s.
Proof.
  unfold resolveSchema. destruct s as [sc|]; [|intros [= <- <-]; by left].
  destruct (decide (Schema.Ref sc = "")) as [|Hne]; [intros [= <- <-]; by left|].
  destruct (Components.Schemas c !! _) as [resolved|] eqn:El; [|intros [= <- <-]; by left].
  intros _. right. intros sc' [= <-] [_ Hnone]. congruence.
Qed.

(** The new pointer is the old one or the table entry it names. *)
Lemma resolveSchema_hit s s' o :
  resolveSchema Errorf c s = (s', o) -> rtc (schemaHit c) s s'.
Proof.
  unfold resolveSchema. destruct s as [sc|]; [|by intros [= <- <-]].
  destruct (decide (Schema.Ref sc = "")) as [|Hne]; [by intros [= <- <-]|].
  destruct (Components.Schemas c !! _) as [resolved|] eqn:El; [|by intros [= <- <-]].
  intros [= <- <-]. apply rtc_once. by exists sc.
Qed.

Lemma resolveSchema_fine s s' :
  resolveSchema Errorf c s = (s', Done) -> schemaFine c s.
Proof.
  unfold resolveSchema. destruct s as [sc|]; [|by intros _ sc' [=]].
  destruct (decide (Schema.Ref sc = "")) as [He|Hne].
  - intros _ sc' [= <-] [Hne _]. done.
  - destruct (Components.Schemas c !! _) as [resolved|] eqn:El; [|done].
    intros _ sc' [= <-] [_ Hnone]. congruence.
Qed.

Lemma resolveSchema_no_Panic s s' : resolveSchema Errorf c s <> (s', Panic).
Proof.
  unfold resolveSchema. destruct s as [sc|]; [|done].
  destruct (decide _); [done|]. by destruct (Components.Schemas c !! _).
Qed.

(** *** Media types *)

Lemma resolveMediaType_resolves st entry st' o :
  resolveMediaType Errorf c st entry = (st', o) -> resolves c st st'.
Proof.
  unfold resolveMediaType. destruct entry.2 as [m|]; [|intros [= <- <-]; apply resolves_refl].
  destruct (Store.mediaTypes st !! m) as [mt|] eqn:Em; [|intros [= <- <-]; apply resolves_refl].
  destruct (MediaType.Schema mt) as [sc|] eqn:Es; [|intros [= <- <-]; apply resolves_refl].
  destruct (resolveSchema Errorf c (Some sc)) as [s' o'] eqn:Er. intros [= <- <-].
  apply (resolves_set_mediaType c st m mt); [done| | |]; rewrite Es.
  - intros Hq. pose proof (resolveSchema_keeps _ Hq) as Hk. by rewrite Er in Hk.
  - by eapply resolveSchema_changes.
  - by eapply resolveSchema_hit.
Qed.

Lemma resolveMediaType_Done st entry st' :
  schemasQuiet c ->
  resolveMediaType Errorf c st entry = (st', Done) -> mediaTypeQuiet st' entry.
Proof.
  intros HS. unfold resolveMediaType, mediaTypeQuiet.
  destruct entry.2 as [m|]; [|done].
  destruct (Store.mediaTypes st !! m) as [mt|] eqn:Em; [|done].
  destruct (MediaType.Schema mt) as [sc|] eqn:Es.
  - destruct (resolveSchema Errorf c (Some sc)) as [s' o'] eqn:Er.
    intros [= <- ->] m' [= <-]. exists (MediaType.mk s'). split.
    + apply list_lookup_insert_eq. by eapply lookup_lt_Some.
    + by eapply resolveSchema_Done.
  - intros [= <-] m' [= <-]. exists mt. split; [done|]. by rewrite Es.
Qed.

Lemma resolveMediaType_Failed st entry st' msg :
  resolveMediaType Errorf c st entry = (st', Failed msg) ->
  exists k ref, missing c k ref /\ msg = Errorf (missText k ref).
Proof.
  unfold resolveMediaType. destruct entry.2 as [m|]; [|done].
  destruct (Store.mediaTypes st !! m) as [mt|]; [|done].
  destruct (MediaType.Schema mt) as [sc|]; [|done].
  destruct (resolveSchema Errorf c (Some sc)) as [s' o'] eqn:Er. intros [= <- ->].
  exists SchemaRef. by eapply resolveSchema_Failed.
Qed.

Lemma resolveMediaType_noop st entry :
  mediaTypeQuiet st entry -> resolveMediaType Errorf c st entry = (st, Done).
Proof.
  unfold resolveMediaType, mediaTypeQuiet. intros H. destruct entry.2 as [m|]; [|done].
  destruct (H m eq_refl) as (mt & Hm & Hq). rewrite Hm.
  destruct (MediaType.Schema mt) as [sc|] eqn:Es; [|done].
  rewrite resolveSchema_quiet by done. rewrite <- Es. by rewrite set_mediaType_same.
Qed.

Lemma content_resolves st (content : ContentMap) st' o :
  rangeDo (resolveMediaType Errorf c) st content = (st', o) -> resolves c st st'.
Proof. apply rangeDo_resolves. apply resolveMediaType_resolves. Qed.

Lemma content_Done st (content : ContentMap) st' :
  schemasQuiet c ->
  rangeDo (resolveMediaType Errorf c) st content = (st', Done) ->
  Forall (mediaTypeQuiet st') content.
Proof.
  intros HS. apply (rangeDo_Done c (fun _ => True)); try done.
  - intros ? ? ?. apply (mediaTypeQuiet_resolves c).
  - apply resolveMediaType_resolves.
  - intros ? ? ? _. by apply resolveMediaType_Done.
Qed.

Lemma content_Failed st (content : ContentMap) st' msg :
  rangeDo (resolveMediaType Errorf c) st content = (st', Failed msg) ->
  exists k ref, missing c k ref /\ msg = Errorf (missText k ref).
Proof.
  intros H. apply rangeDo_not_Done in H as (x & st1 & _ & H); [|done].
  by eapply resolveMediaType_Failed.
Qed.

Lemma content_noop st (content : ContentMap) :
  Forall (mediaTypeQuiet st) content ->
  rangeDo (resolveMediaType Errorf c) st content = (st, Done).
Proof.
  intros H. apply rangeDo_noop. intros x Hx. apply resolveMediaType_noop.
  by eapply (proj1 (Forall_forall _ _)).
Qed.
End Steps.

Section Slots.
Variable Errorf : string -> string.
Variable c : Components.t.

(** *** Parameter slots *)

Lemma resolveParameter_resolves st slot st' slot' o :
  resolveParameter Errorf c st slot = (st', slot', o) -> resolves c st st'.
Proof.
  unfold resolveParameter. destruct slot as [a|]; [|intros [= <- <- <-]; apply resolves_refl].
  destruct (Store.parameters st !! a) as [p|] eqn:Ea;
    [|intros [= <- <- <-]; apply resolves_refl].
  assert (forall slot1,
    (let '(s', o0) := resolveSchema Errorf c (Param.Schema p) in
     (Store.set_parameter a (Param.with_Schema s' p) st, slot1, o0)) = (st', slot', o) ->
    resolves c st st') as Hwrite.
  { intros slot1. destruct (resolveSchema Errorf c (Param.Schema p)) as [s' o'] eqn:Er.
    intros [= <- <- <-]. apply resolves_set_parameter; [done| | |].
    - intros Hq. pose proof (resolveSchema_keeps Errorf c _ Hq) as Hk. by rewrite Er in Hk.
    - by eapply resolveSchema_changes.
    - by eapply resolveSchema_hit. }
  destruct (decide (Param.Ref p = "")); [apply Hwrite|].
  destruct (Components.Parameters c !! _) as [resolved|]; [apply Hwrite|].
  intros [= <- <- <-]. apply resolves_refl.
Qed.

Lemma resolveParameter_Done st slot st' slot' :
  resolveParameter Errorf c st slot = (st', slot', Done) ->
  paramSlotResolved c st' slot slot'.
Proof.
  intros H. pose proof (resolveParameter_resolves _ _ _ _ _ H) as R.
  apply (paramSlotResolved_resolves c st st'); [done|]. revert H.
  unfold resolveParameter, paramSlotResolved. destruct slot as [a|]; [|by intros [= <- <-]].
  destruct (Store.parameters st !! a) as [p|] eqn:Ea; [|done].
  destruct (decide (Param.Ref p = "")) as [Hr|Hr].
  - destruct (resolveSchema Errorf c (Param.Schema p)). intros [= <- <- _].
    exists p. split; [done|]. by rewrite decide_True.
  - destruct (Components.Parameters c !! _) as [resolved|] eqn:El; [|done].
    destruct (resolveSchema Errorf c (Param.Schema p)). intros [= <- <- _].
    exists p. split; [done|]. by rewrite decide_False.
Qed.

Lemma resolveParameter_quiet st slot st' slot' :
  componentsQuiet c st ->
  resolveParameter Errorf c st slot = (st', slot', Done) ->
  paramQuiet st' slot'.
Proof.
  intros HC H. pose proof (resolveParameter_resolves _ _ _ _ _ H) as R.
  pose proof HC as (HS & HP & _). revert H. unfold resolveParameter.
  destruct slot as [a|]; [|by intros [= <- <-] a' [=]].
  destruct (Store.parameters st !! a) as [p|] eqn:Ea; [|done].
  destruct (decide (Param.Ref p = "")) as [Hr|Hr].
  - destruct (resolveSchema Errorf c (Param.Schema p)) as [s' o'] eqn:Er.
    intros [= <- <- ->] a' [= <-]. exists (Param.with_Schema s' p). repeat split.
    + apply list_lookup_insert_eq. by eapply lookup_lt_Some.
    + done.
    + by eapply resolveSchema_Done.
  - destruct (Components.Parameters c !! _) as [resolved|] eqn:El; [|done].
    destruct (resolveSchema Errorf c (Param.Schema p)) as [s' o'] eqn:Er.
    intros [= <- <- ->]. eapply (paramQuiet_resolves c); [exact R|]. by eapply HP.
Qed.

Lemma resolveParameter_Failed st slot st' slot' msg :
  resolveParameter Errorf c st slot = (st', slot', Failed msg) ->
  exists k ref, missing c k ref /\ msg = Errorf (missText k ref).
Proof.
  unfold resolveParameter. destruct slot as [a|]; [|done].
  destruct (Store.parameters st !! a) as [p|] eqn:Ea; [|done].
  assert (forall slot1,
    (let '(s', o0) := resolveSchema Errorf c (Param.Schema p) in
     (Store.set_parameter a (Param.with_Schema s' p) st, slot1, o0))
      = (st', slot', Failed msg) ->
    exists k ref, missing c k ref /\ msg = Errorf (missText k ref)) as Hschema.
  { intros slot1. destruct (resolveSchema Errorf c (Param.Schema p)) as [s' o'] eqn:Er.
    intros [= <- <- ->]. exists SchemaRef. by eapply resolveSchema_Failed. }
  destruct (decide (Param.Ref p = "")) as [|Hr]; [apply Hschema|].
  destruct (Components.Parameters c !! _) as [resolved|] eqn:El; [apply Hschema|].
  intros [= <- <- <-]. exists ParameterRef, (Param.Ref p). by repeat split.
Qed.

Lemma resolveParameter_noop st slot :
  paramQuiet st slot -> resolveParameter Errorf c st slot = (st, slot, Done).
Proof.
  unfold resolveParameter, paramQuiet. intros H. destruct slot as [a|]; [|done].
  destruct (H a eq_refl) as (p & Hp & Hr & Hq). rewrite Hp.
  rewrite decide_True by done. rewrite resolveSchema_quiet by done.
  by rewrite set_parameter_same.
Qed.

(** *** The request body *)

Lemma resolveRequestBody_resolves st body st' body' o :
  resolveRequestBody Errorf c st body = (st', body', o) -> resolves c st st'.
Proof.
  unfold resolveRequestBody. destruct body as [rb|]; [|intros [= <- <- <-]; apply resolves_refl].
  assert (forall b : option RequestBody.t,
    match b with
    | Some rb' =>
        let '(st'0, o0) := rangeDo (resolveMediaType Errorf c) st (RequestBody.Content rb') in
        (st'0, b, o0)
    | None => (st, b, Panic)
    end = (st', body', o) -> resolves c st st') as Hscan.
  { intros [rb'|]; [|intros [= <- <- <-]; apply resolves_refl].
    destruct (rangeDo _ st _) as [st1 o1] eqn:E. intros [= <- <- <-].
    by eapply content_resolves. }
  destruct (decide (RequestBody.Ref rb = "")); [apply (Hscan (Some rb))|].
  destruct (Components.RequestBodies c !! _) as [resolved|]; [apply (Hscan resolved)|].
  intros [= <- <- <-]. apply resolves_refl.
Qed.

Lemma resolveRequestBody_Done st body st' body' :
  resolveRequestBody Errorf c st body = (st', body', Done) ->
  bodyResolved c body body'.
Proof.
  unfold resolveRequestBody, bodyResolved. destruct body as [rb|]; [|by intros [= <- <-]].
  destruct (decide (RequestBody.Ref rb = "")).
  - destruct (rangeDo _ st _) as [st1 o1]. by intros [= <- <- _].
  - destruct (Components.RequestBodies c !! _) as [resolved|]; [|done].
    destruct resolved as [rb'|]; [|done].
    destruct (rangeDo _ st _) as [st1 o1]. intros [= <- <- _]. by split.
Qed.

Lemma resolveRequestBody_quiet st body st' body' :
  componentsQuiet c st ->
  resolveRequestBody Errorf c st body = (st', body', Done) ->
  bodyQuiet st' body'.
Proof.
  intros (HS & _ & HB & _). unfold resolveRequestBody.
  destruct body as [rb|]; [|by intros [= <- <-] rb' [=]].
  destruct (decide (RequestBody.Ref rb = "")) as [Hr|Hr].
  - destruct (rangeDo _ st _) as [st1 o1] eqn:E. intros [= <- <- ->] rb' [= <-].
    split; [done | by eapply content_Done].
  - destruct (Components.RequestBodies c !! _) as [resolved|] eqn:El; [|done].
    destruct resolved as [rb'|]; [|done].
    destruct (rangeDo _ st _) as [st1 o1] eqn:E. intros [= <- <- ->] rb'' [= <-].
    destruct (HB _ _ El rb' eq_refl) as [Hr' _].
    split; [done | by eapply content_Done].
Qed.

Lemma resolveRequestBody_Failed st body st' body' msg :
  resolveRequestBody Errorf c st body = (st', body', Failed msg) ->
  exists k ref, missing c k ref /\ msg = Errorf (missText k ref).
Proof.
  unfold resolveRequestBody. destruct body as [rb|]; [|done].
  destruct (decide (RequestBody.Ref rb = "")) as [|Hr].
  - destruct (rangeDo _ st _) as [st1 o1] eqn:E. intros [= <- <- ->].
    by eapply content_Failed.
  - destruct (Components.RequestBodies c !! _) as [resolved|] eqn:El.
    + destruct resolved as [rb'|]; [|done].
      destruct (rangeDo _ st _) as [st1 o1] eqn:E. intros [= <- <- ->].
      by eapply content_Failed.
    + intros [= <- <- <-]. exists RequestBodyRef, (RequestBody.Ref rb). by repeat split.
Qed.

Lemma resolveRequestBody_noop st body :
  bodyQuiet st body -> resolveRequestBody Errorf c st body = (st, body, Done).
Proof.
  unfold resolveRequestBody, bodyQuiet. intros H. destruct body as [rb|]; [|done].
  destruct (H rb eq_refl) as [Hr Hc]. rewrite decide_True by done.
  by rewrite content_noop.
Qed.

(** *** Response entries *)

Lemma resolveResponse_resolves st entry st' entry' o :
  resolveResponse Errorf c st entry = (st', entry', o) -> resolves c st st'.
Proof.
  unfold resolveResponse. destruct entry.2 as [resp|]; [|intros [= <- <- <-]; apply resolves_refl].
  assert (forall slot1 : option Response.t,
    (let '(st'0, o0) := rangeDo (resolveMediaType Errorf c) st (Response.Content resp) in
     (st'0, (entry.1, slot1), o0)) = (st', entry', o) -> resolves c st st') as Hscan.
  { intros slot1. destruct (rangeDo _ st _) as [st1 o1] eqn:E. intros [= <- <- <-].
    by eapply content_resolves. }
  destruct (decide (Response.Ref resp = "")); [apply Hscan|].
  destruct (Components.Responses c !! _) as [resolved|]; [apply Hscan|].
  intros [= <- <- <-]. apply resolves_refl.
Qed.

Lemma resolveResponse_Done st entry st' entry' :
  resolveResponse Errorf c st entry = (st', entry', Done) ->
  responseResolved c entry entry'.
Proof.
  unfold resolveResponse, responseResolved.
  destruct entry.2 as [resp|] eqn:E2; [|by intros [= <- <-]].
  destruct (decide (Response.Ref resp = "")).
  - destruct (rangeDo _ st _) as [st1 o1]. by intros [= <- <- _].
  - destruct (Components.Responses c !! _) as [resolved|]; [|done].
    destruct (rangeDo _ st _) as [st1 o1]. by intros [= <- <- _].
Qed.

Lemma resolveResponse_quiet st entry st' entry' :
  componentsQuiet c st ->
  resolveResponse Errorf c st entry = (st', entry', Done) ->
  responseQuiet st' entry'.2.
Proof.
  intros HC H. pose proof (resolveResponse_resolves _ _ _ _ _ H) as R.
  pose proof HC as (HS & _ & _ & HR). revert H. unfold resolveResponse.
  destruct entry.2 as [resp|] eqn:E2; [|by intros [= <- <-] r; rewrite E2].
  destruct (decide (Response.Ref resp = "")) as [Hr|Hr].
  - destruct (rangeDo _ st _) as [st1 o1] eqn:E. intros [= <- <- ->] r [= <-].
    split; [done | by eapply content_Done].
  - destruct (Components.Responses c !! _) as [resolved|] eqn:El; [|done].
    destruct (rangeDo _ st _) as [st1 o1] eqn:E. intros [= <- <- ->]. cbn [snd].
    eapply (responseQuiet_resolves c); [exact R|]. by eapply HR.
Qed.

Lemma resolveResponse_Failed st entry st' entry' msg :
  resolveResponse Errorf c st entry = (st', entry', Failed msg) ->
  exists k ref, missing c k ref /\ msg = Errorf (missText k ref).
Proof.
  unfold resolveResponse. destruct entry.2 as [resp|]; [|done].
  destruct (decide (Response.Ref resp = "")) as [|Hr].
  - destruct (rangeDo _ st _) as [st1 o1] eqn:E. intros [= <- <- ->].
    by eapply content_Failed.
  - destruct (Components.Responses c !! _) as [resolved|] eqn:El.
    + destruct (rangeDo _ st _) as [st1 o1] eqn:E. intros [= <- <- ->].
      by eapply content_Failed.
    + intros [= <- <- <-]. exists ResponseRef, (Response.Ref resp). by repeat split.
Qed.

Lemma resolveResponse_noop st entry :
  responseQuiet st entry.2 -> resolveResponse Errorf c st entry = (st, entry, Done).
Proof.
  unfold resolveResponse, responseQuiet. intros H.
  destruct entry as [code [resp|]]; [|done]. cbn [fst snd] in *.
  destruct (H resp eq_refl) as [Hr Hc]. rewrite decide_True by done.
  by rewrite content_noop.
Qed.
End Slots.

(** *** Endpoints *)

Section Endpoints.
Variable Errorf : string -> string.
Variable c : Components.t.

Lemma resolveEndpoint_resolves st e st' e' o :
  resolveEndpoint Errorf c st e = (st', e', o) -> resolves c st st'.
Proof.
  unfold resolveEndpoint.
  destruct (rangeUpdate _ st (Endpoint.Parameters e)) as [[st1 ps] o1] eqn:E1.
  pose proof (rangeUpdate_resolves c _ (resolveParameter_resolves Errorf c) _ _ _ _ _ E1) as R1.
  destruct o1; try (by intros [= <- <- <-]).
  destruct (resolveRequestBody Errorf c st1 _) as [[st2 rb] o2] eqn:E2.
  pose proof (resolveRequestBody_resolves _ _ _ _ _ _ _ E2) as R2.
  destruct o2; try (intros [= <- <- <-]; exact (resolves_trans c _ _ _ R1 R2)).
  destruct (rangeUpdate _ st2 _) as [[st3 rs] o3] eqn:E3.
  pose proof (rangeUpdate_resolves c _ (resolveResponse_resolves Errorf c) _ _ _ _ _ E3) as R3.
  intros [= <- <- <-]. eapply resolves_trans; [|exact R3]. by eapply resolves_trans.
Qed.

Lemma parameters_Done st ps st' ps' :
  rangeUpdate (resolveParameter Errorf c) st ps = (st', ps', Done) ->
  Forall2 (paramSlotResolved c st') ps ps'.
Proof.
  apply (rangeUpdate_Done c (fun _ => True)); try done.
  - intros ? ? ? ?. apply paramSlotResolved_resolves.
  - apply resolveParameter_resolves.
  - intros ? ? ? ? _. apply resolveParameter_Done.
Qed.

Lemma responses_Done st rs st' rs' :
  rangeUpdate (resolveResponse Errorf c) st rs = (st', rs', Done) ->
  Forall2 (responseResolved c) rs rs'.
Proof.
  apply (rangeUpdate_Done c (fun _ => True) (fun _ => responseResolved c)); try done.
  - apply resolveResponse_resolves.
  - intros ? ? ? ? _. apply resolveResponse_Done.
Qed.

Lemma Forall2_paramSlotResolved_resolves st st' ps ps' :
  resolves c st st' ->
  Forall2 (paramSlotResolved c st) ps ps' -> Forall2 (paramSlotResolved c st') ps ps'.
Proof.
  intros R H. eapply Forall2_impl; [exact H|].
  intros ? ?. by apply paramSlotResolved_resolves.
Qed.

Lemma Forall2_paramSlotResolved_back st st' ps ps' :
  resolves c st st' ->
  Forall2 (paramSlotResolved c st') ps ps' -> Forall2 (paramSlotResolved c st) ps ps'.
Proof.
  intros R H. eapply Forall2_impl; [exact H|].
  intros ? ?. by apply paramSlotResolved_back.
Qed.

Lemma resolveEndpoint_Done st e st' e' :
  resolveEndpoint Errorf c st e = (st', e', Done) -> endpointResolved c st' e e'.
Proof.
  unfold resolveEndpoint.
  destruct (rangeUpdate _ st (Endpoint.Parameters e)) as [[st1 ps] o1] eqn:E1.
  destruct o1; try done.
  destruct (resolveRequestBody Errorf c st1 _) as [[st2 rb] o2] eqn:E2.
  destruct o2; try done.
  destruct (rangeUpdate _ st2 _) as [[st3 rs] o3] eqn:E3.
  intros [= <- <- ->]. cbn in E2, E3.
  pose proof (resolveRequestBody_resolves _ _ _ _ _ _ _ E2) as R2.
  pose proof (rangeUpdate_resolves c _ (resolveResponse_resolves Errorf c) _ _ _ _ _ E3) as R3.
  repeat split; cbn; try done.
  - eapply Forall2_paramSlotResolved_resolves; [exact (resolves_trans c _ _ _ R2 R3)|].
    exact (parameters_Done _ _ _ _ E1).
  - by eapply resolveRequestBody_Done.
  - by eapply responses_Done.
Qed.

Lemma resolveEndpoint_quiet st e st' e' :
  componentsQuiet c st ->
  resolveEndpoint Errorf c st e = (st', e', Done) -> endpointQuiet st' e'.
Proof.
  intros HC. unfold resolveEndpoint.
  destruct (rangeUpdate _ st (Endpoint.Parameters e)) as [[st1 ps] o1] eqn:E1.
  destruct o1; try done.
  destruct (resolveRequestBody Errorf c st1 _) as [[st2 rb] o2] eqn:E2.
  destruct o2; try done.
  destruct (rangeUpdate _ st2 _) as [[st3 rs] o3] eqn:E3.
  intros [= <- <- ->]. cbn in E2, E3.
  pose proof (rangeUpdate_resolves c _ (resolveParameter_resolves Errorf c) _ _ _ _ _ E1) as R1.
  pose proof (resolveRequestBody_resolves _ _ _ _ _ _ _ E2) as R2.
  pose proof (rangeUpdate_resolves c _ (resolveResponse_resolves Errorf c) _ _ _ _ _ E3) as R3.
  pose proof (componentsQuiet_resolves _ _ _ HC R1) as HC1.
  pose proof (componentsQuiet_resolves _ _ _ HC1 R2) as HC2.
  split; [|split]; cbn.
  - apply (Forall2_right_Forall (Endpoint.Parameters e)).
    eapply Forall2_impl.
    + revert E1. apply (rangeUpdate_Done c (componentsQuiet c)
                          (fun st0 (_ slot' : option nat) => paramQuiet st0 slot')); try done.
      * apply componentsQuiet_resolves.
      * intros ? ? ? ?. apply (paramQuiet_resolves c).
      * apply resolveParameter_resolves.
      * intros ? ? ? ?. apply resolveParameter_quiet.
    + intros ? slot'. apply (paramQuiet_resolves c). exact (resolves_trans c _ _ _ R2 R3).
  - eapply (bodyQuiet_resolves c); [exact R3|].
    exact (resolveRequestBody_quiet Errorf c _ _ _ _ HC1 E2).
  - apply (Forall2_right_Forall (Endpoint.Responses e)).
    revert E3. apply (rangeUpdate_Done c (componentsQuiet c)
      (fun st0 (_ entry' : string * option Response.t) => responseQuiet st0 entry'.2));
      try done.
    + apply componentsQuiet_resolves.
    + intros ? ? ? ?. apply (responseQuiet_resolves c).
    + apply resolveResponse_resolves.
    + intros ? ? ? ?. apply resolveResponse_quiet.
Qed.

Lemma resolveEndpoint_Failed st e st' e' msg :
  resolveEndpoint Errorf c st e = (st', e', Failed msg) ->
  exists k ref, missing c k ref /\ msg = Errorf (missText k ref).
Proof.
  unfold resolveEndpoint.
  destruct (rangeUpdate _ st (Endpoint.Parameters e)) as [[st1 ps] o1] eqn:E1.
  destruct o1; try done.
  - destruct (resolveRequestBody Errorf c st1 _) as [[st2 rb] o2] eqn:E2.
    destruct o2; try done.
    + destruct (rangeUpdate _ st2 _) as [[st3 rs] o3] eqn:E3.
      intros [= <- <- ->].
      apply rangeUpdate_not_Done in E3
        as (? & x & ? & st4 & ? & x' & _ & _ & _ & Hx); [|done].
      by eapply resolveResponse_Failed.
    + intros [= <- <- <-]. by eapply resolveRequestBody_Failed.
  - intros [= <- <- <-].
    apply rangeUpdate_not_Done in E1
      as (? & x & ? & st4 & ? & x' & _ & _ & _ & Hx); [|done].
    by eapply resolveParameter_Failed.
Qed.

Lemma with_same (e : Endpoint.t) :
  Endpoint.with_Responses (Endpoint.Responses e)
    (Endpoint.with_RequestBody (Endpoint.RequestBody e)
       (Endpoint.with_Parameters (Endpoint.Parameters e) e)) = e.
Proof. by destruct e. Qed.

Lemma resolveEndpoint_noop st e :
  endpointQuiet st e -> resolveEndpoint Errorf c st e = (st, e, Done).
Proof.
  intros (HP & HB & HR). unfold resolveEndpoint.
  rewrite rangeUpdate_noop.
  2:{ intros slot Hin. apply resolveParameter_noop.
      by eapply (proj1 (Forall_forall _ _)). }
  cbn. rewrite resolveRequestBody_noop by done. cbn.
  rewrite rangeUpdate_noop.
  2:{ intros entry Hin. apply resolveResponse_noop.
      by eapply (proj1 (Forall_forall _ _) HR). }
  by rewrite with_same.
Qed.

(** Where a failing endpoint stands when its processing stops. *)
Lemma resolveEndpoint_partly st e st' e' o :
  resolveEndpoint Errorf c st e = (st', e', o) -> o <> Done -> endpointPartly c st' e e'.
Proof.
  intros H Ho. pose proof (resolveEndpoint_resolves _ _ _ _ _ H) as R. revert H.
  unfold resolveEndpoint.
  destruct (rangeUpdate _ st (Endpoint.Parameters e)) as [[st1 ps] o1] eqn:E1.
  assert (o1 <> Done ->
          resolvedUpTo (paramSlotResolved c st1) (Endpoint.Parameters e) ps) as Hstop.
  { intros Hn. apply rangeUpdate_not_Done in E1
      as (xs1 & x & xs2 & st0 & xs1' & x' & -> & -> & Hpre & Hx); [|done].
    exists xs1, x, xs2, xs1', x'. repeat split.
    eapply Forall2_paramSlotResolved_resolves; [|exact (parameters_Done _ _ _ _ Hpre)].
    by eapply resolveParameter_resolves. }
  destruct o1.
  - destruct (resolveRequestBody Errorf c st1 _) as [[st2 rb] o2] eqn:E2.
    pose proof (parameters_Done _ _ _ _ E1) as HP. cbn in E2.
    pose proof (resolveRequestBody_resolves _ _ _ _ _ _ _ E2) as R2.
    destruct o2.
    + destruct (rangeUpdate _ st2 _) as [[st3 rs] o3] eqn:E3. cbn in E3.
      intros [= <- <- <-]. right. right. cbn.
      pose proof (rangeUpdate_resolves c _ (resolveResponse_resolves Errorf c) _ _ _ _ _ E3) as R3.
      split; [|split].
      * eapply Forall2_paramSlotResolved_resolves; [|exact HP].
        exact (resolves_trans c _ _ _ R2 R3).
      * by eapply resolveRequestBody_Done.
      * apply rangeUpdate_not_Done in E3
          as (xs1 & x & xs2 & st0 & xs1' & x' & -> & -> & Hpre & Hx); [|done].
        exists xs1, x, xs2, xs1', x'. repeat split. by eapply responses_Done.
    + intros [= <- <- <-]. right. left. cbn. split; [|done].
      by eapply Forall2_paramSlotResolved_resolves.
    + intros [= <- <- <-]. right. left. cbn. split; [|done].
      by eapply Forall2_paramSlotResolved_resolves.
  - intros [= <- <- <-]. left. cbn. split; [by apply Hstop | done].
  - intros [= <- <- <-]. left. cbn. split; [by apply Hstop | done].
Qed.
End Endpoints.

(** ** The whole document *)

Section Documents.
Variable Errorf : string -> string.
Variable c : Components.t.

Lemma endpointResolved_resolves st st' e e' :
  resolves c st st' -> endpointResolved c st e e' -> endpointResolved c st' e e'.
Proof.
  intros R (?&?&?&?&HP&?&?). repeat split; try done.
  by eapply Forall2_paramSlotResolved_resolves.
Qed.

Lemma endpointResolved_back st st' e e' :
  resolves c st st' -> endpointResolved c st' e e' -> endpointResolved c st e e'.
Proof.
  intros R (?&?&?&?&HP&?&?). repeat split; try done.
  by eapply Forall2_paramSlotResolved_back.
Qed.

Lemma endpointPartly_back st st' e e' :
  resolves c st st' -> endpointPartly c st' e e' -> endpointPartly c st e e'.
Proof.
  intros R [(Hup & ? & ?)|[(HP & ?)|(HP & ? & ?)]].
  - left. split; [|done].
    destruct Hup as (xs1 & x & xs2 & xs1' & x' & -> & -> & HF).
    exists xs1, x, xs2, xs1', x'. repeat split. by eapply Forall2_paramSlotResolved_back.
  - right. left. split; [|done]. by eapply Forall2_paramSlotResolved_back.
  - right. right. split; [|done]. by eapply Forall2_paramSlotResolved_back.
Qed.

Lemma endpointQuiet_resolves st st' e :
  resolves c st st' -> endpointQuiet st e -> endpointQuiet st' e.
Proof.
  intros R (HP & HB & HR). split; [|split].
  - eapply Forall_impl; [exact HP|]. intros ?. by apply (paramQuiet_resolves c).
  - by eapply (bodyQuiet_resolves c).
  - eapply Forall_impl; [exact HR|]. intros ?. by apply (responseQuiet_resolves c).
Qed.

Lemma endpoints_resolves st eps st' eps' o :
  rangeUpdate (resolveEndpoint Errorf c) st eps = (st', eps', o) -> resolves c st st'.
Proof. apply rangeUpdate_resolves. apply resolveEndpoint_resolves. Qed.

Lemma endpoints_Done st eps st' eps' :
  rangeUpdate (resolveEndpoint Errorf c) st eps = (st', eps', Done) ->
  Forall2 (endpointResolved c st') eps eps'.
Proof.
  apply (rangeUpdate_Done c (fun _ => True)); try done.
  - intros ? ? ? ?. apply endpointResolved_resolves.
  - apply resolveEndpoint_resolves.
  - intros ? ? ? ? _. apply resolveEndpoint_Done.
Qed.

Lemma endpoints_quiet st eps st' eps' :
  componentsQuiet c st ->
  rangeUpdate (resolveEndpoint Errorf c) st eps = (st', eps', Done) ->
  Forall (endpointQuiet st') eps'.
Proof.
  intros HC H. apply (Forall2_right_Forall eps). revert H.
  apply (rangeUpdate_Done c (componentsQuiet c)
           (fun st0 (_ e' : Endpoint.t) => endpointQuiet st0 e')); try done.
  - apply componentsQuiet_resolves.
  - intros ? ? ? ?. apply endpointQuiet_resolves.
  - apply resolveEndpoint_resolves.
  - intros ? ? ? ?. apply resolveEndpoint_quiet.
Qed.

Lemma endpoints_noop st eps :
  Forall (endpointQuiet st) eps ->
  rangeUpdate (resolveEndpoint Errorf c) st eps = (st, eps, Done).
Proof.
  intros H. apply rangeUpdate_noop. intros e He. apply resolveEndpoint_noop.
  by eapply (proj1 (Forall_forall _ _)).
Qed.

(** A slot that carries a descriptor naming nothing keeps the endpoint from
    being resolved. *)
Lemma directMiss_not_resolved st e e' :
  directMiss c st e -> ~ endpointResolved c st e e'.
Proof.
  intros Hmiss (_ & _ & _ & _ & HP & HB & HR).
  destruct Hmiss as [(a & p & Hin & Hp & Hne & Hnone)
                    |[(rb & Hrb & Hne & Hnone)|(code & resp & Hin & Hne & Hnone)]].
  - apply list_elem_of_lookup in Hin as [j Hj].
    destruct (Forall2_lookup_l _ _ _ _ _ HP Hj) as (slot' & _ & p' & Hp' & Hres).
    rewrite Hp in Hp'. injection Hp' as <-.
    rewrite decide_False in Hres by done. congruence.
  - unfold bodyResolved in HB. rewrite Hrb, decide_False in HB by done.
    destruct HB as [_ HB]. congruence.
  - apply list_elem_of_lookup in Hin as [j Hj].
    destruct (Forall2_lookup_l _ _ _ _ _ HR Hj) as (entry' & _ & _ & Hres).
    cbn [snd] in Hres. rewrite decide_False in Hres by done. congruence.
Qed.
End Documents.

(** ** What a completed walk has checked *)

Section Checked.
Variable Errorf : string -> string.
Variable c : Components.t.
Variable st0 : Store.t.

Lemma Forall2_left_Forall {A B : Type} (P : A -> Prop) (xs : list A) (ys : list B) :
  Forall2 (fun x _ => P x) xs ys -> Forall P xs.
Proof. induction 1; by constructor. Qed.

Lemma resolveParameter_fine st slot st' slot' :
  resolves c st0 st ->
  resolveParameter Errorf c st slot = (st', slot', Done) ->
  paramFine c st0 slot.
Proof.
  intros (_ & _ & P & _) H a p0 -> H0.
  destruct (P a p0 H0) as (s' & Ha & _ & [->|Hfine] & _); [|done].
  rewrite with_Schema_same in Ha. revert H. unfold resolveParameter. rewrite Ha.
  destruct (decide (Param.Ref p0 = "")).
  - destruct (resolveSchema Errorf c (Param.Schema p0)) as [s1 o1] eqn:Er.
    intros [= _ _ ->]. by eapply resolveSchema_fine.
  - destruct (Components.Parameters c !! _); [|done].
    destruct (resolveSchema Errorf c (Param.Schema p0)) as [s1 o1] eqn:Er.
    intros [= _ _ ->]. by eapply resolveSchema_fine.
Qed.

Lemma resolveMediaType_fine st entry st' :
  resolves c st0 st ->
  resolveMediaType Errorf c st entry = (st', Done) ->
  mediaTypeFine c st0 entry.
Proof.
  intros (_ & _ & _ & M) H m mt0 Hm H0.
  destruct (M m mt0 H0) as (mt' & Ha & _ & [->|Hfine] & _); [|done].
  revert H. unfold resolveMediaType. rewrite Hm, Ha.
  destruct (MediaType.Schema mt0) as [sc|] eqn:Es; [|by intros _ sc' [=]].
  destruct (resolveSchema Errorf c (Some sc)) as [s1 o1] eqn:Er.
  intros [= _ ->]. by eapply resolveSchema_fine.
Qed.

Lemma content_fine st (content : ContentMap) st' :
  resolves c st0 st ->
  rangeDo (resolveMediaType Errorf c) st content = (st', Done) ->
  Forall (mediaTypeFine c st0) content.
Proof.
  apply (rangeDo_Done c (resolves c st0) (fun _ => mediaTypeFine c st0)); try done.
  - apply resolves_trans.
  - apply resolveMediaType_resolves.
  - apply resolveMediaType_fine.
Qed.

Lemma resolveEndpoint_fine st e st' e' :
  resolves c st0 st ->
  resolveEndpoint Errorf c st e = (st', e', Done) ->
  endpointFine c st0 e.
Proof.
  intros R0. unfold resolveEndpoint.
  destruct (rangeUpdate _ st (Endpoint.Parameters e)) as [[st1 ps] o1] eqn:E1.
  destruct o1; try done.
  destruct (resolveRequestBody Errorf c st1 _) as [[st2 rb] o2] eqn:E2.
  destruct o2; try done.
  destruct (rangeUpdate _ st2 _) as [[st3 rs] o3] eqn:E3.
  intros [= _ _ ->]. cbn in E2, E3.
  pose proof (rangeUpdate_resolves c _ (resolveParameter_resolves Errorf c) _ _ _ _ _ E1) as R1.
  pose proof (resolveRequestBody_resolves _ _ _ _ _ _ _ E2) as R2.
  pose proof (resolves_trans c _ _ _ R0 R1) as R01.
  pose proof (resolves_trans c _ _ _ R01 R2) as R02.
  split; [|split].
  - apply (Forall2_left_Forall _ _ ps). revert E1.
    apply (rangeUpdate_Done c (resolves c st0)
             (fun _ (slot _ : option nat) => paramFine c st0 slot)); try done.
    + apply resolves_trans.
    + apply resolveParameter_resolves.
    + intros ? ? ? ?. apply resolveParameter_fine.
  - intros body Hb Hr. revert E2. unfold resolveRequestBody. rewrite Hb.
    rewrite decide_True by done.
    destruct (rangeDo _ st1 _) as [st4 o4] eqn:E4. intros [= _ _ ->].
    exact (content_fine _ _ _ R01 E4).
  - apply (Forall2_left_Forall _ _ rs). revert E3.
    apply (rangeUpdate_Done c (resolves c st0)
             (fun _ (entry _ : string * option Response.t) =>
                forall resp, entry.2 = Some resp ->
                  Forall (mediaTypeFine c st0) (Response.Content resp))); try done.
    + apply resolves_trans.
    + apply resolveResponse_resolves.
    + intros st4 entry st5 entry' R4. unfold resolveResponse.
      intros H resp Hresp. rewrite Hresp in H.
      destruct (decide (Response.Ref resp = "")).
      * destruct (rangeDo _ st4 _) as [st6 o6] eqn:E6. injection H as _ _ ->.
        exact (content_fine _ _ _ R4 E6).
      * destruct (Components.Responses c !! _); [|done].
        destruct (rangeDo _ st4 _) as [st6 o6] eqn:E6. injection H as _ _ ->.
        exact (content_fine _ _ _ R4 E6).
Qed.

Lemma endpoints_fine eps st' eps' :
  rangeUpdate (resolveEndpoint Errorf c) st0 eps = (st', eps', Done) ->
  Forall (endpointFine c st0) eps.
Proof.
  intros H. apply (Forall2_left_Forall _ _ eps'). revert H.
  apply (rangeUpdate_Done c (resolves c st0)
           (fun _ (e _ : Endpoint.t) => endpointFine c st0 e)); try done.
  - apply resolves_trans.
  - apply resolveEndpoint_resolves.
  - intros ? ? ? ?. apply resolveEndpoint_fine.
  - apply resolves_refl.
Qed.

Lemma mediaTypeFine_not_missing (content : ContentMap) key m mt sc :
  Forall (mediaTypeFine c st0) content ->
  (key, Some m) ∈ content ->
  Store.mediaTypes st0 !! m = Some mt ->
  MediaType.Schema mt = Some sc ->
  ~ missing c SchemaRef (Schema.Ref sc).
Proof.
  intros HF Hin Hm Hs.
  exact (proj1 (Forall_forall _ _) HF _ Hin m mt eq_refl Hm sc Hs).
Qed.

Lemma nestedMiss_not_fine e : nestedMiss c st0 e -> ~ endpointFine c st0 e.
Proof.
  intros Hmiss (HP & HB & HR).
  destruct Hmiss as [(a & p & sc & Hin & Hp & _ & Hs & Hmiss)
                    |[(rb & key & m & mt & sc & Hrb & Hr & Hin & Hm & Hs & Hmiss)
                     |(code & resp & key & m & mt & sc & Hin & _ & Hk & Hm & Hs & Hmiss)]].
  - exact (proj1 (Forall_forall _ _) HP _ Hin a p eq_refl Hp sc Hs Hmiss).
  - exact (mediaTypeFine_not_missing _ _ _ _ _ (HB rb Hrb Hr) Hin Hm Hs Hmiss).
  - pose proof (proj1 (Forall_forall _ _) HR _ Hin resp eq_refl) as HF.
    exact (mediaTypeFine_not_missing _ _ _ _ _ HF Hk Hm Hs Hmiss).
Qed.
End Checked.

(** ** Nested schemas after a completed walk *)

Section Nested.
Variable Errorf : string -> string.
Variable c : Components.t.
Hypothesis schemas_quiet : schemasQuiet c.

Lemma schemaQuiet_no_hit s s' : schemaQuiet s -> rtc (schemaHit c) s s' -> s' = s.
Proof.
  intros Hq Ht. destruct Ht as [|s y s' (sc & -> & Hne & _) _]; [done|].
  by specialize (Hq sc eq_refl).
Qed.

Lemma schemaResolved_of_hits s s' :
  rtc (schemaHit c) s s' -> schemaQuiet s' -> schemaResolved c s s'.
Proof.
  intros Ht Hq. destruct Ht as [s|s y s' (sc & -> & Hne & Hl) Hrest].
  - destruct s as [sc|]; [|done]. cbn. by rewrite decide_True by by apply Hq.
  - cbn. rewrite decide_False by done. rewrite Hl. f_equal. symmetry.
    apply schemaQuiet_no_hit; [|done]. by eapply schemas_quiet.
Qed.

Lemma paramChecked_resolves st st' slot :
  resolves c st st' -> paramChecked st slot -> paramChecked st' slot.
Proof.
  intros (_ & _ & P & _) Hq a ->. destruct (Hq a eq_refl) as (p & Hp & Hs).
  destruct (P a p Hp) as (s' & H' & E & _). rewrite (E Hs), with_Schema_same in H'.
  by exists p.
Qed.

Lemma endpointChecked_resolves st st' e :
  resolves c st st' -> endpointChecked st e -> endpointChecked st' e.
Proof.
  intros R (HP & HB & HR). split; [|split].
  - eapply Forall_impl; [exact HP|]. intros ?. by apply paramChecked_resolves.
  - intros rb Hb Hr. eapply (contentQuiet_resolves c); [done | by apply HB].
  - eapply Forall_impl; [exact HR|]. intros entry H resp Hresp.
    eapply (contentQuiet_resolves c); [done | by apply H].
Qed.

Lemma resolveParameter_checked st slot st' slot' :
  resolveParameter Errorf c st slot = (st', slot', Done) -> paramChecked st' slot.
Proof.
  unfold resolveParameter. destruct slot as [a|]; [|by intros _ a [=]].
  destruct (Store.parameters st !! a) as [p|] eqn:Ea; [|done].
  assert (forall slot1,
    (let '(s', o0) := resolveSchema Errorf c (Param.Schema p) in
     (Store.set_parameter a (Param.with_Schema s' p) st, slot1, o0)) = (st', slot', Done) ->
    paramChecked st' (Some a)) as Hwrite.
  { intros slot1. destruct (resolveSchema Errorf c (Param.Schema p)) as [s' o'] eqn:Er.
    intros [= <- _ ->] a' [= <-]. exists (Param.with_Schema s' p). split.
    - apply list_lookup_insert_eq. by eapply lookup_lt_Some.
    - by eapply resolveSchema_Done. }
  destruct (decide (Param.Ref p = "")); [apply Hwrite|].
  destruct (Components.Parameters c !! _) as [resolved|]; [apply Hwrite | done].
Qed.

Lemma resolveEndpoint_checked st e st' e' :
  resolveEndpoint Errorf c st e = (st', e', Done) -> endpointChecked st' e.
Proof.
  unfold resolveEndpoint.
  destruct (rangeUpdate _ st (Endpoint.Parameters e)) as [[st1 ps] o1] eqn:E1.
  destruct o1; try done.
  destruct (resolveRequestBody Errorf c st1 _) as [[st2 rb] o2] eqn:E2.
  destruct o2; try done.
  destruct (rangeUpdate _ st2 _) as [[st3 rs] o3] eqn:E3.
  intros [= <- _ ->]. cbn in E2, E3.
  pose proof (resolveRequestBody_resolves _ _ _ _ _ _ _ E2) as R2.
  pose proof (rangeUpdate_resolves c _ (resolveResponse_resolves Errorf c) _ _ _ _ _ E3) as R3.
  split; [|split].
  - eapply Forall_impl.
    + apply (Forall2_left_Forall _ _ ps). revert E1.
      apply (rangeUpdate_Done c (fun _ => True)
               (fun st4 (slot _ : option nat) => paramChecked st4 slot)); try done.
      * intros ? ? ? ?. apply paramChecked_resolves.
      * apply resolveParameter_resolves.
      * intros ? ? ? ? _. apply resolveParameter_checked.
    + intros slot. apply paramChecked_resolves. exact (resolves_trans c _ _ _ R2 R3).
  - intros body Hb Hr. revert E2. unfold resolveRequestBody. rewrite Hb.
    rewrite decide_True by done.
    destruct (rangeDo _ st1 _) as [st4 o4] eqn:E4. intros [= <- _ ->].
    eapply (contentQuiet_resolves c); [exact R3|]. by eapply content_Done.
  - apply (Forall2_left_Forall _ _ rs). revert E3.
    apply (rangeUpdate_Done c (fun _ => True)
             (fun st4 (entry _ : string * option Response.t) =>
                forall resp, entry.2 = Some resp ->
                  Forall (mediaTypeQuiet st4) (Response.Content resp))); try done.
    + intros st4 st5 entry _ R H resp Hresp.
      eapply (contentQuiet_resolves c); [exact R | by apply H].
    + apply resolveResponse_resolves.
    + intros st4 entry st5 entry' _. unfold resolveResponse.
      intros H resp Hresp. rewrite Hresp in H.
      destruct (decide (Response.Ref resp = "")).
      * destruct (rangeDo _ st4 _) as [st6 o6] eqn:E6. injection H as <- _ ->.
        by eapply content_Done.
      * destruct (Components.Responses c !! _); [|done].
        destruct (rangeDo _ st4 _) as [st6 o6] eqn:E6. injection H as <- _ ->.
        by eapply content_Done.
Qed.

Lemma endpoints_checked st eps st' eps' :
  rangeUpdate (resolveEndpoint Errorf c) st eps = (st', eps', Done) ->
  Forall (endpointChecked st') eps.
Proof.
  intros H. apply (Forall2_left_Forall _ _ eps'). revert H.
  apply (rangeUpdate_Done c (fun _ => True)
           (fun st4 (e _ : Endpoint.t) => endpointChecked st4 e)); try done.
  - intros ? ? ? ?. apply endpointChecked_resolves.
  - apply resolveEndpoint_resolves.
  - intros ? ? ? ? _. apply resolveEndpoint_checked.
Qed.

Lemma mediaType_resolved st st' (content : ContentMap) key m mt :
  resolves c st st' ->
  Forall (mediaTypeQuiet st') content ->
  (key, Some m) ∈ content ->
  Store.mediaTypes st !! m = Some mt ->
  exists mt', Store.mediaTypes st' !! m = Some mt'
              /\ schemaResolved c (MediaType.Schema mt) (MediaType.Schema mt').
Proof.
  intros (_ & _ & _ & M) HF Hin Hm.
  destruct (M m mt Hm) as (mt' & Hm' & _ & _ & Ht).
  exists mt'. split; [done|]. apply schemaResolved_of_hits; [done|].
  destruct (proj1 (Forall_forall _ _) HF _ Hin m eq_refl) as (mt2 & Hm2 & Hq).
  rewrite Hm' in Hm2. by injection Hm2 as ->.
Qed.

Lemma nestedResolved_of_checked st st' e :
  resolves c st st' -> endpointChecked st' e -> nestedResolved c st st' e.
Proof.
  intros R (HP & HB & HR). split; [|split].
  - intros a p Hin Hp _. pose proof R as (_ & _ & P & _).
    destruct (P a p Hp) as (s' & Hp' & _ & _ & Ht).
    exists s'. split; [done|]. apply schemaResolved_of_hits; [done|].
    destruct (proj1 (Forall_forall _ _) HP _ Hin a eq_refl) as (p2 & Hp2 & Hq).
    rewrite Hp' in Hp2. injection Hp2 as <-. exact Hq.
  - intros rb key m mt Hb Hr Hin Hm.
    by eapply mediaType_resolved; [| apply (HB rb Hb Hr) | |].
  - intros code resp key m mt Hin _ Hk Hm.
    pose proof (proj1 (Forall_forall _ _) HR _ Hin resp eq_refl) as HF.
    by eapply mediaType_resolved.
Qed.
End Nested.

(** ** Where a walk stops *)

Section Stops.
Variable Errorf : string -> string.
Variable c : Components.t.

Lemma resolveSchema_Failed_at s s' msg :
  resolveSchema Errorf c s = (s', Failed msg) ->
  exists sc, s = Some sc /\ s' = s
             /\ missing c SchemaRef (Schema.Ref sc)
             /\ msg = Errorf (missText SchemaRef (Schema.Ref sc)).
Proof.
  unfold resolveSchema. destruct s as [sc|]; [|done].
  destruct (decide (Schema.Ref sc = "")) as [|Hne]; [done|].
  destruct (Components.Schemas c !! _) as [resolved|] eqn:El; [done|].
  intros [= <- <-]. exists sc. split; [done|]. split; [done|]. split; [by split | done].
Qed.

Lemma resolveMediaType_Failed_at st entry st' msg :
  resolveMediaType Errorf c st entry = (st', Failed msg) ->
  st' = st
  /\ exists m mt sc, entry.2 = Some m
       /\ Store.mediaTypes st !! m = Some mt
       /\ MediaType.Schema mt = Some sc
       /\ missing c SchemaRef (Schema.Ref sc)
       /\ msg = Errorf (missText SchemaRef (Schema.Ref sc)).
Proof.
  unfold resolveMediaType. destruct entry.2 as [m|]; [|done].
  destruct (Store.mediaTypes st !! m) as [mt|] eqn:Em; [|done].
  destruct (MediaType.Schema mt) as [sc|] eqn:Es; [|done].
  destruct (resolveSchema Errorf c (Some sc)) as [s' o'] eqn:Er. intros [= <- ->].
  apply resolveSchema_Failed_at in Er as (sc' & [= <-] & -> & Hmiss & ->).
  split.
  - rewrite <- Es. by apply set_mediaType_same.
  - by exists m, mt, sc.
Qed.

Lemma content_Failed_at st (content : ContentMap) st' msg :
  rangeDo (resolveMediaType Errorf c) st content = (st', Failed msg) ->
  exists ref, contentCarries st' content ref
              /\ missing c SchemaRef ref /\ msg = Errorf (missText SchemaRef ref).
Proof.
  intros H. apply rangeDo_not_Done in H as ([key slot] & st1 & Hin & H); [|done].
  apply resolveMediaType_Failed_at in H as (-> & m & mt & sc & Hm & Hl & Hs & Hmiss & ->).
  cbn in Hm. subst slot. exists (Schema.Ref sc). split; [|done].
  by exists key, m, mt, sc.
Qed.

Lemma resolveParameter_Failed_at st slot st' slot' msg :
  resolveParameter Errorf c st slot = (st', slot', Failed msg) ->
  st' = st
  /\ exists a k ref, slot = Some a
       /\ paramCarries st a k ref
       /\ missing c k ref /\ msg = Errorf (missText k ref)
       /\ (k = ParameterRef -> slot' = Some a)
       /\ (k = SchemaRef -> paramSlotResolved c st (Some a) slot').
Proof.
  unfold resolveParameter. destruct slot as [a|]; [|done].
  destruct (Store.parameters st !! a) as [p|] eqn:Ea; [|done].
  assert (forall slot1,
    paramSlotResolved c st (Some a) slot1 ->
    (let '(s', o0) := resolveSchema Errorf c (Param.Schema p) in
     (Store.set_parameter a (Param.with_Schema s' p) st, slot1, o0))
      = (st', slot', Failed msg) ->
    st' = st
    /\ exists a0 k ref, Some a = Some a0
         /\ paramCarries st a0 k ref
         /\ missing c k ref /\ msg = Errorf (missText k ref)
         /\ (k = ParameterRef -> slot' = Some a0)
         /\ (k = SchemaRef -> paramSlotResolved c st (Some a0) slot')) as Hschema.
  { intros slot1 Hslot1.
    destruct (resolveSchema Errorf c (Param.Schema p)) as [s' o'] eqn:Er.
    intros [= <- <- ->].
    apply resolveSchema_Failed_at in Er as (sc & Hs & -> & Hmiss & ->).
    split; [by apply set_parameter_same|].
    exists a, SchemaRef, (Schema.Ref sc). split; [done|]. split.
    - exists p. split; [done|]. right. split; [done|]. by exists sc.
    - split; [done|]. split; [done|]. split; [done|]. by intros _. }
  destruct (decide (Param.Ref p = "")) as [Hr|Hr].
  - apply Hschema. exists p. split; [done|]. by rewrite decide_True.
  - destruct (Components.Parameters c !! _) as [resolved|] eqn:El.
    + apply Hschema. exists p. split; [done|]. by rewrite decide_False.
    + intros [= <- <- <-]. split; [done|].
      exists a, ParameterRef, (Param.Ref p). split; [done|]. split.
      * exists p. split; [done|]. by left.
      * split; [by split|]. split; [done|]. split; [done|]. by intros [=].
Qed.

Lemma resolveRequestBody_Failed_at st body st' body' msg :
  resolveRequestBody Errorf c st body = (st', body', Failed msg) ->
  exists rb k ref, body = Some rb
    /\ bodyCarries c st' rb k ref
    /\ missing c k ref /\ msg = Errorf (missText k ref)
    /\ (k = RequestBodyRef -> body' = body)
    /\ (k = SchemaRef -> bodyResolved c body body').
Proof.
  unfold resolveRequestBody. destruct body as [rb|]; [|done].
  destruct (decide (RequestBody.Ref rb = "")) as [Hr|Hr].
  - destruct (rangeDo _ st _) as [st1 o1] eqn:E. intros [= <- <- ->].
    apply content_Failed_at in E as (ref & Hc & Hmiss & ->).
    exists rb, SchemaRef, ref. split; [done|]. split.
    + right. split; [done|]. exists rb. split; [by left | done].
    + split; [done|]. split; [done|]. split; [by intros [=]|].
      intros _. cbn. by rewrite decide_True.
  - destruct (Components.RequestBodies c !! _) as [resolved|] eqn:El.
    + destruct resolved as [rb'|]; [|done].
      destruct (rangeDo _ st _) as [st1 o1] eqn:E. intros [= <- <- ->].
      apply content_Failed_at in E as (ref & Hc & Hmiss & ->).
      exists rb, SchemaRef, ref. split; [done|]. split.
      * right. split; [done|]. exists rb'. split; [by right | done].
      * split; [done|]. split; [done|]. split; [by intros [=]|].
        intros _. cbn. rewrite decide_False by done. split; [by eexists | done].
    + intros [= <- <- <-]. exists rb, RequestBodyRef, (RequestBody.Ref rb).
      split; [done|]. split; [by left|]. split; [by split|].
      split; [done|]. split; [done|]. by intros [=].
Qed.

Lemma resolveResponse_Failed_at st entry st' entry' msg :
  resolveResponse Errorf c st entry = (st', entry', Failed msg) ->
  exists resp k ref, entry.2 = Some resp
    /\ responseCarries st' resp k ref
    /\ missing c k ref /\ msg = Errorf (missText k ref)
    /\ (k = ResponseRef -> entry' = entry)
    /\ (k = SchemaRef -> responseResolved c entry entry').
Proof.
  unfold resolveResponse, responseResolved. destruct entry as [code [resp|]]; [|done].
  cbn [fst snd].
  destruct (decide (Response.Ref resp = "")) as [Hr|Hr].
  - destruct (rangeDo _ st _) as [st1 o1] eqn:E. intros [= <- <- ->].
    apply content_Failed_at in E as (ref & Hc & Hmiss & ->).
    exists resp, SchemaRef, ref. split; [done|]. split; [by right|].
    split; [done|]. split; [done|]. split; [by intros [=]|]. by intros _.
  - destruct (Components.Responses c !! _) as [resolved|] eqn:El.
    + destruct (rangeDo _ st _) as [st1 o1] eqn:E. intros [= <- <- ->].
      apply content_Failed_at in E as (ref & Hc & Hmiss & ->).
      exists resp, SchemaRef, ref. split; [done|]. split; [by right|].
      split; [done|]. split; [done|]. split; [by intros [=]|]. by intros _.
    + intros [= <- <- <-]. exists resp, ResponseRef, (Response.Ref resp).
      split; [done|]. split; [by left|]. split; [by split|].
      split; [done|]. split; [done|]. by intros [=].
Qed.

Lemma resolveEndpoint_stopped st e st' e' msg :
  resolveEndpoint Errorf c st e = (st', e', Failed msg) ->
  exists k ref, missing c k ref /\ msg = Errorf (missText k ref)
                /\ endpointStopped c st' st' e e' k ref.
Proof.
  unfold resolveEndpoint.
  destruct (rangeUpdate _ st (Endpoint.Parameters e)) as [[st1 ps] o1] eqn:E1.
  destruct o1; [| |done].
  - pose proof (parameters_Done _ _ _ _ _ _ E1) as HP.
    destruct (resolveRequestBody Errorf c st1 _) as [[st2 rb] o2] eqn:E2. cbn in E2.
    pose proof (resolveRequestBody_resolves _ _ _ _ _ _ _ E2) as R2.
    destruct o2; [| |done].
    + destruct (rangeUpdate _ st2 _) as [[st3 rs] o3] eqn:E3. cbn in E3.
      intros [= <- <- ->].
      pose proof (rangeUpdate_resolves c _ (resolveResponse_resolves Errorf c) _ _ _ _ _ E3)
        as R3.
      pose proof (resolveRequestBody_Done _ _ _ _ _ _ E2) as HB.
      apply rangeUpdate_not_Done in E3
        as (xs1 & [code r] & xs2 & st4 & xs1' & x' & Hxs & -> & Hpre & Hx); [|done].
      apply resolveResponse_Failed_at in Hx
        as (resp & k & ref & Hr & Hc & Hmiss & -> & Hk1 & Hk2).
      cbn in Hr. subst r. exists k, ref. split; [done|]. split; [done|].
      right. right. exists xs1, code, resp, xs2, xs1', x'. cbn.
      split; [|split; [done|]].
      { eapply Forall2_paramSlotResolved_resolves; [|exact HP].
        exact (resolves_trans c _ _ _ R2 R3). }
      split; [done|]. split; [done|]. split; [by eapply responses_Done|]. by split.
    + intros [= <- <- <-].
      apply resolveRequestBody_Failed_at in E2
        as (rb0 & k & ref & Hb & Hc & Hmiss & -> & Hk1 & Hk2).
      exists k, ref. split; [done|]. split; [done|].
      right. left. exists rb0. cbn.
      split; [by eapply Forall2_paramSlotResolved_resolves|].
      split; [done|]. split; [done|]. by rewrite Hb in *.
  - intros [= <- <- <-].
    apply rangeUpdate_not_Done in E1
      as (xs1 & x & xs2 & st4 & xs1' & x' & Hxs & -> & Hpre & Hx); [|done].
    apply resolveParameter_Failed_at in Hx
      as (-> & a & k & ref & -> & Hc & Hmiss & -> & Hk1 & Hk2).
    exists k, ref. split; [done|]. split; [done|].
    left. exists xs1, a, xs2, xs1', x'. cbn.
    split; [done|]. split; [done|]. split; [by eapply parameters_Done|]. by repeat split.
Qed.

Lemma endpointStopped_back st0 st1 st' e e' k ref :
  resolves c st0 st1 ->
  endpointStopped c st1 st' e e' k ref -> endpointStopped c st0 st' e e' k ref.
Proof.
  intros R [(xs1 & a & xs2 & xs1' & slot' & H1 & H2 & HF & Hc & Hk1 & Hk2 & HB & HR)
           |[(rb & HF & Hb & Hc & Hk1 & Hk2 & HR)
            |(xs1 & code & resp & xs2 & xs1' & entry' & HF & Hrest)]].
  - left. exists xs1, a, xs2, xs1', slot'.
    split; [done|]. split; [done|].
    split; [by eapply Forall2_paramSlotResolved_back|].
    split; [done|]. split; [done|]. split; [|done].
    intros Hk. by eapply paramSlotResolved_back; [|apply Hk2].
  - right. left. exists rb. split; [by eapply Forall2_paramSlotResolved_back | done].
  - right. right. exists xs1, code, resp, xs2, xs1', entry'.
    split; [by eapply Forall2_paramSlotResolved_back | done].
Qed.

Lemma endpointStopped_scannedAt st st' e e' k ref :
  endpointStopped c st st' e e' k ref -> scannedAt c st' e k ref.
Proof.
  intros [(xs1 & a & xs2 & xs1' & slot' & H1 & _ & _ & Hc & _)
         |[(rb & _ & Hb & Hc & _)
          |(xs1 & code & resp & xs2 & xs1' & entry' & _ & _ & H1 & _ & _ & Hc & _)]].
  - left. exists a. split; [|done]. rewrite H1. apply elem_of_app. right. by left.
  - right. left. by exists rb.
  - right. right. exists code, resp. split; [|done].
    rewrite H1. apply elem_of_app. right. by left.
Qed.

Lemma endpoints_stopped st eps st' eps' msg :
  rangeUpdate (resolveEndpoint Errorf c) st eps = (st', eps', Failed msg) ->
  exists pre ep post pre' ep' st1 k ref,
    eps = pre ++ ep :: post /\ eps' = pre' ++ ep' :: post
    /\ rangeUpdate (resolveEndpoint Errorf c) st pre = (st1, pre', Done)
    /\ resolves c st1 st'
    /\ missing c k ref /\ msg = Errorf (missText k ref)
    /\ endpointStopped c st st' ep ep' k ref.
Proof.
  intros H. pose proof (endpoints_resolves _ _ _ _ _ _ _ H) as R.
  apply rangeUpdate_not_Done in H
    as (pre & ep & post & st1 & pre' & ep' & -> & -> & Hpre & Hep); [|done].
  pose proof (resolveEndpoint_resolves _ _ _ _ _ _ _ Hep) as R1.
  apply resolveEndpoint_stopped in Hep as (k & ref & Hmiss & -> & Hstop).
  exists pre, ep, post, pre', ep', st1, k, ref.
  split; [done|]. split; [done|]. split; [done|]. split; [done|]. split; [done|].
  split; [done|]. by eapply endpointStopped_back.
Qed.

Lemma resolveEndpoint_bodyFine st0 st e st' e' :
  resolves c st0 st ->
  resolveEndpoint Errorf c st e = (st', e', Done) ->
  bodyFine c st0 e.
Proof.
  intros R0. unfold resolveEndpoint.
  destruct (rangeUpdate _ st (Endpoint.Parameters e)) as [[st1 ps] o1] eqn:E1.
  destruct o1; try done.
  destruct (resolveRequestBody Errorf c st1 _) as [[st2 rb] o2] eqn:E2.
  destruct o2; try done. intros _. cbn in E2.
  pose proof (rangeUpdate_resolves c _ (resolveParameter_resolves Errorf c) _ _ _ _ _ E1) as R1.
  pose proof (resolves_trans c _ _ _ R0 R1) as R01.
  intros body body' Hb Hscan. revert E2. unfold resolveRequestBody. rewrite Hb.
  destruct Hscan as [[Hr ->]|[Hr Hl]].
  - rewrite decide_True by done.
    destruct (rangeDo _ st1 _) as [st4 o4] eqn:E4. intros [= _ _ ->].
    exact (content_fine Errorf c st0 _ _ _ R01 E4).
  - rewrite decide_False by done. rewrite Hl.
    destruct (rangeDo _ st1 _) as [st4 o4] eqn:E4. intros [= _ _ ->].
    exact (content_fine Errorf c st0 _ _ _ R01 E4).
Qed.

Lemma endpoints_bodyFine st0 eps st' eps' :
  rangeUpdate (resolveEndpoint Errorf c) st0 eps = (st', eps', Done) ->
  Forall (bodyFine c st0) eps.
Proof.
  intros H. apply (Forall2_left_Forall _ eps eps'). revert H.
  apply (rangeUpdate_Done c (resolves c st0)
           (fun _ (e _ : Endpoint.t) => bodyFine c st0 e)); try done.
  - apply resolves_trans.
  - apply resolveEndpoint_resolves.
  - intros ? ? ? ?. apply resolveEndpoint_bodyFine.
  - apply resolves_refl.
Qed.

(** An endpoint whose processing succeeded carries no miss. *)
Lemma resolved_fine_no_miss st e e' :
  endpointResolved c st e e' -> endpointFine c st e -> bodyFine c st e ->
  ~ endpointMisses c st e.
Proof.
  intros Hres (FP & FB & FR) Fbody (k & ref & Hscan & Hmiss).
  destruct Hscan as [(a & Hin & p & Hp & Hk)
                    |[(rb & Hb & Hk)|(code & resp & Hin & Hk)]].
  - destruct Hk as [[-> <-]|(-> & sc & Hs & <-)].
    + apply (directMiss_not_resolved c st e e'); [|done]. left. by exists a, p.
    + exact (proj1 (Forall_forall _ _) FP _ Hin a p eq_refl Hp sc Hs Hmiss).
  - destruct Hk as [[-> <-]|(-> & rb' & Hscan & key & m & mt & sc & Hin & Hm & Hs & <-)].
    + apply (directMiss_not_resolved c st e e'); [|done]. right. left. by exists rb.
    + exact (mediaTypeFine_not_missing c st _ _ _ _ _ (Fbody rb rb' Hb Hscan) Hin Hm Hs Hmiss).
  - destruct Hk as [[-> <-]|(-> & key & m & mt & sc & Hk & Hm & Hs & <-)].
    + apply (directMiss_not_resolved c st e e'); [|done]. right. right. by exists code, resp.
    + pose proof (proj1 (Forall_forall _ _) FR _ Hin resp eq_refl) as HF.
      exact (mediaTypeFine_not_missing c st _ _ _ _ _ HF Hk Hm Hs Hmiss).
Qed.

Lemma walked_no_miss st eps st' eps' :
  rangeUpdate (resolveEndpoint Errorf c) st eps = (st', eps', Done) ->
  Forall (fun e => ~ endpointMisses c st e) eps.
Proof.
  intros H. pose proof (endpoints_resolves _ _ _ _ _ _ _ H) as R.
  pose proof (endpoints_Done _ _ _ _ _ _ H) as HD.
  pose proof (endpoints_fine _ _ _ _ _ _ H) as HF.
  pose proof (endpoints_bodyFine _ _ _ _ H) as HB.
  apply Forall_forall. intros e Hin.
  pose proof Hin as Hin2. apply list_elem_of_lookup in Hin2 as [i Hi].
  destruct (Forall2_lookup_l _ _ _ _ _ HD Hi) as (e' & _ & Hres).
  apply (resolved_fine_no_miss st e e').
  - by eapply endpointResolved_back.
  - exact (proj1 (Forall_forall _ _) HF e Hin).
  - exact (proj1 (Forall_forall _ _) HB e Hin).
Qed.
End Stops.

Lemma with_Endpoints_same (doc : APIDocument.t) :
  APIDocument.with_Endpoints (APIDocument.Endpoints doc) doc = doc.
Proof. by destruct doc. Qed.

Lemma verbFree_append (a b : string) :
  verbFree (a +:+ b) = verbFree a && verbFree b.
Proof.
  induction a as [|x a IH]; [done|].
  rewrite append_cons. cbn [verbFree]. by rewrite IH, andb_assoc.
Qed.

Lemma verbFree_missText (k : refKind) (ref : string) :
  verbFree ref = true -> verbFree (missText k ref) = true.
Proof.
  intros H. unfold missText. rewrite !verbFree_append, H. by destruct k.
Qed.

(** ** Wholesale replacement and a second call *)

(** C3, as the resolver has it: when ResolveReferences succeeds, every
    parameter slot, request body and response entry that carried a
    descriptor holds exactly the entry of the component table the
    descriptor names (the entry itself, nothing merged into it), the other
    slots and fields of the document being as before.  When the component
    schemas carry no descriptor, the schema pointers below the slots that
    stay hold the table entry as well.  A second call on the result changes
    nothing, neither document nor store, provided the components carry no
    descriptor of their own. *)
Theorem resolution_wholesale_then_stable
    (Errorf : string -> string) (c : Components.t)
    (st st' : Store.t) (doc doc' : APIDocument.t) :
  APIDocument.Components doc = Some c ->
  ResolveReferences Errorf st doc = (st', doc', Done) ->
  doc' = APIDocument.with_Endpoints (APIDocument.Endpoints doc') doc
  /\ Forall2 (endpointResolved c st) (APIDocument.Endpoints doc) (APIDocument.Endpoints doc')
  /\ (schemasQuiet c -> Forall (nestedResolved c st st') (APIDocument.Endpoints doc))
  /\ (componentsQuiet c st -> ResolveReferences Errorf st' doc' = (st', doc', Done)).
Proof.
  intros Hc. unfold ResolveReferences at 1. rewrite Hc.
  destruct (rangeUpdate _ st _) as [[st1 eps] o] eqn:E. intros [= <- <- ->].
  pose proof (endpoints_resolves _ _ _ _ _ _ _ E) as R.
  split; [done|]. split; [|split].
  - eapply Forall2_impl; [exact (endpoints_Done _ _ _ _ _ _ E)|].
    intros e e'. by apply endpointResolved_back.
  - intros HS. eapply Forall_impl; [exact (endpoints_checked Errorf c HS _ _ _ _ E)|].
    intros e. by apply nestedResolved_of_checked.
  - intros HC. unfold ResolveReferences. cbn. rewrite Hc.
    rewrite endpoints_noop by (by eapply endpoints_quiet). done.
Qed.

Lemma catalogComponents_quiet : componentsQuiet catalogComponents catalogStore.
Proof.
  unfold componentsQuiet, schemasQuiet, catalogComponents.
  cbn [Components.Schemas Components.Parameters Components.RequestBodies
       Components.Responses].
  split; [|split; [|split]].
  - intros name s H. apply lookup_singleton_Some in H as [_ <-]. by intros sc [= <-].
  - intros name slot H. apply lookup_singleton_Some in H as [_ <-].
    intros a [= <-]. exists pageParam. by repeat split.
  - intros name body H. by rewrite lookup_empty in H.
  - intros name resp H. apply lookup_singleton_Some in H as [_ <-].
    intros r [= <-]. split; [done | constructor].
Qed.

Lemma resolution_wholesale_then_stable_witness :
  ResolveReferences (fun s => s) catalogStore catalogDoc
    = (catalogStoreAfter, catalogDocAfter, Done)
  /\ Forall2 (endpointResolved catalogComponents catalogStore)
       (APIDocument.Endpoints catalogDoc) (APIDocument.Endpoints catalogDocAfter)
  /\ Forall (nestedResolved catalogComponents catalogStore catalogStoreAfter)
       (APIDocument.Endpoints catalogDoc)
  /\ ResolveReferences (fun s => s) catalogStoreAfter catalogDocAfter
     = (catalogStoreAfter, catalogDocAfter, Done).
Proof.
  assert (ResolveReferences (fun s => s) catalogStore catalogDoc
          = (catalogStoreAfter, catalogDocAfter, Done)) as Hfirst by reflexivity.
  destruct (resolution_wholesale_then_stable (fun s => s) catalogComponents
              catalogStore catalogStoreAfter catalogDoc catalogDocAfter eq_refl Hfirst)
    as (_ & Hwhole & Hnested & Hagain).
  pose proof catalogComponents_quiet as HC.
  split; [exact Hfirst|]. split; [exact Hwhole|]. split.
  - exact (Hnested (proj1 HC)).
  - exact (Hagain HC).
Defined.

(** C3, as the claim words it, fails: in [chainDoc] every descriptor names
    a component that is present, the first call puts component [P] in the
    slot, and the second call, finding the descriptor [P] itself carries,
    replaces the slot again, by component [Q]. *)
Lemma second_call_resolves_again :
  Components.Parameters chainComponents !! "P" = Some (Some 1)
  /\ Components.Parameters chainComponents !! "Q" = Some (Some 2)
  /\ ResolveReferences (fun s => s) chainStore chainDoc = (chainStore, chainDocOnce, Done)
  /\ ResolveReferences (fun s => s) chainStore chainDocOnce
     = (chainStore, chainDocTwice, Done)
  /\ APIDocument.Endpoints chainDocTwice <> APIDocument.Endpoints chainDocOnce.
Proof. repeat split; try reflexivity. discriminate. Qed.

(** ** Failure *)

(** C10: when ResolveReferences returns an error, the document it leaves is
    the one it was walking, and nothing is put back.  The error names a
    descriptor that the endpoint where the walk stopped carries; every
    endpoint before that one carries no miss and is fully resolved (each
    slot that carried a descriptor holds the table entry, and, when the
    component schemas carry no descriptor, the schemas below the slots that
    stay hold the table entry as well); the endpoint where the walk stopped
    is resolved up to the slot that carries the miss; the endpoints after
    it are untouched. *)
Theorem failure_keeps_partial_resolution
    (Errorf : string -> string) (c : Components.t)
    (st st' : Store.t) (doc doc' : APIDocument.t) (msg : string) :
  APIDocument.Components doc = Some c ->
  ResolveReferences Errorf st doc = (st', doc', Failed msg) ->
  exists pre ep post pre' ep' k ref,
    APIDocument.Endpoints doc = pre ++ ep :: post
    /\ doc' = APIDocument.with_Endpoints (pre' ++ ep' :: post) doc
    /\ missing c k ref
    /\ msg = Errorf (missText k ref)
    /\ endpointStopped c st st' ep ep' k ref
    /\ Forall (fun e => ~ endpointMisses c st e) pre
    /\ Forall2 (endpointResolved c st) pre pre'
    /\ resolves c st st'
    /\ (schemasQuiet c -> Forall (nestedResolved c st st') pre).
Proof.
  intros Hc. unfold ResolveReferences. rewrite Hc.
  destruct (rangeUpdate _ st _) as [[st1 eps] o] eqn:E. intros [= <- <- ->].
  pose proof (endpoints_resolves _ _ _ _ _ _ _ E) as R.
  apply endpoints_stopped in E
    as (pre & ep & post & pre' & ep' & st0 & k & ref
        & Hdoc & -> & Hpre & R1 & Hmiss & -> & Hstop).
  pose proof (endpoints_resolves _ _ _ _ _ _ _ Hpre) as R0.
  exists pre, ep, post, pre', ep', k, ref.
  split; [done|]. split; [done|]. split; [done|]. split; [done|]. split; [done|].
  split; [by eapply walked_no_miss|]. split; [|split; [done|]].
  - eapply Forall2_impl; [exact (endpoints_Done _ _ _ _ _ _ Hpre)|].
    intros e e'. by apply endpointResolved_back.
  - intros HS. eapply Forall_impl; [exact (endpoints_checked Errorf c HS _ _ _ _ Hpre)|].
    intros e He. apply nestedResolved_of_checked; [done | done |].
    exact (endpointChecked_resolves c _ _ _ R1 He).
Qed.

Lemma failure_keeps_partial_resolution_witness :
  ResolveReferences (fun s => s) pageStore brokenDoc
    = (pageStore, brokenDocAfter,
       Failed "unresolved parameter reference: #/components/parameters/Nope")
  /\ APIDocument.Endpoints brokenDocAfter <> APIDocument.Endpoints brokenDoc
  /\ exists pre ep post pre' ep' k ref,
       APIDocument.Endpoints brokenDoc = pre ++ ep :: post
       /\ brokenDocAfter = APIDocument.with_Endpoints (pre' ++ ep' :: post) brokenDoc
       /\ missing pageComponents k ref
       /\ "unresolved parameter reference: #/components/parameters/Nope" = missText k ref
       /\ endpointStopped pageComponents pageStore pageStore ep ep' k ref
       /\ Forall (fun e => ~ endpointMisses pageComponents pageStore e) pre
       /\ Forall2 (endpointResolved pageComponents pageStore) pre pre'
       /\ resolves pageComponents pageStore pageStore
       /\ (schemasQuiet pageComponents ->
           Forall (nestedResolved pageComponents pageStore pageStore) pre).
Proof.
  split; [reflexivity|]. split; [discriminate|].
  exact (failure_keeps_partial_resolution (fun s => s) pageComponents pageStore pageStore
           brokenDoc brokenDocAfter _ eq_refl eq_refl).
Defined.

(** ** The first miss *)

Section FirstMiss.
Variable Errorf : string -> string.
(** [fmt] copies a format without [%] as it stands. *)
Hypothesis Errorf_plain : forall s, verbFree s = true -> Errorf s = s.

End FirstMiss.



(** ** Descriptor syntax *)




(** * Further properties of the package *)

(** ** [snippet] *)

Lemma substring_0_prefix (n : nat) (s : string) :
  exists rest, s = String.substring 0 n s +:+ rest.
Proof.
  revert s. induction n as [|n IH]; intros s.
  - exists s. by destruct s.
  - destruct s as [|b s]; [by exists ""|].
    destruct (IH s) as [rest Hrest]. exists rest. cbn [String.substring].
    by rewrite append_cons, <- Hrest.
Qed.

(** [snippet] returns [data] whole when it has at most [n] bytes, and
    otherwise its first [n] bytes followed by three dots, so never more
    than [n + 3] bytes; with a negative [n] it panics, whatever [data]. *)
Theorem snippet_bounded (data : string) (n : Z) :
  ((0 <= n)%Z ->
     exists s, snippet data n = Some s
               /\ (Z.of_nat (String.length s) <= n + 3)%Z
               /\ ((Z.of_nat (String.length data) <= n)%Z -> s = data)
               /\ ((n < Z.of_nat (String.length data))%Z ->
                   exists rest,
                     s = String.substring 0 (Z.to_nat n) data +:+ "..."
                     /\ data = String.substring 0 (Z.to_nat n) data +:+ rest
                     /\ String.length s = Z.to_nat n + 3))
  /\ ((n < 0)%Z -> snippet data n = None).
Proof.
  unfold snippet. split.
  - intros Hn. destruct (Z.leb_spec (Z.of_nat (String.length data)) n) as [Hle|Hgt].
    + exists data. split; [done|]. split; [lia|]. split; [done | lia].
    + destruct (Z.ltb_spec n 0) as [|_]; [lia|].
      eexists. split; [done|].
      assert (String.length (String.substring 0 (Z.to_nat n) data +:+ "...") = Z.to_nat n + 3)
        as Hlen by (rewrite length_append, length_substring_0 by lia; done).
      split; [lia|]. split; [lia|]. intros _.
      destruct (substring_0_prefix (Z.to_nat n) data) as [rest Hrest].
      by exists rest.
  - intros Hn. destruct (Z.leb_spec (Z.of_nat (String.length data)) n) as [|_]; [lia|].
    by destruct (Z.ltb_spec n 0) as [_|]; [|lia].
Qed.

(** ** The length of a printed description *)

Lemma endpointDesc_at_most_20000 (description : string) :
  (Z.of_nat (String.length (endpointDesc description)) <= 20000)%Z.
Proof.
  unfold endpointDesc.
  destruct (Z.ltb_spec 20000 (Z.of_nat (String.length (minifyText description))))
    as [Hlong|Hshort]; [|done].
  rewrite length_append, length_substring_0 by lia.
  change (String.length "...") with 3. lia.
Qed.

(** In the text [RenderText] returns, the description printed for an
    endpoint, between [DESCRIPTION: ] and the end of its line, never has
    more than 20000 bytes. *)
Theorem RenderText_description_at_most_20000
    (ToUpper : string -> string) (st : Store.t) (doc : APIDocument.t)
    (pre post : list Endpoint.t) (ep : Endpoint.t) (text : string) :
  APIDocument.Endpoints doc = pre ++ ep :: post ->
  RenderText ToUpper st doc = Some text ->
  exists before d tail,
    RenderText ToUpper st (APIDocument.with_Endpoints pre doc) = Some before
    /\ text
       = before
         +:+ ("ENDPOINT: " +:+ ToUpper (Endpoint.Method ep) +:+ " " +:+ Endpoint.Path ep +:+ nl
              +:+ "SUMMARY: " +:+ Endpoint.Summary ep +:+ nl)
         +:+ "DESCRIPTION: " +:+ d +:+ nl +:+ "PARAMETERS:" +:+ nl +:+ tail
    /\ (Z.of_nat (String.length d) <= 20000)%Z.
Proof.
  intros Hdoc Htext.
  destruct (RenderText_description_line _ _ _ _ _ _ _ Hdoc Htext) as (before & tail & Hb & ->).
  exists before. eexists. exists tail. split; [exact Hb|]. split; [reflexivity|].
  destruct (decide _) as [_|_]; [done | apply endpointDesc_at_most_20000].
Qed.

Lemma RenderText_description_at_most_20000_witness :
  exists before d tail,
    RenderText upperASCII catalogStoreAfter (APIDocument.with_Endpoints [] catalogDocAfter)
    = Some before
    /\ default "" (RenderText upperASCII catalogStoreAfter catalogDocAfter)
       = before
         +:+ ("ENDPOINT: " +:+ upperASCII "get" +:+ " " +:+ "/a" +:+ nl
              +:+ "SUMMARY: " +:+ "" +:+ nl)
         +:+ "DESCRIPTION: " +:+ d +:+ nl +:+ "PARAMETERS:" +:+ nl +:+ tail
    /\ (Z.of_nat (String.length d) <= 20000)%Z.
Proof.
  exact (RenderText_description_at_most_20000 upperASCII catalogStoreAfter catalogDocAfter
           [] []
           (Endpoint.mk "/a" "get" "" "" [Some 1; Some 2] (Some catalogBody)
              [("200", Some okResponse)])
           (default "" (RenderText upperASCII catalogStoreAfter catalogDocAfter))
           eq_refl eq_refl).
Defined.

(** ** When [RenderText] returns *)

Ltac some_or_none :=
  repeat match goal with
         | |- _ <-> _ => split
         | |- _ -> _ => intro
         | H : _ /\ _ |- _ => destruct H
         | H : is_Some None |- _ => by destruct H
         | |- _ /\ _ => split
         | |- is_Some (Some _) => by eexists
         end.

Lemma renderAll_is_Some {A : Type} (line : A -> option string) (xs : list A) :
  is_Some (renderAll line xs) <-> Forall (fun x => is_Some (line x)) xs.
Proof.
  induction xs as [|x rest IH]; cbn [renderAll].
  - split; [constructor | by eexists].
  - rewrite Forall_cons, <- IH. destruct (line x) as [l|]; cbn.
    + destruct (renderAll line rest) as [r|]; cbn; some_or_none.
    + some_or_none.
Qed.

Lemma renderParameter_is_Some (st : Store.t) (slot : option ptr) :
  is_Some (renderParameter st slot) <-> slotRenderable st slot.
Proof.
  unfold renderParameter, slotRenderable. destruct slot as [a|]; cbn.
  - destruct (Store.parameters st !! a) as [p|] eqn:E; cbn.
    + split; [intros _; exists a; rewrite E; by split; [|eexists] | by eexists].
    + split; [by intros [? ?] | intros (a' & [= <-] & H)].
      rewrite E in H. by destruct H.
  - split; [by intros [? ?] | by intros (a & ? & _)].
Qed.

Lemma renderResponse_is_Some (entry : string * option Response.t) :
  is_Some (renderResponse entry) <-> is_Some entry.2.
Proof. unfold renderResponse. destruct entry.2 as [r|]; cbn; some_or_none. Qed.

Section RenderReturns.
Variable ToUpper : string -> string.

Lemma renderEndpoint_is_Some (st : Store.t) (e : Endpoint.t) :
  is_Some (renderEndpoint ToUpper st e) <-> endpointRenderable st e.
Proof.
  unfold renderEndpoint, endpointRenderable.
  rewrite <- (Forall_proper _ _ (fun slot => renderParameter_is_Some st slot) _ _ eq_refl).
  rewrite <- (Forall_proper _ _ (fun entry => renderResponse_is_Some entry) _ _ eq_refl).
  rewrite <- !renderAll_is_Some.
  destruct (Endpoint.Parameters e) as [|slot ps];
    destruct (Endpoint.Responses e) as [|entry rs]; lazy beta iota.
  - cbn. some_or_none.
  - destruct (renderAll renderResponse (entry :: rs)); cbn; some_or_none.
  - destruct (renderAll (renderParameter st) (slot :: ps)); cbn; some_or_none.
  - destruct (renderAll (renderParameter st) (slot :: ps)); cbn -[renderAll];
      [|some_or_none].
    destruct (renderAll renderResponse (entry :: rs)); cbn; some_or_none.
Qed.

Lemma RenderText_is_Some (st : Store.t) (doc : APIDocument.t) :
  is_Some (RenderText ToUpper st doc)
  <-> Forall (endpointRenderable st) (APIDocument.Endpoints doc).
Proof.
  unfold RenderText.
  rewrite <- (Forall_proper _ _ (fun e => renderEndpoint_is_Some st e) _ _ eq_refl).
  rewrite <- renderAll_is_Some.
  destruct (renderAll (renderEndpoint ToUpper st) (APIDocument.Endpoints doc)); cbn;
    some_or_none.
Qed.

(** [RenderText] returns a text exactly when no parameter slot and no
    response entry of any endpoint is nil (and every slot points at an
    object); otherwise it panics.  Title, servers, components and request
    bodies never make it panic. *)
Theorem RenderText_returns_iff (st : Store.t) (doc : APIDocument.t) :
  is_Some (RenderText ToUpper st doc)
  <-> Forall (endpointRenderable st) (APIDocument.Endpoints doc).
Proof. apply RenderText_is_Some. Qed.
End RenderReturns.

(** ** The objects the converter allocates *)

Lemma convertParameters_exact (params : list Param.t) (st : Store.t) :
  Store.parameters (convertParameters st params).1 = Store.parameters st ++ params
  /\ Store.mediaTypes (convertParameters st params).1 = Store.mediaTypes st
  /\ (convertParameters st params).2
     = Some <$> seq (length (Store.parameters st)) (length params).
Proof.
  revert st. induction params as [|p rest IH]; intros st.
  - cbn. by rewrite app_nil_r.
  - cbn [convertParameters]. unfold Store.new_parameter.
    specialize (IH (Store.mk (Store.parameters st ++ [p]) (Store.mediaTypes st))).
    destruct (convertParameters _ rest) as [st2 result].
    cbn [fst snd Store.parameters Store.mediaTypes] in *.
    destruct IH as (-> & -> & ->). rewrite <- app_assoc, length_app. cbn.
    repeat split. by rewrite Nat.add_1_r.
Qed.

(** The accumulator of the conversion against the triples converted so
    far: the store has grown by their parameters, in order, and the slots
    of the endpoints point at them, in order. *)
Lemma appendOperation_exact path m item acc ts (st0 : Store.t) :
  let copied (us : list (string * HTTPMethod * Operation.t)) :=
    flat_map (fun t => Operation.Parameters t.2) us in
  Store.parameters acc.1 = Store.parameters st0 ++ copied ts ->
  Store.mediaTypes acc.1 = Store.mediaTypes st0 ->
  flat_map Endpoint.Parameters acc.2
    = Some <$> seq (length (Store.parameters st0)) (length (copied ts)) ->
  let acc' := appendOperation path (methodName m) (operationOf item m) acc in
  let ts' := ts ++ match operationOf item m with Some op => [(path, m, op)] | None => [] end in
  Store.parameters acc'.1 = Store.parameters st0 ++ copied ts'
  /\ Store.mediaTypes acc'.1 = Store.mediaTypes st0
  /\ flat_map Endpoint.Parameters acc'.2
     = Some <$> seq (length (Store.parameters st0)) (length (copied ts')).
Proof.
  intros copied HP HM HS. unfold appendOperation.
  destruct (operationOf item m) as [op|]; cbn zeta; [|by rewrite app_nil_r].
  unfold createEndpointFromOperation.
  pose proof (convertParameters_exact (Operation.Parameters op) acc.1) as (EP & EM & ES).
  destruct (convertParameters acc.1 (Operation.Parameters op)) as [st' params].
  cbn [fst snd] in *. subst copied. cbn beta in *.
  rewrite !flat_map_app. cbn [flat_map Endpoint.Parameters fst snd].
  rewrite !app_nil_r, EP, HP, EM, HM, HS, ES, <- app_assoc, !length_app.
  repeat split. rewrite seq_app, fmap_app. by rewrite HP, length_app.
Qed.

Lemma convertPathItem_exact acc entry ts (st0 : Store.t) :
  let copied (us : list (string * HTTPMethod * Operation.t)) :=
    flat_map (fun t => Operation.Parameters t.2) us in
  Store.parameters acc.1 = Store.parameters st0 ++ copied ts ->
  Store.mediaTypes acc.1 = Store.mediaTypes st0 ->
  flat_map Endpoint.Parameters acc.2
    = Some <$> seq (length (Store.parameters st0)) (length (copied ts)) ->
  Store.parameters (convertPathItem acc entry).1
    = Store.parameters st0 ++ copied (ts ++ operationsOf entry)
  /\ Store.mediaTypes (convertPathItem acc entry).1 = Store.mediaTypes st0
  /\ flat_map Endpoint.Parameters (convertPathItem acc entry).2
     = Some <$> seq (length (Store.parameters st0))
                    (length (copied (ts ++ operationsOf entry))).
Proof.
  intros copied P0 M0 S0. destruct entry as [path item].
  unfold convertPathItem, operationsOf. cbn [fst snd flat_map testOrder].
  pose proof (appendOperation_exact path GET item _ _ st0 P0 M0 S0) as (P1 & M1 & S1).
  pose proof (appendOperation_exact path POST item _ _ st0 P1 M1 S1) as (P2 & M2 & S2).
  pose proof (appendOperation_exact path PUT item _ _ st0 P2 M2 S2) as (P3 & M3 & S3).
  pose proof (appendOperation_exact path DELETE item _ _ st0 P3 M3 S3) as (P4 & M4 & S4).
  pose proof (appendOperation_exact path PATCH item _ _ st0 P4 M4 S4) as (P5 & M5 & S5).
  pose proof (appendOperation_exact path HEAD item _ _ st0 P5 M5 S5) as (P6 & M6 & S6).
  pose proof (appendOperation_exact path OPTIONS item _ _ st0 P6 M6 S6) as (P7 & M7 & S7).
  rewrite app_nil_r, !app_assoc. by repeat split.
Qed.

Lemma convertPaths_exact paths acc ts (st0 : Store.t) :
  let copied (us : list (string * HTTPMethod * Operation.t)) :=
    flat_map (fun t => Operation.Parameters t.2) us in
  Store.parameters acc.1 = Store.parameters st0 ++ copied ts ->
  Store.mediaTypes acc.1 = Store.mediaTypes st0 ->
  flat_map Endpoint.Parameters acc.2
    = Some <$> seq (length (Store.parameters st0)) (length (copied ts)) ->
  Store.parameters (fold_left convertPathItem paths acc).1
    = Store.parameters st0 ++ copied (ts ++ flat_map operationsOf paths)
  /\ Store.mediaTypes (fold_left convertPathItem paths acc).1 = Store.mediaTypes st0
  /\ flat_map Endpoint.Parameters (fold_left convertPathItem paths acc).2
     = Some <$> seq (length (Store.parameters st0))
                    (length (copied (ts ++ flat_map operationsOf paths))).
Proof.
  intros copied. revert acc ts. induction paths as [|entry paths IH]; intros acc ts P0 M0 S0.
  - cbn. by rewrite app_nil_r.
  - cbn [fold_left flat_map]. rewrite app_assoc.
    destruct (convertPathItem_exact acc entry ts st0 P0 M0 S0) as (P1 & M1 & S1).
    by apply IH.
Qed.

(** Every parameter of every declared operation is copied into an object of
    its own: the converter appends the parameters of the operations, in the
    order it converts them, to the objects already there, touches none of
    those, allocates no media type, and the parameter slots of the
    endpoints, read in order, point at the new objects one after the other;
    so no two slots of the document share an object. *)
Theorem convert_copies_each_parameter (st : Store.t) (sw : SwaggerSpec.t) :
  let st' := (convertSwaggerToAPIDocument st sw).1 in
  let doc := (convertSwaggerToAPIDocument st sw).2 in
  let copied :=
    flat_map (fun t : string * HTTPMethod * Operation.t => Operation.Parameters t.2)
      (flat_map operationsOf (SwaggerSpec.Paths sw)) in
  Store.parameters st' = Store.parameters st ++ copied
  /\ Store.mediaTypes st' = Store.mediaTypes st
  /\ flat_map Endpoint.Parameters (APIDocument.Endpoints doc)
     = Some <$> seq (length (Store.parameters st)) (length copied)
  /\ NoDup (flat_map Endpoint.Parameters (APIDocument.Endpoints doc)).
Proof.
  unfold convertSwaggerToAPIDocument.
  pose proof (convertPaths_exact (SwaggerSpec.Paths sw) (st, []) [] st) as H.
  cbn zeta in H. cbn [fst snd flat_map app length] in H.
  rewrite app_nil_r in H. specialize (H eq_refl eq_refl eq_refl).
  destruct (fold_left convertPathItem (SwaggerSpec.Paths sw) (st, [])) as [st1 eps].
  cbn [fst snd APIDocument.Endpoints] in *. destruct H as (HP & HM & HS).
  split; [done|]. split; [done|]. split; [done|].
  rewrite HS. apply (NoDup_fmap_2 Some). apply NoDup_seq.
Qed.

(** ** What resolution leaves alone *)

(** A document none of whose slots carries a descriptor, neither directly
    nor in a nested schema, is returned as it is, with no object written,
    whatever the components hold. *)
Theorem ResolveReferences_leaves_plain_document
    (Errorf : string -> string) (st : Store.t) (doc : APIDocument.t) :
  Forall (endpointQuiet st) (APIDocument.Endpoints doc) ->
  ResolveReferences Errorf st doc = (st, doc, Done).
Proof.
  intros H. unfold ResolveReferences. destruct (APIDocument.Components doc) as [c|]; [|done].
  rewrite (endpoints_noop Errorf c st _ H). by rewrite with_Endpoints_same.
Qed.

Lemma ResolveReferences_leaves_plain_document_witness :
  ResolveReferences (fun s => s) catalogStoreAfter catalogDocAfter
  = (catalogStoreAfter, catalogDocAfter, Done).
Proof.
  apply (ResolveReferences_leaves_plain_document (fun s => s) catalogStoreAfter catalogDocAfter).
  constructor; [|constructor]. split; [|split].
  - constructor; [|constructor; [|constructor]].
    + intros a [= <-]. exists pageParam. by repeat split.
    + intros a [= <-]. eexists. split; [reflexivity|]. split; [done|]. by intros sc [= <-].
  - intros rb [= <-]. split; [done|]. constructor; [|constructor].
    intros m [= <-]. eexists. split; [reflexivity|]. by intros sc [= <-].
  - constructor; [|constructor]. intros r [= <-]. split; [done | constructor].
Defined.

Lemma rangeUpdate_related {A : Type} (Q : A -> A -> Prop)
    (body : Store.t -> A -> Store.t * A * outcome) :
  (forall x, Q x x) ->
  (forall st x st' x' o, body st x = (st', x', o) -> Q x x') ->
  forall xs st st' xs' o, rangeUpdate body st xs = (st', xs', o) -> Forall2 Q xs xs'.
Proof.
  intros Hrefl Hstep. induction xs as [|x rest IH]; intros st st' xs' o H.
  - injection H as <- <- <-. constructor.
  - cbn [rangeUpdate] in H. destruct (body st x) as [[st1 x'] o1] eqn:Ex.
    pose proof (Hstep _ _ _ _ _ Ex) as Hx.
    assert (Forall2 Q rest rest) as Hrest by (by apply Forall_Forall2_diag, Forall_forall).
    destruct o1; try (injection H as <- <- <-; by constructor).
    destruct (rangeUpdate body st1 rest) as [[st2 rest'] o2] eqn:E.
    injection H as <- <- <-. constructor; [done | by eapply IH].
Qed.

Lemma resolves_sameObjects (c : Components.t) (st st' : Store.t) :
  resolves c st st' -> sameObjects st st'.
Proof.
  intros (HL & HM & HP & _). split; [|done].
  apply Forall2_same_length_lookup_2; [done|].
  intros a p p' H1 H2. destruct (HP _ _ H1) as (s' & H & _).
  rewrite H in H2. injection H2 as <-. by exists s'.
Qed.

Section Frame.
Variable Errorf : string -> string.
Variable c : Components.t.

Lemma resolveParameter_nil st slot st' slot' o :
  resolveParameter Errorf c st slot = (st', slot', o) -> slot = None -> slot' = None.
Proof. intros H ->. by injection H as <- <- <-. Qed.

Lemma resolveResponse_key st entry st' entry' o :
  resolveResponse Errorf c st entry = (st', entry', o) ->
  entry'.1 = entry.1 /\ (entry.2 = None -> entry'.2 = None).
Proof.
  unfold resolveResponse. destruct entry as [code [resp|]]; cbn [fst snd].
  - destruct (decide (Response.Ref resp = "")) as [|_].
    + destruct (rangeDo _ st _) as [st1 o1]. by intros [= <- <- <-].
    + destruct (Components.Responses c !! _) as [resolved|].
      * destruct (rangeDo _ st _) as [st1 o1]. by intros [= <- <- <-].
      * by intros [= <- <- <-].
  - by intros [= <- <- <-].
Qed.

Lemma resolveRequestBody_nil st body st' body' o :
  resolveRequestBody Errorf c st body = (st', body', o) -> body = None -> body' = None.
Proof. intros H ->. by injection H as <- <- <-. Qed.

Lemma resolveEndpoint_shape st e st' e' o :
  resolveEndpoint Errorf c st e = (st', e', o) -> endpointShape e e'.
Proof.
  unfold resolveEndpoint, endpointShape.
  destruct (rangeUpdate _ st (Endpoint.Parameters e)) as [[st1 ps] o1] eqn:E1.
  pose proof (rangeUpdate_related (fun slot slot' : option ptr => slot = None -> slot' = None)
                _ (fun _ H => H) (resolveParameter_nil) _ _ _ _ _ E1) as HP.
  assert (Forall2 (fun entry entry' : string * option Response.t =>
                     entry'.1 = entry.1 /\ (entry.2 = None -> entry'.2 = None))
            (Endpoint.Responses e) (Endpoint.Responses e)) as HRsame
    by (by apply Forall_Forall2_diag, Forall_forall).
  destruct o1; try (intros [= <- <- <-]; by cbn).
  destruct (resolveRequestBody Errorf c st1 _) as [[st2 rb] o2] eqn:E2. cbn in E2.
  pose proof (resolveRequestBody_nil _ _ _ _ _ E2) as HB.
  destruct o2; try (intros [= <- <- <-]; by cbn).
  destruct (rangeUpdate _ st2 _) as [[st3 rs] o3] eqn:E3. cbn in E3.
  pose proof (rangeUpdate_related
                (fun entry entry' : string * option Response.t =>
                   entry'.1 = entry.1 /\ (entry.2 = None -> entry'.2 = None))
                _ (fun _ => conj eq_refl (fun H => H)) (resolveResponse_key) _ _ _ _ _ E3) as HR.
  intros [= <- <- <-]. by cbn.
Qed.
End Frame.

Lemma endpointShape_refl (e : Endpoint.t) : endpointShape e e.
Proof.
  repeat split; try done.
  - by apply Forall_Forall2_diag, Forall_forall.
  - by apply Forall_Forall2_diag, Forall_forall.
Qed.

Lemma resolves_quiet_objects (c : Components.t) (st st' : Store.t) :
  resolves c st st' ->
  (forall a p, Store.parameters st !! a = Some p -> schemaQuiet (Param.Schema p) ->
     Store.parameters st' !! a = Some p)
  /\ (forall m mt, Store.mediaTypes st !! m = Some mt -> schemaQuiet (MediaType.Schema mt) ->
        Store.mediaTypes st' !! m = Some mt).
Proof.
  intros (_ & _ & HP & HM). split.
  - intros a p Hp Hq. destruct (HP a p Hp) as (s' & H & Hs & _).
    by rewrite H, (Hs Hq), with_Schema_same.
  - intros m mt Hm Hq. destruct (HM m mt Hm) as (mt' & H & Hs & _). by rewrite H, (Hs Hq).
Qed.

(** Whatever its outcome, a call of [ResolveReferences] leaves the title,
    version, description and servers of the document as they are, and its
    component tables pointing at the objects they pointed at; it keeps, for
    every endpoint, its path, method, summary, description, the number of
    its parameter slots, the codes of its responses and every nil among
    them.  It allocates nothing; an object whose schema pointer carries no
    descriptor is not written, and the others change in their schema
    pointer only, whether an endpoint or a component points at them. *)
Theorem ResolveReferences_frame
    (Errorf : string -> string) (st st' : Store.t) (doc doc' : APIDocument.t) (o : outcome) :
  ResolveReferences Errorf st doc = (st', doc', o) ->
  doc' = APIDocument.with_Endpoints (APIDocument.Endpoints doc') doc
  /\ Forall2 endpointShape (APIDocument.Endpoints doc) (APIDocument.Endpoints doc')
  /\ sameObjects st st'
  /\ (forall a p, Store.parameters st !! a = Some p -> schemaQuiet (Param.Schema p) ->
        Store.parameters st' !! a = Some p)
  /\ (forall m mt, Store.mediaTypes st !! m = Some mt -> schemaQuiet (MediaType.Schema mt) ->
        Store.mediaTypes st' !! m = Some mt).
Proof.
  unfold ResolveReferences. destruct (APIDocument.Components doc) as [c|].
  - destruct (rangeUpdate _ st _) as [[st1 eps] o1] eqn:E. intros [= <- <- <-].
    pose proof (endpoints_resolves Errorf c _ _ _ _ _ E) as R.
    split; [done|]. split; [|split].
    + exact (rangeUpdate_related endpointShape _ endpointShape_refl
               (resolveEndpoint_shape Errorf c) _ _ _ _ _ E).
    + by eapply resolves_sameObjects.
    + by eapply resolves_quiet_objects.
  - intros [= <- <- <-]. split; [by rewrite with_Endpoints_same|]. split; [|split].
    + apply Forall_Forall2_diag, Forall_forall. intros e _. apply endpointShape_refl.
    + apply (resolves_sameObjects (Components.mk ∅ ∅ ∅ ∅)), resolves_refl.
    + by split.
Qed.

(** On [staleDoc] the media type that component [B] points at is written:
    the table still points at it, and its schema pointer is resolved. *)
Lemma ResolveReferences_frame_witness :
  (ResolveReferences (fun s => s) staleStore staleDoc).1.2
  = APIDocument.with_Endpoints
      (APIDocument.Endpoints (ResolveReferences (fun s => s) staleStore staleDoc).1.2) staleDoc
  /\ Forall2 endpointShape (APIDocument.Endpoints staleDoc)
       (APIDocument.Endpoints (ResolveReferences (fun s => s) staleStore staleDoc).1.2)
  /\ sameObjects staleStore (ResolveReferences (fun s => s) staleStore staleDoc).1.1
  /\ Store.mediaTypes staleStore !! 0 = Some (MediaType.mk (Some schemaS))
  /\ Store.mediaTypes (ResolveReferences (fun s => s) staleStore staleDoc).1.1 !! 0
     = Some (MediaType.mk (Some integerSchema)).
Proof.
  destruct (ResolveReferences_frame (fun s => s) staleStore
              (ResolveReferences (fun s => s) staleStore staleDoc).1.1 staleDoc
              (ResolveReferences (fun s => s) staleStore staleDoc).1.2
              (ResolveReferences (fun s => s) staleStore staleDoc).2 eq_refl)
    as (H1 & H2 & H3 & _).
  split; [exact H1|]. split; [exact H2|]. split; [exact H3|]. split; reflexivity.
Defined.

(** ** When resolution panics *)

Section Panics.
Variable Errorf : string -> string.
Variable c : Components.t.

Lemma rangeUpdate_Panic {A : Type} (P : Store.t -> A -> Prop) (B : A -> Prop)
    (body : Store.t -> A -> Store.t * A * outcome) :
  (forall st st' x, resolves c st st' -> P st x -> P st' x) ->
  (forall st x st' x' o, body st x = (st', x', o) -> resolves c st st') ->
  (forall st x st' x', P st x -> body st x = (st', x', Panic) -> B x) ->
  forall xs st st' xs',
    Forall (P st) xs -> rangeUpdate body st xs = (st', xs', Panic) -> Exists B xs.
Proof.
  intros HP Hres Hstep. induction xs as [|x rest IH]; intros st st' xs' HF H.
  - by injection H.
  - cbn [rangeUpdate] in H. destruct (body st x) as [[st1 x'] o1] eqn:Ex.
    apply Forall_cons in HF as [Hx Hrest].
    destruct o1.
    + destruct (rangeUpdate body st1 rest) as [[st2 rest'] o2] eqn:E.
      injection H as <- <- ->. apply Exists_cons_tl. eapply IH; [|exact E].
      eapply Forall_impl; [exact Hrest|]. intros y. apply HP. by eapply Hres.
    + by injection H.
    + apply Exists_cons_hd. by eapply Hstep.
Qed.

Lemma rangeDo_Panic {A : Type} (P : Store.t -> A -> Prop)
    (body : Store.t -> A -> Store.t * outcome) :
  (forall st st' x, resolves c st st' -> P st x -> P st' x) ->
  (forall st x st' o, body st x = (st', o) -> resolves c st st') ->
  (forall st x st', P st x -> body st x <> (st', Panic)) ->
  forall xs st st', Forall (P st) xs -> rangeDo body st xs <> (st', Panic).
Proof.
  intros HP Hres Hstep. induction xs as [|x rest IH]; intros st st' HF H.
  - by injection H.
  - cbn [rangeDo] in H. destruct (body st x) as [st1 o1] eqn:Ex.
    apply Forall_cons in HF as [Hx Hrest].
    destruct o1.
    + eapply IH; [|exact H].
      eapply Forall_impl; [exact Hrest|]. intros y. apply HP. by eapply Hres.
    + by injection H.
    + injection H as ->. by eapply Hstep.
Qed.

Lemma is_Some_parameter_resolves st st' (a : ptr) :
  resolves c st st' -> is_Some (Store.parameters st !! a) -> is_Some (Store.parameters st' !! a).
Proof. intros (HL & _) H. apply lookup_lt_is_Some. apply lookup_lt_is_Some in H. lia. Qed.

Lemma is_Some_mediaType_resolves st st' (m : ptr) :
  resolves c st st' -> is_Some (Store.mediaTypes st !! m) -> is_Some (Store.mediaTypes st' !! m).
Proof. intros (_ & HL & _) H. apply lookup_lt_is_Some. apply lookup_lt_is_Some in H. lia. Qed.

Lemma contentValid_resolves st st' content :
  resolves c st st' -> contentValid st content -> contentValid st' content.
Proof.
  intros R H. eapply Forall_impl; [exact H|]. intros entry Hm m Em.
  by eapply is_Some_mediaType_resolves; [|apply Hm].
Qed.

Lemma endpointValid_resolves st st' e :
  resolves c st st' -> endpointValid st e -> endpointValid st' e.
Proof.
  intros R (HP & HB & HR). split; [|split].
  - eapply Forall_impl; [exact HP|]. intros slot Ha a Ea.
    by eapply is_Some_parameter_resolves; [|apply Ha].
  - intros rb Hrb. eapply contentValid_resolves; [done | by apply HB].
  - eapply Forall_impl; [exact HR|]. intros entry Hr r Er.
    eapply contentValid_resolves; [done | by apply Hr].
Qed.

Lemma bodiesValid_resolves st st' :
  resolves c st st' -> bodiesValid c st -> bodiesValid c st'.
Proof. intros R H name rb Hrb. eapply contentValid_resolves; [done | by eapply H]. Qed.

Lemma resolveMediaType_no_Panic st entry st' :
  (forall m, entry.2 = Some m -> is_Some (Store.mediaTypes st !! m)) ->
  resolveMediaType Errorf c st entry <> (st', Panic).
Proof.
  unfold resolveMediaType. intros H. destruct entry.2 as [m|]; [|done].
  destruct (H m eq_refl) as [mt ->]. destruct (MediaType.Schema mt) as [sc|]; [|done].
  destruct (resolveSchema Errorf c (Some sc)) as [s' o] eqn:E. intros [= _ ->].
  by eapply resolveSchema_no_Panic.
Qed.

Lemma content_no_Panic st (content : ContentMap) st' :
  contentValid st content -> rangeDo (resolveMediaType Errorf c) st content <> (st', Panic).
Proof.
  apply (rangeDo_Panic
           (fun st0 (entry : string * option ptr) =>
              forall m, entry.2 = Some m -> is_Some (Store.mediaTypes st0 !! m))).
  - intros st1 st2 entry R H m Em. by eapply is_Some_mediaType_resolves; [|apply H].
  - apply resolveMediaType_resolves.
  - intros st1 entry st2. apply resolveMediaType_no_Panic.
Qed.

Lemma resolveParameter_no_Panic st slot st' slot' :
  (forall a, slot = Some a -> is_Some (Store.parameters st !! a)) ->
  resolveParameter Errorf c st slot <> (st', slot', Panic).
Proof.
  unfold resolveParameter. intros H. destruct slot as [a|]; [|done].
  destruct (H a eq_refl) as [p ->].
  destruct (resolveSchema Errorf c (Param.Schema p)) as [s' o] eqn:E.
  assert (o <> Panic) as Ho by (intros ->; by eapply resolveSchema_no_Panic).
  destruct (decide (Param.Ref p = "")); [by intros [= _ _ ->]|].
  destruct (Components.Parameters c !! _); [by intros [= _ _ ->] | done].
Qed.

Lemma resolveResponse_no_Panic st entry st' entry' :
  (forall r, entry.2 = Some r -> contentValid st (Response.Content r)) ->
  resolveResponse Errorf c st entry <> (st', entry', Panic).
Proof.
  unfold resolveResponse. intros H. destruct entry.2 as [resp|]; [|done].
  destruct (rangeDo _ st (Response.Content resp)) as [st1 o] eqn:E.
  assert (o <> Panic) as Ho by (intros ->; by eapply content_no_Panic; [apply H|]).
  destruct (decide (Response.Ref resp = "")); [by intros [= _ _ ->]|].
  destruct (Components.Responses c !! _); [by intros [= _ _ ->] | done].
Qed.

Lemma resolveRequestBody_Panic st body st' body' :
  (forall rb, body = Some rb -> contentValid st (RequestBody.Content rb)) ->
  bodiesValid c st ->
  resolveRequestBody Errorf c st body = (st', body', Panic) ->
  exists rb, body = Some rb
             /\ RequestBody.Ref rb <> ""
             /\ Components.RequestBodies c
                  !! extractNameFromRef (RequestBody.Ref rb) "requestBodies"
                = Some None.
Proof.
  unfold resolveRequestBody. intros HB HC. destruct body as [rb|]; [|done].
  destruct (decide (RequestBody.Ref rb = "")) as [|Hr].
  - destruct (rangeDo _ st (RequestBody.Content rb)) as [st1 o] eqn:E. intros [= _ _ ->].
    exfalso. by eapply content_no_Panic; [apply HB|].
  - destruct (Components.RequestBodies c !! _) as [[rb'|]|] eqn:El; [| |done].
    + destruct (rangeDo _ st (RequestBody.Content rb')) as [st1 o] eqn:E. intros [= _ _ ->].
      exfalso. by eapply content_no_Panic; [eapply HC|].
    + intros _. by exists rb.
Qed.

Lemma resolveEndpoint_Panic st e st' e' :
  endpointValid st e /\ bodiesValid c st ->
  resolveEndpoint Errorf c st e = (st', e', Panic) -> nullBody c e.
Proof.
  intros [(HP & HB & HR) HC]. unfold resolveEndpoint.
  destruct (rangeUpdate _ st (Endpoint.Parameters e)) as [[st1 ps] o1] eqn:E1.
  pose proof (rangeUpdate_resolves c _ (resolveParameter_resolves Errorf c) _ _ _ _ _ E1) as R1.
  destruct o1; [|done|].
  - destruct (resolveRequestBody Errorf c st1 _) as [[st2 rb] o2] eqn:E2. cbn in E2.
    pose proof (resolveRequestBody_resolves _ _ _ _ _ _ _ E2) as R2.
    destruct o2; [|done|].
    + destruct (rangeUpdate _ st2 _) as [[st3 rs] o3] eqn:E3. cbn in E3.
      intros [= _ _ ->]. exfalso.
      apply (rangeUpdate_Panic
               (fun st0 (entry : string * option Response.t) =>
                  forall r, entry.2 = Some r -> contentValid st0 (Response.Content r))
               (fun _ => False)) in E3.
      * by apply Exists_exists in E3 as (? & _ & ?).
      * intros sa sb entry R H r Er. eapply contentValid_resolves; [done | by apply H].
      * apply resolveResponse_resolves.
      * intros sa entry sb entry' H Hp. by eapply resolveResponse_no_Panic.
      * eapply Forall_impl; [exact HR|]. intros entry H r Er.
        eapply contentValid_resolves; [exact (resolves_trans c _ _ _ R1 R2) | by apply H].
    + intros _. eapply resolveRequestBody_Panic; [| |exact E2].
      * intros rb' Hrb. eapply contentValid_resolves; [exact R1 | by apply HB].
      * by eapply bodiesValid_resolves.
  - intros _. exfalso.
    apply (rangeUpdate_Panic
             (fun st0 (slot : option ptr) =>
                forall a, slot = Some a -> is_Some (Store.parameters st0 !! a))
             (fun _ => False)) in E1.
    + by apply Exists_exists in E1 as (? & _ & ?).
    + intros sa sb slot R H a Ea. by eapply is_Some_parameter_resolves; [|apply H].
    + apply resolveParameter_resolves.
    + intros sa slot sb slot' H Hp. by eapply resolveParameter_no_Panic.
    + exact HP.
Qed.

Lemma resolveEndpoint_nullBody st e :
  Forall (paramQuiet st) (Endpoint.Parameters e) ->
  nullBody c e ->
  (resolveEndpoint Errorf c st e).2 = Panic /\ (resolveEndpoint Errorf c st e).1.1 = st.
Proof.
  intros HP (rb & Hrb & Hr & Hl). unfold resolveEndpoint.
  rewrite rangeUpdate_noop.
  2:{ intros slot Hin. apply resolveParameter_noop.
      by eapply (proj1 (Forall_forall _ _)). }
  cbn. rewrite Hrb. cbn. rewrite decide_False by done. by rewrite Hl.
Qed.
End Panics.

(** [ResolveReferences] dereferences a nil pointer only in one place: a
    call panics only if the request body of some endpoint carries a
    descriptor that names a component which is [null]. *)
Theorem ResolveReferences_panics_only_on_null_body
    (Errorf : string -> string) (c : Components.t)
    (st st' : Store.t) (doc doc' : APIDocument.t) :
  APIDocument.Components doc = Some c ->
  Forall (endpointValid st) (APIDocument.Endpoints doc) ->
  bodiesValid c st ->
  ResolveReferences Errorf st doc = (st', doc', Panic) ->
  Exists (nullBody c) (APIDocument.Endpoints doc).
Proof.
  intros Hc HV HB. unfold ResolveReferences. rewrite Hc.
  destruct (rangeUpdate _ st _) as [[st1 eps] o] eqn:E. intros [= _ _ ->].
  apply (rangeUpdate_Panic c (fun st0 e => endpointValid st0 e /\ bodiesValid c st0)
           (nullBody c)) in E; [done| | | |].
  - intros sa sb e R [H1 H2].
    split; [by eapply endpointValid_resolves | by eapply bodiesValid_resolves].
  - apply resolveEndpoint_resolves.
  - intros sa e sb e'. apply resolveEndpoint_Panic.
  - eapply Forall_impl; [exact HV|]. by intros e He.
Qed.

Lemma ResolveReferences_panics_only_on_null_body_witness :
  Exists (nullBody nullBodyComponents) (APIDocument.Endpoints nullBodyDoc).
Proof.
  apply (ResolveReferences_panics_only_on_null_body (fun s => s) nullBodyComponents
           nullBodyStore nullBodyStore nullBodyDoc
           (APIDocument.with_Endpoints
              [onlyParams "/a" [Some 0]; Endpoint.with_RequestBody None nullBodyEndpoint]
              nullBodyDoc)).
  - reflexivity.
  - assert (forall a : ptr, Some 0 = Some a -> is_Some (Store.parameters nullBodyStore !! a))
      as H0 by (intros a [= <-]; by eexists).
    constructor; [|constructor; [|constructor]].
    + split; [by constructor|]. split; [done | constructor].
    + split; [by constructor|]. split; [|constructor].
      intros rb [= <-]. constructor.
  - intros name rb H. unfold nullBodyComponents in H. cbn [Components.RequestBodies] in H.
    apply lookup_singleton_Some in H as [_ [=]].
  - reflexivity.
Defined.

(** And there it does: when the endpoints before [e] carry no descriptor,
    the parameters of [e] carry none, and the request body of [e] names a
    component which is [null], the call panics. *)
Theorem ResolveReferences_panics_on_null_body
    (Errorf : string -> string) (c : Components.t) (st : Store.t) (doc : APIDocument.t)
    (eps1 eps2 : list Endpoint.t) (e : Endpoint.t) :
  APIDocument.Components doc = Some c ->
  APIDocument.Endpoints doc = eps1 ++ e :: eps2 ->
  Forall (endpointQuiet st) eps1 ->
  Forall (paramQuiet st) (Endpoint.Parameters e) ->
  nullBody c e ->
  (ResolveReferences Errorf st doc).2 = Panic.
Proof.
  intros Hc He H1 HP HN. unfold ResolveReferences. rewrite Hc, He.
  destruct (resolveEndpoint_nullBody Errorf c st e HP HN) as [Ho Hst].
  destruct (resolveEndpoint Errorf c st e) as [[st1 e'] o] eqn:Ee. cbn in Ho, Hst. subst.
  by rewrite (rangeUpdate_stops _ _ _ _ eps2 _ _ _ _ _ (endpoints_noop Errorf c st eps1 H1) Ee).
Qed.

Lemma ResolveReferences_panics_on_null_body_witness :
  (ResolveReferences (fun s => s) nullBodyStore nullBodyDoc).2 = Panic.
Proof.
  assert (paramQuiet nullBodyStore (Some 0)) as H0
    by (intros a [= <-]; exists pageParam; by repeat split).
  apply (ResolveReferences_panics_on_null_body (fun s => s) nullBodyComponents nullBodyStore
           nullBodyDoc [onlyParams "/a" [Some 0]] [] nullBodyEndpoint).
  - reflexivity.
  - reflexivity.
  - constructor; [|constructor]. split; [by constructor|]. split; [done | constructor].
  - by constructor.
  - eexists. split; [reflexivity|]. split; [done | reflexivity].
Defined.

(** ** From resolution to rendering *)

Lemma slotRenderable_resolves (c : Components.t) (st st' : Store.t) (slot : option ptr) :
  resolves c st st' -> slotRenderable st slot -> slotRenderable st' slot.
Proof.
  intros R (a & -> & H). exists a. split; [done|]. by eapply is_Some_parameter_resolves.
Qed.

Lemma endpointRenderable_resolved (c : Components.t) (st st' : Store.t) (e e' : Endpoint.t) :
  resolves c st st' ->
  (forall name slot, Components.Parameters c !! name = Some slot -> slotRenderable st slot) ->
  (forall name resp, Components.Responses c !! name = Some resp -> is_Some resp) ->
  endpointResolved c st' e e' -> endpointRenderable st e -> endpointRenderable st' e'.
Proof.
  intros R HP HS (_ & _ & _ & _ & HPs & _ & HRs) [HeP HeR]. split.
  - clear HeR HRs. induction HPs as [|slot slot' ps ps' Hs _ IHp]; [constructor|].
    apply Forall_cons in HeP as [Hslot HeP]. constructor; [|by apply IHp].
    destruct Hslot as (a & -> & Ha). cbn in Hs. destruct Hs as (p & Hp & Hs).
    destruct (decide (Param.Ref p = "")).
    + subst slot'. exists a. split; [done|]. by eexists.
    + eapply slotRenderable_resolves; [exact R | by eapply HP].
  - clear HeP HPs. induction HRs as [|entry entry' rs rs' Hr _ IHr]; [constructor|].
    apply Forall_cons in HeR as [Hentry HeR]. constructor; [|by apply IHr].
    destruct Hr as [_ Hr]. destruct Hentry as [resp Hresp]. rewrite Hresp in Hr.
    destruct (decide (Response.Ref resp = "")).
    + rewrite Hr. by eexists.
    + by eapply HS.
Qed.

Lemma endpointsRenderable_resolved (c : Components.t) (st st' : Store.t)
    (eps eps' : list Endpoint.t) :
  resolves c st st' ->
  (forall name slot, Components.Parameters c !! name = Some slot -> slotRenderable st slot) ->
  (forall name resp, Components.Responses c !! name = Some resp -> is_Some resp) ->
  Forall2 (endpointResolved c st') eps eps' ->
  Forall (endpointRenderable st) eps -> Forall (endpointRenderable st') eps'.
Proof.
  intros R HP HS. induction 1 as [|e e' eps eps' He _ IH]; intros HR; [constructor|].
  apply Forall_cons in HR as [Hhd HR]. constructor; [|by apply IH].
  by eapply endpointRenderable_resolved.
Qed.

(** When the components hold no [null] parameter and no [null] response,
    a document that could be rendered before a successful resolution can
    be rendered after it: [RenderText] returns on what [ResolveReferences]
    leaves. *)
Theorem resolved_document_renders
    (Errorf ToUpper : string -> string) (c : Components.t)
    (st st' : Store.t) (doc doc' : APIDocument.t) :
  APIDocument.Components doc = Some c ->
  Forall (endpointRenderable st) (APIDocument.Endpoints doc) ->
  (forall name slot, Components.Parameters c !! name = Some slot -> slotRenderable st slot) ->
  (forall name resp, Components.Responses c !! name = Some resp -> is_Some resp) ->
  ResolveReferences Errorf st doc = (st', doc', Done) ->
  is_Some (RenderText ToUpper st' doc').
Proof.
  intros Hc HR HP HS. unfold ResolveReferences. rewrite Hc.
  destruct (rangeUpdate _ st _) as [[st1 eps] o] eqn:E. intros [= <- <- ->].
  apply RenderText_is_Some. cbn.
  eapply endpointsRenderable_resolved; [| exact HP | exact HS | | exact HR].
  - exact (endpoints_resolves _ _ _ _ _ _ _ E).
  - exact (endpoints_Done _ _ _ _ _ _ E).
Qed.

Lemma resolved_document_renders_witness :
  is_Some (RenderText upperASCII catalogStoreAfter catalogDocAfter).
Proof.
  assert (forall a : ptr, a < 3 -> slotRenderable catalogStore (Some a)) as Hslot.
  { intros a Ha. exists a. split; [done|]. apply lookup_lt_is_Some. cbn. lia. }
  apply (resolved_document_renders (fun s => s) upperASCII catalogComponents
           catalogStore catalogStoreAfter catalogDoc catalogDocAfter).
  - reflexivity.
  - constructor; [|constructor]. split.
    + constructor; [apply Hslot; lia|]. constructor; [apply Hslot; lia | constructor].
    + constructor; [by eexists | constructor].
  - intros name slot H. unfold catalogComponents in H. cbn [Components.Parameters] in H.
    apply lookup_singleton_Some in H as [_ <-]. apply Hslot. lia.
  - intros name resp H. unfold catalogComponents in H. cbn [Components.Responses] in H.
    apply lookup_singleton_Some in H as [_ <-]. by eexists.
  - reflexivity.
Defined.

(** ** The program on a Swagger 2.0 file *)

Lemma synthesized_renderable (st : Store.t) t (e : Endpoint.t) :
  synthesized st t e -> endpointRenderable st e.
Proof.
  intros (_ & _ & _ & _ & HP & HR & _). split.
  - induction HP as [|slot p slots ps (a & -> & Ha) _ IH]; constructor; [|done].
    exists a. split; [done|]. by eexists.
  - rewrite HR. apply Forall_forall. intros entry Hin.
    apply list_elem_of_In, in_map_iff in Hin as (r & <- & _). by eexists.
Qed.

Lemma convert_renderable (st : Store.t) (sw : SwaggerSpec.t) :
  APIDocument.Components (convertSwaggerToAPIDocument st sw).2 = None
  /\ APIDocument.Servers (convertSwaggerToAPIDocument st sw).2 = []
  /\ Forall (endpointRenderable (convertSwaggerToAPIDocument st sw).1)
       (APIDocument.Endpoints (convertSwaggerToAPIDocument st sw).2).
Proof.
  unfold convertSwaggerToAPIDocument.
  pose proof (convertPaths_spec (SwaggerSpec.Paths sw) (st, []) [] (Forall2_nil_2 _ _ _)) as H.
  destruct (fold_left convertPathItem (SwaggerSpec.Paths sw) (st, [])) as [st1 eps].
  cbn in *. split; [done|]. split; [done|].
  induction H as [|t e ts eps0 He _ IH]; constructor; [|done].
  by eapply synthesized_renderable.
Qed.

Section ProgramRuns.
Variable ReadFile : string -> string + string.
Variable yamlUnmarshalRaw : string -> gset string + string.
Variable jsonUnmarshalSwagger : Store.t -> string -> (Store.t * SwaggerSpec.t) + string.
Variable yamlUnmarshalSwagger : Store.t -> string -> (Store.t * SwaggerSpec.t) + string.
Variable jsonUnmarshalDocument : Store.t -> string -> (Store.t * APIDocument.t) + string.
Variable yamlUnmarshalDocument : Store.t -> string -> (Store.t * APIDocument.t) + string.
Variable Errorf : string -> string.
Variable ToUpper : string -> string.
Variable WriteFile : string -> string -> option string.

Lemma LoadAPISpec_swagger (st0 st : Store.t) (path data : string) (raw : gset string)
    (doc : APIDocument.t) :
  ReadFile path = inl data ->
  yamlUnmarshalRaw data = inl raw ->
  "swagger" ∈ raw ->
  LoadAPISpec ReadFile yamlUnmarshalRaw jsonUnmarshalSwagger yamlUnmarshalSwagger
    jsonUnmarshalDocument yamlUnmarshalDocument st0 path = (st, inl doc) ->
  APIDocument.Components doc = None
  /\ APIDocument.Servers doc = []
  /\ Forall (endpointRenderable st) (APIDocument.Endpoints doc).
Proof.
  intros HF HR HS. unfold LoadAPISpec. rewrite HF.
  destruct (Nat.eqb _ 0).
  - intros [= <- <-]. cbn. by repeat split.
  - rewrite HR, bool_decide_true by done.
    destruct (if startsWithBrace (TrimSpace data) then _ else _) as [[st1 sw]|err]; [|done].
    pose proof (convert_renderable st1 sw) as H.
    destruct (convertSwaggerToAPIDocument st1 sw) as [st2 doc2]. by intros [= <- <-].
Qed.

(** A Swagger 2.0 file (one whose top level has a [swagger] key) never
    makes the program crash and never makes it stop at reference
    resolution: either a decoder rejects the file and the program stops
    with the loading error, or the converted document has no components,
    [RenderText] returns on it, and the program hands that text to the
    output file. *)
Theorem main_on_swagger_file (data : string) (raw : gset string) :
  ReadFile "swagger.json" = inl data ->
  yamlUnmarshalRaw data = inl raw ->
  "swagger" ∈ raw ->
  (exists err,
      main ReadFile yamlUnmarshalRaw jsonUnmarshalSwagger yamlUnmarshalSwagger
        jsonUnmarshalDocument yamlUnmarshalDocument Errorf ToUpper WriteFile
      = Fatal ("Error loading API spec: " +:+ err))
  \/ (exists st doc summary,
        LoadAPISpec ReadFile yamlUnmarshalRaw jsonUnmarshalSwagger yamlUnmarshalSwagger
          jsonUnmarshalDocument yamlUnmarshalDocument Store.empty "swagger.json"
        = (st, inl doc)
        /\ APIDocument.Components doc = None
        /\ RenderText ToUpper st doc = Some summary
        /\ main ReadFile yamlUnmarshalRaw jsonUnmarshalSwagger yamlUnmarshalSwagger
             jsonUnmarshalDocument yamlUnmarshalDocument Errorf ToUpper WriteFile
           = match WriteFile "llm1.txt" summary with
             | Some err => Fatal ("Error writing to file: " +:+ err)
             | None => Wrote "llm1.txt" summary
             end).
Proof.
  intros HF HR HS. unfold main.
  destruct (LoadAPISpec _ _ _ _ _ _ Store.empty "swagger.json") as [st [doc|err]] eqn:EL.
  - right. destruct (LoadAPISpec_swagger _ _ _ _ _ _ HF HR HS EL) as (Hc & _ & Hrender).
    unfold ResolveReferences. rewrite Hc.
    apply (RenderText_is_Some ToUpper) in Hrender as [summary Hs]. rewrite Hs.
    by exists st, doc, summary.
  - left. by exists err.
Qed.
End ProgramRuns.

Lemma main_on_swagger_file_witness :
  (exists err,
      main swaggerFS swaggerRaw noSwagger swaggerDecoder noDocument noDocument
        (fun s => s) upperASCII anyDisk
      = Fatal ("Error loading API spec: " +:+ err))
  \/ (exists st doc summary,
        LoadAPISpec swaggerFS swaggerRaw noSwagger swaggerDecoder noDocument noDocument
          Store.empty "swagger.json" = (st, inl doc)
        /\ APIDocument.Components doc = None
        /\ RenderText upperASCII st doc = Some summary
        /\ main swaggerFS swaggerRaw noSwagger swaggerDecoder noDocument noDocument
             (fun s => s) upperASCII anyDisk
           = match anyDisk "llm1.txt" summary with
             | Some err => Fatal ("Error writing to file: " +:+ err)
             | None => Wrote "llm1.txt" summary
             end).
Proof.
  apply (main_on_swagger_file swaggerFS swaggerRaw noSwagger swaggerDecoder noDocument
           noDocument (fun s => s) upperASCII anyDisk "swagger: 2.0" {[ "swagger" ]}).
  - reflexivity.
  - reflexivity.
  - by apply elem_of_singleton.
Defined.

(** ** White space and fields *)

Ltac tests :=
  repeat match goal with
         | H : context [if ?b then _ else _] |- _ => destruct b eqn:?
         | |- context [if ?b then _ else _] => destruct b eqn:?
         end.

Ltac codes :=
  repeat progress
    rewrite ?andb_true_iff, ?orb_true_iff, ?andb_false_iff, ?orb_false_iff,
      ?Nat.eqb_eq, ?Nat.eqb_neq, ?Nat.leb_le, ?Nat.leb_gt in *.

Lemma spaceWidth_append_pos (s t : string) (k : nat) :
  spaceWidth s = S k -> spaceWidth (s +:+ t) = S k.
Proof.
  destruct s as [|b0 [|b1 [|b2 r]]]; rewrite ?append_cons, ?append_nil; try done.
  - unfold spaceWidth. tests; try done.
  - unfold spaceWidth. tests; try done.
Qed.

Lemma spaceWidth_le_length (s : string) : spaceWidth s <= String.length s.
Proof.
  destruct s as [|b0 [|b1 [|b2 r]]]; unfold spaceWidth; tests; cbn; lia.
Qed.

Lemma spaceWidth_pos_edge (s : string) (k : nat) : spaceWidth s = S k -> edge s.
Proof.
  destruct s as [|b0 r0]; [done|]. unfold edge, spaceStart.
  destruct r0 as [|b1 [|b2 r]]; unfold spaceWidth; intros H; tests; try done; codes;
    lia.
Qed.


Lemma spaceWidth_before_edge (b : Ascii.ascii) (s : string) :
  edge s -> spaceWidth (String b s) = if oneByte b then 1 else 0.
Proof.
  unfold oneByte. destruct s as [|c [|c2 s]]; unfold edge, spaceStart, spaceWidth; intros H;
    tests; try done; codes; lia.
Qed.

Lemma spaceWidth_two_before_edge (b b1 : Ascii.ascii) (s : string) :
  edge s ->
  spaceWidth (String b (String b1 s)) = spaceWidth (String b (String b1 "")).
Proof.
  destruct s as [|c s]; [done|]. unfold edge, spaceStart, spaceWidth; intros H;
    tests; try done; codes; lia.
Qed.

Lemma spaceWidth_edge (b : Ascii.ascii) (v s t : string) :
  edge s -> edge t ->
  spaceWidth (String b (v +:+ s)) = 0 -> spaceWidth (String b (v +:+ t)) = 0.
Proof.
  intros Hs Ht. destruct v as [|b1 [|b2 v]]; rewrite ?append_cons, ?append_nil.
  - by rewrite !spaceWidth_before_edge.
  - by rewrite (spaceWidth_two_before_edge b b1 s), (spaceWidth_two_before_edge b b1 t).
  - done.
Qed.

Lemma solidIn_edge (w s t : string) : edge s -> edge t -> solidIn w s -> solidIn w t.
Proof.
  intros Hs Ht. induction w as [|b v IH]; [done|]. cbn [solidIn].
  intros [H1 H2]. split; [exact (spaceWidth_edge b v s t Hs Ht H1) | by apply IH].
Qed.

Lemma solidIn_snoc (u : string) (b : Ascii.ascii) (rest : string) :
  solidIn u (String b rest) -> spaceWidth (String b rest) = 0 ->
  solidIn (u +:+ String b "") rest.
Proof.
  intros Hu Hb. induction u as [|a u IH].
  - rewrite append_nil. cbn [solidIn]. by rewrite append_nil.
  - rewrite append_cons. cbn [solidIn] in *. destruct Hu as [H1 H2].
    rewrite append_assoc, append_cons, append_nil. split; [done | by apply IH].
Qed.

Lemma string_of_list_ascii_snoc (l : list Ascii.ascii) (b : Ascii.ascii) :
  String.string_of_list_ascii (l ++ [b]) = String.string_of_list_ascii l +:+ String b "".
Proof. induction l as [|a l IH]; [done|]. cbn. by rewrite IH. Qed.

Lemma flushField_robust (cur : list Ascii.ascii) (s : string) :
  edge s -> solidIn (String.string_of_list_ascii (rev cur)) s ->
  Forall robust (flushField cur).
Proof.
  intros Hs H. unfold flushField. destruct cur as [|b cur]; [constructor|].
  rewrite rev_append_rev, app_nil_r. constructor; [|constructor]. split.
  - cbn [rev]. rewrite string_of_list_ascii_snoc.
    destruct (String.string_of_list_ascii (rev cur)); by rewrite ?append_nil, ?append_cons.
  - intros t Ht. exact (solidIn_edge _ s t Hs Ht H).
Qed.

Lemma fieldsFrom_robust (s : string) (skip : nat) (cur : list Ascii.ascii) :
  (skip <> 0 -> cur = []) ->
  (skip = 0 -> solidIn (String.string_of_list_ascii (rev cur)) s) ->
  Forall robust (fieldsFrom s skip cur).
Proof.
  revert skip cur. induction s as [|b rest IH]; intros skip cur Hskip Hcur.
  - cbn [fieldsFrom]. destruct skip as [|k].
    + by apply (flushField_robust cur ""); [|apply Hcur].
    + rewrite Hskip by done. constructor.
  - cbn [fieldsFrom]. destruct skip as [|k].
    + destruct (spaceWidth (String b rest)) as [|k] eqn:Ew.
      * apply IH; [done|]. intros _. cbn [rev]. rewrite string_of_list_ascii_snoc.
        apply solidIn_snoc; [by apply Hcur | done].
      * apply Forall_app. split.
        -- apply (flushField_robust cur (String b rest)); [|by apply Hcur].
           by eapply spaceWidth_pos_edge.
        -- apply IH; [done|]. by intros _.
    + apply IH; [by intros _; apply Hskip|]. intros _. by rewrite Hskip.
Qed.

Lemma Fields_robust (s : string) : Forall robust (Fields s).
Proof. by apply fieldsFrom_robust. Qed.

Lemma fieldsFrom_word (w t : string) (cur : list Ascii.ascii) :
  solidIn w t ->
  fieldsFrom (w +:+ t) 0 cur = fieldsFrom t 0 (rev_append (String.list_ascii_of_string w) cur).
Proof.
  revert cur. induction w as [|b v IH]; intros cur H; [done|].
  destruct H as [H1 H2]. rewrite append_cons. cbn [fieldsFrom]. rewrite H1.
  by rewrite IH.
Qed.

Lemma append_nil_r (s : string) : s +:+ "" = s.
Proof. induction s as [|a s IH]; [done|]. by rewrite append_cons, IH. Qed.

Lemma flushField_word (f : string) :
  f <> "" -> flushField (rev_append (String.list_ascii_of_string f) []) = [f].
Proof.
  intros Hf. unfold flushField.
  destruct (rev_append (String.list_ascii_of_string f) []) as [|b l] eqn:E.
  - rewrite rev_append_rev, app_nil_r in E. apply (f_equal (@rev _)) in E.
    rewrite rev_involutive in E. destruct f; [done | discriminate E].
  - rewrite <- E, !rev_append_rev, !app_nil_r, rev_involutive.
    by rewrite String.string_of_list_ascii_of_string.
Qed.

Lemma spaceWidth_blank (s : string) : spaceWidth (String Ascii.Space s) = 1.
Proof. reflexivity. Qed.

Lemma fieldsFrom_blank (s : string) (cur : list Ascii.ascii) :
  fieldsFrom (String Ascii.Space s) 0 cur = flushField cur ++ fieldsFrom s 0 [].
Proof. cbn [fieldsFrom]. by rewrite spaceWidth_blank. Qed.

Lemma Join_cons (f g : string) (rest : list string) :
  Join (f :: g :: rest) " " = f +:+ String Ascii.Space (Join (g :: rest) " ").
Proof. reflexivity. Qed.

Lemma Fields_Join (fs : list string) :
  Forall robust fs -> Fields (Join fs " ") = fs.
Proof.
  unfold Fields. induction fs as [|f rest IH]; intros H; [done|].
  apply Forall_cons in H as [[Hf Hsolid] Hrest].
  destruct rest as [|g rest].
  - change (Join [f] " ") with f.
    rewrite <- (append_nil_r f) at 1. rewrite fieldsFrom_word by by apply Hsolid.
    cbn [fieldsFrom]. by apply flushField_word.
  - rewrite Join_cons, fieldsFrom_word by by apply Hsolid.
    rewrite fieldsFrom_blank, flushField_word by done. cbn [app]. f_equal. by apply IH.
Qed.

(** Collapsing keeps the fields of a text, so collapsing twice is
    collapsing once: [minifyText] is idempotent. *)
Theorem minifyText_keeps_fields (text : string) :
  Fields (minifyText text) = Fields text
  /\ minifyText (minifyText text) = minifyText text.
Proof.
  assert (Fields (minifyText text) = Fields text) as H
    by apply Fields_Join, Fields_robust.
  split; [done|]. unfold minifyText at 1. by rewrite H.
Qed.

Lemma spaceWidth_0_lineByte (b : Ascii.ascii) (r : string) :
  spaceWidth (String b r) = 0 -> lineByte b = false.
Proof.
  unfold lineByte. destruct r as [|b1 [|b2 r]]; unfold spaceWidth; intros H; tests;
    try done; codes; lia.
Qed.

Lemma bytesOf_append (a b : string) : bytesOf (a +:+ b) = bytesOf a ++ bytesOf b.
Proof.
  unfold bytesOf. induction a as [|x a IH]; [done|].
  rewrite append_cons. cbn. by rewrite IH.
Qed.

Lemma solidIn_lineBytes (f t : string) :
  solidIn f t -> Forall (fun b => lineByte b = false) (bytesOf f).
Proof.
  induction f as [|b v IH]; [constructor|]. intros [H1 H2].
  constructor; [by eapply spaceWidth_0_lineByte | by apply IH].
Qed.

Lemma Join_lineBytes (fs : list string) :
  Forall robust fs -> Forall (fun b => lineByte b = false) (bytesOf (Join fs " ")).
Proof.
  induction fs as [|f rest IH]; intros H; [constructor|].
  apply Forall_cons in H as [[_ Hf] Hrest].
  pose proof (solidIn_lineBytes f "" (Hf "" I)) as Hbytes.
  destruct rest as [|g rest]; [done|].
  rewrite Join_cons, bytesOf_append. apply Forall_app. split; [done|].
  constructor; [done | by apply IH].
Qed.

Lemma substring_lineBytes (n : nat) (s : string) :
  Forall (fun b => lineByte b = false) (bytesOf s) ->
  Forall (fun b => lineByte b = false) (bytesOf (String.substring 0 n s)).
Proof.
  revert s. induction n as [|n IH]; intros s H.
  - destruct s; constructor.
  - destruct s as [|b s]; [constructor|]. apply Forall_cons in H as [H1 H2].
    cbn [String.substring]. constructor; [done | by apply IH].
Qed.

Lemma endpointDesc_one_line (description : string) :
  Forall (fun b => lineByte b = false) (bytesOf (endpointDesc description)).
Proof.
  pose proof (Join_lineBytes _ (Fields_robust description)) as H.
  unfold endpointDesc. fold (minifyText description) in H.
  destruct (Z.ltb _ _); [|done].
  rewrite bytesOf_append. apply Forall_app. split; [by apply substring_lineBytes|].
  by repeat constructor.
Qed.

(** In the text [RenderText] returns, the description printed for an
    endpoint holds no tab, line feed, vertical tab, form feed or carriage
    return: from [DESCRIPTION: ] to the line feed before [PARAMETERS:] it
    is one line, also when the description is cut. *)
Theorem RenderText_description_one_line
    (ToUpper : string -> string) (st : Store.t) (doc : APIDocument.t)
    (pre post : list Endpoint.t) (ep : Endpoint.t) (text : string) :
  APIDocument.Endpoints doc = pre ++ ep :: post ->
  RenderText ToUpper st doc = Some text ->
  exists before d tail,
    RenderText ToUpper st (APIDocument.with_Endpoints pre doc) = Some before
    /\ text
       = before
         +:+ ("ENDPOINT: " +:+ ToUpper (Endpoint.Method ep) +:+ " " +:+ Endpoint.Path ep +:+ nl
              +:+ "SUMMARY: " +:+ Endpoint.Summary ep +:+ nl)
         +:+ "DESCRIPTION: " +:+ d +:+ nl +:+ "PARAMETERS:" +:+ nl +:+ tail
    /\ Forall (fun b => lineByte b = false) (bytesOf d).
Proof.
  intros Hdoc Htext.
  destruct (RenderText_description_line _ _ _ _ _ _ _ Hdoc Htext) as (before & tail & Hb & ->).
  exists before. eexists. exists tail. split; [exact Hb|]. split; [reflexivity|].
  destruct (decide _) as [_|_]; [by repeat constructor | apply endpointDesc_one_line].
Qed.

Lemma RenderText_description_one_line_witness :
  exists before d tail,
    RenderText upperASCII Store.empty
      (APIDocument.with_Endpoints [] (describedDoc ("a" +:+ nl +:+ "b"))) = Some before
    /\ default "" (RenderText upperASCII Store.empty (describedDoc ("a" +:+ nl +:+ "b")))
       = before
         +:+ ("ENDPOINT: " +:+ upperASCII "get" +:+ " " +:+ "/x" +:+ nl
              +:+ "SUMMARY: " +:+ "S" +:+ nl)
         +:+ "DESCRIPTION: " +:+ d +:+ nl +:+ "PARAMETERS:" +:+ nl +:+ tail
    /\ Forall (fun b => lineByte b = false) (bytesOf d).
Proof.
  exact (RenderText_description_one_line upperASCII Store.empty
           (describedDoc ("a" +:+ nl +:+ "b")) [] []
           (Endpoint.mk "/x" "get" "S" ("a" +:+ nl +:+ "b") [] None [])
           (default "" (RenderText upperASCII Store.empty (describedDoc ("a" +:+ nl +:+ "b"))))
           eq_refl eq_refl).
Defined.

(** ** The choice of the decoder *)

Lemma trimLeftSpace_append (ws t : string) (skip : nat) :
  allSpace ws skip = true -> skip <= String.length ws ->
  trimLeftSpace (ws +:+ t) skip = trimLeftSpace t 0.
Proof.
  revert skip. induction ws as [|a w IH]; intros skip H Hlen.
  - cbn in Hlen. by replace skip with 0 by lia.
  - rewrite append_cons. cbn [trimLeftSpace allSpace] in *. destruct skip as [|k].
    + destruct (spaceWidth (String a w)) as [|k] eqn:Ew; [done|].
      pose proof (spaceWidth_le_length (String a w)) as Hle. rewrite Ew in Hle. cbn in Hle.
      rewrite <- append_cons, (spaceWidth_append_pos _ t k Ew).
      apply IH; [done | lia].
    + apply IH; [done | cbn in Hlen; lia].
Qed.

Lemma TrimSpace_first_byte (ws : string) (b : Ascii.ascii) (rest : string) :
  allSpace ws 0 = true -> spaceWidth (String b rest) = 0 ->
  TrimSpace (ws +:+ String b rest) = String b (trimRightSpace rest).
Proof.
  intros Hws Hb. unfold TrimSpace. rewrite trimLeftSpace_append by (done || lia).
  cbn [trimLeftSpace]. rewrite Hb. cbn [trimRightSpace allSpace]. by rewrite Hb.
Qed.

Section Decoders.
Variable ReadFile : string -> string + string.
Variable yamlUnmarshalRaw : string -> gset string + string.
Variable jsonUnmarshalSwagger : Store.t -> string -> (Store.t * SwaggerSpec.t) + string.
Variable yamlUnmarshalSwagger : Store.t -> string -> (Store.t * SwaggerSpec.t) + string.
Variable jsonUnmarshalDocument : Store.t -> string -> (Store.t * APIDocument.t) + string.
Variable yamlUnmarshalDocument : Store.t -> string -> (Store.t * APIDocument.t) + string.

(** A file with a byte that is no white space is never taken for the empty
    document, its keys are always read by the YAML decoder, and the typed
    decoder is chosen by the first byte [b] after the leading white space
    [ws]: the JSON decoder when [b] is an opening brace, the YAML decoder
    otherwise; the whole file, leading white space included, is what the
    decoder gets. *)
Theorem decoder_chosen_by_first_byte
    (st : Store.t) (path data ws rest : string) (b : Ascii.ascii) (raw : gset string) :
  ReadFile path = inl data ->
  data = ws +:+ String b rest ->
  allSpace ws 0 = true ->
  spaceWidth (String b rest) = 0 ->
  yamlUnmarshalRaw data = inl raw ->
  LoadAPISpec ReadFile yamlUnmarshalRaw jsonUnmarshalSwagger yamlUnmarshalSwagger
    jsonUnmarshalDocument yamlUnmarshalDocument st path
  = let json := Nat.eqb (Ascii.nat_of_ascii b) 123 in
    if bool_decide ("swagger" ∈ raw) then
      match (if json then jsonUnmarshalSwagger st data else yamlUnmarshalSwagger st data) with
      | inr err => (st, inr err)
      | inl (st1, swaggerSpec) =>
          ((convertSwaggerToAPIDocument st1 swaggerSpec).1,
           inl (convertSwaggerToAPIDocument st1 swaggerSpec).2)
      end
    else
      match (if json then jsonUnmarshalDocument st data else yamlUnmarshalDocument st data) with
      | inr err => (st, inr err)
      | inl (st1, doc) => (st1, inl doc)
      end.
Proof.
  intros HF Hdata Hws Hb HR.
  assert (TrimSpace data = String b (trimRightSpace rest)) as HT
    by (rewrite Hdata; by apply TrimSpace_first_byte).
  unfold LoadAPISpec. rewrite HF, HR. lazy zeta. rewrite HT.
  cbn [String.length Nat.eqb startsWithBrace].
  destruct (bool_decide _); [|done].
  destruct (if Nat.eqb _ 123 then _ else _) as [[st1 sw]|err]; [|done].
  by destruct (convertSwaggerToAPIDocument st1 sw).
Qed.
End Decoders.

Lemma decoder_chosen_by_first_byte_witness :
  LoadAPISpec braceFS plainRaw noSwagger noSwagger zeroDecoder noDocument
    Store.empty "swagger.json"
  = (Store.empty, inl APIDocument.zero).
Proof.
  exact (decoder_chosen_by_first_byte braceFS plainRaw noSwagger noSwagger zeroDecoder
           noDocument Store.empty "swagger.json" ("  {}" +:+ nl) "  " ("}" +:+ nl)
           (Ascii.Ascii true true false true true true true false) ∅
           eq_refl eq_refl eq_refl eq_refl eq_refl).
Defined.

(** ** The program on a blank file *)

(** When [swagger.json] is empty or holds white space only, the program
    reads no key and calls no decoder, finds nothing to resolve, and hands
    the header of the empty document to the output file: it ends with that
    text written, or with the error of the write. *)
Theorem main_on_blank_file
    (ReadFile : string -> string + string)
    (yamlUnmarshalRaw : string -> gset string + string)
    (jsonUnmarshalSwagger yamlUnmarshalSwagger
       : Store.t -> string -> (Store.t * SwaggerSpec.t) + string)
    (jsonUnmarshalDocument yamlUnmarshalDocument
       : Store.t -> string -> (Store.t * APIDocument.t) + string)
    (Errorf ToUpper : string -> string)
    (WriteFile : string -> string -> option string)
    (data : string) :
  ReadFile "swagger.json" = inl data ->
  allSpace data 0 = true ->
  main ReadFile yamlUnmarshalRaw jsonUnmarshalSwagger yamlUnmarshalSwagger
    jsonUnmarshalDocument yamlUnmarshalDocument Errorf ToUpper WriteFile
  = let summary := "API:  (v)" +:+ nl +:+ nl +:+ "DESCRIPTION:" +:+ nl
                   +:+ "(None or your description here)" +:+ nl +:+ nl in
    match WriteFile "llm1.txt" summary with
    | Some err => Fatal ("Error writing to file: " +:+ err)
    | None => Wrote "llm1.txt" summary
    end.
Proof.
  intros HF Hblank. unfold main, LoadAPISpec.
  rewrite HF, (allSpace_TrimSpace data Hblank). reflexivity.
Qed.

Lemma main_on_blank_file_witness :
  main blankFS noRaw noSwagger noSwagger noDocument noDocument (fun s => s) upperASCII anyDisk
  = Wrote "llm1.txt"
      ("API:  (v)" +:+ nl +:+ nl +:+ "DESCRIPTION:" +:+ nl
       +:+ "(None or your description here)" +:+ nl +:+ nl).
Proof.
  exact (main_on_blank_file blankFS noRaw noSwagger noSwagger noDocument noDocument
           (fun s => s) upperASCII anyDisk blankFile eq_refl eq_refl).
Defined.
